(** * wb-mqtt-serial: query planning and register binding

    A shallow embedding of the register-binding and query-planning core
    ([memory_block.cpp], [virtual_register.cpp], [ir_device_query_factory.cpp])
    together with the properties the design document states about it.

    Conventions of the embedding:
    - C++ fixed-width integers are [Z] with the conversions written out
      ([to_uint32], [to_int], [to_uint16]);
    - a function that can leave through an exception or a failed [assert]
      returns a [result];
    - a [std::set] / [std::map] ordered by a comparator is the list of its
      elements in iteration order;
    - a shared pointer to a memory block is the block's immutable part
      ([Address], [Type], [Size]): the device registry keeps one object per
      (type index, address), so pointer identity and equality of these
      records coincide inside one device. *)

From Stdlib Require Import ZArith List Bool Lia String Permutation Sorted.
From Stdlib Require Import DecimalString.
From Equations Require Import Equations.
From Equations.Prop Require Import Logic.
Import ListNotations.
Local Open Scope Z_scope.

Set Implicit Arguments.

(* ===================================================================== *)
(** * Outcomes of a call                                                  *)
(* ===================================================================== *)

(** [Return] is a normal return, [Throw] a [TSerialDeviceException]
    (configuration error), [Aborted] a failed [assert] or the dereference of
    an [end()] iterator. *)
Inductive result (A : Type) : Type :=
| Return (a : A)
| Throw
| Aborted.

Arguments Throw {A}.
Arguments Aborted {A}.

Definition bind {A B : Type} (m : result A) (k : A -> result B) : result B :=
  match m with
  | Return a => k a
  | Throw => Throw
  | Aborted => Aborted
  end.

Notation "x <- m ;; k" := (bind m (fun x => k))
  (at level 61, m at next level, right associativity).

Definition assert (b : bool) : result unit :=
  if b then Return tt else Aborted.

Definition throw_if (b : bool) : result unit :=
  if b then Throw else Return tt.

(* ===================================================================== *)
(** * Machine integers                                                    *)
(* ===================================================================== *)

Definition to_uint16 (z : Z) : Z := z mod 2 ^ 16.
Definition to_uint32 (z : Z) : Z := z mod 2 ^ 32.
Definition to_int (z : Z) : Z := (z + 2 ^ 31) mod 2 ^ 32 - 2 ^ 31.

(* ===================================================================== *)
(** * Memory blocks and bind info                                         *)
(* ===================================================================== *)

Record TMemoryBlockType : Type := {
  Index : Z;
  Name : string;
  TypeSize : Z;
  TypeReadOnly : bool;
  VariadicSize : bool
}.

(** Modelled from the spec: the comparison of two [TMemoryBlockType]
    (declared in a header that is not part of the sources at hand);
    "two blocks are type-equal iff their index matches". *)
Definition type_eqb (t u : TMemoryBlockType) : bool := Index t =? Index u.

Record TMemoryBlock : Type := {
  Address : Z;
  Type_ : TMemoryBlockType;
  Size : Z
}.

(** [TMemoryBlock::operator<]. *)
Definition mb_lt (a b : TMemoryBlock) : bool :=
  (Index (Type_ a) <? Index (Type_ b))
  || ((Index (Type_ a) =? Index (Type_ b)) && (Address a <? Address b)).

(** Equivalence under the comparator of [TPSet<PMemoryBlock>] and of the
    [TPMap] keyed by blocks. *)
Definition mb_equiv (a b : TMemoryBlock) : bool :=
  negb (mb_lt a b) && negb (mb_lt b a).

Record TIRBindInfo : Type := {
  BitStart : Z;
  BitEnd : Z
}.

Definition BitCount (b : TIRBindInfo) : Z := BitEnd b - BitStart b.

(** Modelled from the spec: [TIRBindInfo::operator!=] (declared outside the
    sources at hand); a bind info is the pair [bit_start, bit_end). *)
Definition bind_info_neqb (a b : TIRBindInfo) : bool :=
  negb ((BitStart a =? BitStart b) && (BitEnd a =? BitEnd b)).

Definition TBoundMemoryBlocks : Type := list (TMemoryBlock * TIRBindInfo).

(* ===================================================================== *)
(** * Flag enumerations                                                   *)
(* ===================================================================== *)

(** Modelled from the spec: the enumeration [EErrorState] (declared in a
    header that is not part of the sources at hand), "a flag set
    { ReadError, WriteError } with the sentinel UnknownErrorState", as 8-bit
    patterns. *)
Module EErrorState.
Definition NoError : Z := 0.
Definition WriteError : Z := 1.
Definition ReadError : Z := 2.
Definition ReadWriteError : Z := 3.
Definition UnknownErrorState : Z := 4.
End EErrorState.

(** Modelled from the spec: the enumeration [EPublishData] (declared in a
    header that is not part of the sources at hand), the flag set
    { Value, Error } of what has changed since the last publication. *)
Module EPublishData.
Definition None : Z := 0.
Definition Value : Z := 1.
Definition Error : Z := 2.
Definition ValueAndError : Z := 3.
End EPublishData.

(** Modelled from the spec: the helper [Add] on a flag set (declared outside
    the sources at hand): the bits of [b] are set. *)
Definition Add (a b : Z) : Z := Z.lor a b.

(** Modelled from the spec: the helper [Remove] on a flag set (declared
    outside the sources at hand): the bits of [b] are cleared, within the
    8 bits of the enumeration. *)
Definition Remove (a b : Z) : Z := Z.land a (Z.lxor b 255).

(** Modelled from the spec: the helper [Has] on a flag set (declared outside
    the sources at hand): all the bits of [b] are set in [a]. *)
Definition Has (a b : Z) : bool := Z.land a b =? b.

(* ===================================================================== *)
(** * Value contexts and write queries                                    *)
(* ===================================================================== *)

Inductive EWordOrder : Type := BigEndian | LittleEndian.

Record TIRDeviceValueContext : Type := {
  CtxMemoryBlocks : TBoundMemoryBlocks;
  CtxWordOrder : EWordOrder;
  CtxValue : Z
}.

Inductive EQueryStatus : Type :=
| NotExecuted
| Ok
| DeviceError
| UnknownError.

Definition status_eqb (a b : EQueryStatus) : bool :=
  match a, b with
  | NotExecuted, NotExecuted | Ok, Ok
  | DeviceError, DeviceError | UnknownError, UnknownError => true
  | _, _ => false
  end.

(** Modelled from the spec: [TIRDeviceValueQuery] with [ResetStatus],
    [SetValue] and [GetStatus] (ir_device_query.cpp is not part of the
    sources at hand).  A query has a status, one of NotExecuted, Ok,
    DeviceError, UnknownError; [set_value(ctx)] composes the outgoing image
    from the context it is handed, which the model records as is. *)
Record TIRDeviceValueQuery : Type := {
  Status : EQueryStatus;
  QueryValue : option TIRDeviceValueContext
}.

(** Modelled from the spec: [TIRDeviceQuery::ResetStatus] (not part of the
    sources at hand), "reset_status()": the status is NotExecuted again. *)
Definition ResetStatus (q : TIRDeviceValueQuery) : TIRDeviceValueQuery :=
  {| Status := NotExecuted; QueryValue := QueryValue q |}.

(** Modelled from the spec: [TIRDeviceValueQuery::SetValue] (not part of the
    sources at hand), "set_value(ctx)": the outgoing image is composed from
    the value of the context; the model keeps the context. *)
Definition SetValue (ctx : TIRDeviceValueContext) (q : TIRDeviceValueQuery)
  : TIRDeviceValueQuery :=
  {| Status := Status q; QueryValue := Some ctx |}.

(** Modelled from the spec: [TIRDeviceQuery::GetStatus] (not part of the
    sources at hand). *)
Definition GetStatus (q : TIRDeviceValueQuery) : EQueryStatus := Status q.

(* ===================================================================== *)
(** * Virtual registers                                                   *)
(* ===================================================================== *)

(** Objects held through shared or weak pointers are told apart by their
    identity: two pointers are equal iff they point to the same object. *)
Definition PSerialDevice : Type := nat.
Definition PVirtualRegister : Type := nat.

(** The identity of the register object, the fields of [TRegisterConfig]
    that the modelled member functions read, and the state of
    [TVirtualRegister].  [CurrentValue] and
    [ValueToWrite] are the 64-bit raw words held by the value formatters;
    [ValueToWrite] and [WriteQuery] are null for a read-only register. *)
Record TVirtualRegister : Type := {
  (* identity of the object and of the device it belongs to *)
  Self : PVirtualRegister;
  Device : PSerialDevice;
  (* TRegisterConfig *)
  RegType : Z;
  RegAddress : Z;
  ReadOnly : bool;
  Poll : bool;
  HasErrorValue : bool;
  ErrorValue : Z;
  WordOrder : EWordOrder;
  (* TVirtualRegister *)
  MemoryBlocks : TBoundMemoryBlocks;
  ValueToWrite : option Z;
  CurrentValue : Z;
  WriteQuery : option TIRDeviceValueQuery;
  ErrorState : Z;
  ChangedPublishData : Z;
  Dirty : bool;
  Enabled : bool;
  ValueIsRead : bool;
  ValueWasAccepted : bool
}.

Definition set_CurrentValue (v : Z) (r : TVirtualRegister) : TVirtualRegister :=
  {| Self := Self r; Device := Device r;
     RegType := RegType r; RegAddress := RegAddress r; ReadOnly := ReadOnly r;
     Poll := Poll r; HasErrorValue := HasErrorValue r;
     ErrorValue := ErrorValue r; WordOrder := WordOrder r;
     MemoryBlocks := MemoryBlocks r; ValueToWrite := ValueToWrite r;
     CurrentValue := v; WriteQuery := WriteQuery r;
     ErrorState := ErrorState r; ChangedPublishData := ChangedPublishData r;
     Dirty := Dirty r; Enabled := Enabled r; ValueIsRead := ValueIsRead r;
     ValueWasAccepted := ValueWasAccepted r |}.

Definition set_WriteQuery (q : option TIRDeviceValueQuery) (r : TVirtualRegister)
  : TVirtualRegister :=
  {| Self := Self r; Device := Device r;
     RegType := RegType r; RegAddress := RegAddress r; ReadOnly := ReadOnly r;
     Poll := Poll r; HasErrorValue := HasErrorValue r;
     ErrorValue := ErrorValue r; WordOrder := WordOrder r;
     MemoryBlocks := MemoryBlocks r; ValueToWrite := ValueToWrite r;
     CurrentValue := CurrentValue r; WriteQuery := q;
     ErrorState := ErrorState r; ChangedPublishData := ChangedPublishData r;
     Dirty := Dirty r; Enabled := Enabled r; ValueIsRead := ValueIsRead r;
     ValueWasAccepted := ValueWasAccepted r |}.

Definition set_ErrorState (e : Z) (r : TVirtualRegister) : TVirtualRegister :=
  {| Self := Self r; Device := Device r;
     RegType := RegType r; RegAddress := RegAddress r; ReadOnly := ReadOnly r;
     Poll := Poll r; HasErrorValue := HasErrorValue r;
     ErrorValue := ErrorValue r; WordOrder := WordOrder r;
     MemoryBlocks := MemoryBlocks r; ValueToWrite := ValueToWrite r;
     CurrentValue := CurrentValue r; WriteQuery := WriteQuery r;
     ErrorState := e; ChangedPublishData := ChangedPublishData r;
     Dirty := Dirty r; Enabled := Enabled r; ValueIsRead := ValueIsRead r;
     ValueWasAccepted := ValueWasAccepted r |}.

Definition set_ChangedPublishData (c : Z) (r : TVirtualRegister)
  : TVirtualRegister :=
  {| Self := Self r; Device := Device r;
     RegType := RegType r; RegAddress := RegAddress r; ReadOnly := ReadOnly r;
     Poll := Poll r; HasErrorValue := HasErrorValue r;
     ErrorValue := ErrorValue r; WordOrder := WordOrder r;
     MemoryBlocks := MemoryBlocks r; ValueToWrite := ValueToWrite r;
     CurrentValue := CurrentValue r; WriteQuery := WriteQuery r;
     ErrorState := ErrorState r; ChangedPublishData := c;
     Dirty := Dirty r; Enabled := Enabled r; ValueIsRead := ValueIsRead r;
     ValueWasAccepted := ValueWasAccepted r |}.

Definition set_Dirty (d : bool) (r : TVirtualRegister) : TVirtualRegister :=
  {| Self := Self r; Device := Device r;
     RegType := RegType r; RegAddress := RegAddress r; ReadOnly := ReadOnly r;
     Poll := Poll r; HasErrorValue := HasErrorValue r;
     ErrorValue := ErrorValue r; WordOrder := WordOrder r;
     MemoryBlocks := MemoryBlocks r; ValueToWrite := ValueToWrite r;
     CurrentValue := CurrentValue r; WriteQuery := WriteQuery r;
     ErrorState := ErrorState r; ChangedPublishData := ChangedPublishData r;
     Dirty := d; Enabled := Enabled r; ValueIsRead := ValueIsRead r;
     ValueWasAccepted := ValueWasAccepted r |}.

Definition set_ValueIsRead (b : bool) (r : TVirtualRegister) : TVirtualRegister :=
  {| Self := Self r; Device := Device r;
     RegType := RegType r; RegAddress := RegAddress r; ReadOnly := ReadOnly r;
     Poll := Poll r; HasErrorValue := HasErrorValue r;
     ErrorValue := ErrorValue r; WordOrder := WordOrder r;
     MemoryBlocks := MemoryBlocks r; ValueToWrite := ValueToWrite r;
     CurrentValue := CurrentValue r; WriteQuery := WriteQuery r;
     ErrorState := ErrorState r; ChangedPublishData := ChangedPublishData r;
     Dirty := Dirty r; Enabled := Enabled r; ValueIsRead := b;
     ValueWasAccepted := ValueWasAccepted r |}.

Definition set_ValueWasAccepted (b : bool) (r : TVirtualRegister)
  : TVirtualRegister :=
  {| Self := Self r; Device := Device r;
     RegType := RegType r; RegAddress := RegAddress r; ReadOnly := ReadOnly r;
     Poll := Poll r; HasErrorValue := HasErrorValue r;
     ErrorValue := ErrorValue r; WordOrder := WordOrder r;
     MemoryBlocks := MemoryBlocks r; ValueToWrite := ValueToWrite r;
     CurrentValue := CurrentValue r; WriteQuery := WriteQuery r;
     ErrorState := ErrorState r; ChangedPublishData := ChangedPublishData r;
     Dirty := Dirty r; Enabled := Enabled r; ValueIsRead := ValueIsRead r;
     ValueWasAccepted := b |}.

(** [TVirtualRegister::NeedToPoll]. *)
Definition NeedToPoll (r : TVirtualRegister) : bool :=
  Poll r && negb (Dirty r).

(** [TVirtualRegister::IsChanged]. *)
Definition IsChanged (state : Z) (r : TVirtualRegister) : bool :=
  Has (ChangedPublishData r) state.

(** [TVirtualRegister::ResetChanged]. *)
Definition ResetChanged (state : Z) (r : TVirtualRegister) : TVirtualRegister :=
  set_ChangedPublishData (Remove (ChangedPublishData r) state) r.

(** [TVirtualRegister::InvalidateReadValues]. *)
Definition InvalidateReadValues (r : TVirtualRegister) : TVirtualRegister :=
  set_ValueIsRead false r.

(** The error state that [UpdateReadError] / [UpdateWriteError] compute from
    the state [e] they find: the sentinel is replaced by [NoError], then the
    flag is added or removed. *)
Definition next_error_state (flag : Z) (error : bool) (e : Z) : Z :=
  let e1 := if e =? EErrorState.UnknownErrorState then EErrorState.NoError else e in
  if error then Add e1 flag else Remove e1 flag.

(** [TVirtualRegister::UpdateReadError]. *)
Definition UpdateReadError (error : bool) (r : TVirtualRegister)
  : TVirtualRegister :=
  let before := ErrorState r in
  let r :=
    if ErrorState r =? EErrorState.UnknownErrorState
    then set_ErrorState EErrorState.NoError r
    else r in
  let r :=
    if error
    then set_ErrorState (Add (ErrorState r) EErrorState.ReadError) r
    else set_ErrorState (Remove (ErrorState r) EErrorState.ReadError) r in
  if negb (ErrorState r =? before)
  then set_ChangedPublishData (Add (ChangedPublishData r) EPublishData.Error) r
  else r.

(** [TVirtualRegister::UpdateWriteError]. *)
Definition UpdateWriteError (error : bool) (r : TVirtualRegister)
  : TVirtualRegister :=
  let before := ErrorState r in
  let r :=
    if ErrorState r =? EErrorState.UnknownErrorState
    then set_ErrorState EErrorState.NoError r
    else r in
  let r :=
    if error
    then set_ErrorState (Add (ErrorState r) EErrorState.WriteError) r
    else set_ErrorState (Remove (ErrorState r) EErrorState.WriteError) r in
  if negb (ErrorState r =? before)
  then set_ChangedPublishData (Add (ChangedPublishData r) EPublishData.Error) r
  else r.

(** The shape the two updates share: they differ in the flag they add or
    remove only. *)
Definition update_error (flag : Z) (error : bool) (r : TVirtualRegister)
  : TVirtualRegister :=
  let before := ErrorState r in
  let r1 :=
    if ErrorState r =? EErrorState.UnknownErrorState
    then set_ErrorState EErrorState.NoError r
    else r in
  let r2 :=
    if error
    then set_ErrorState (Add (ErrorState r1) flag) r1
    else set_ErrorState (Remove (ErrorState r1) flag) r1 in
  if negb (ErrorState r2 =? before)
  then set_ChangedPublishData (Add (ChangedPublishData r2) EPublishData.Error) r2
  else r2.

(** [TVirtualRegister::AcceptDeviceValue]. *)
Definition AcceptDeviceValue (new_value : Z) (r : TVirtualRegister)
  : result TVirtualRegister :=
  if negb (NeedToPoll r) then Return r
  else
    _ <- assert (negb (ValueIsRead r)) ;;
    let r := set_ValueIsRead true r in
    let firstPoll := negb (ValueWasAccepted r) in
    let r := set_ValueWasAccepted true r in
    if HasErrorValue r && (ErrorValue r =? new_value)
    then Return (UpdateReadError true r)
    else if negb (CurrentValue r =? new_value)
    then
      let r := set_CurrentValue new_value r in
      let r :=
        set_ChangedPublishData (Add (ChangedPublishData r) EPublishData.Value) r in
      Return (UpdateReadError false r)
    else
      let r :=
        if firstPoll
        then set_ChangedPublishData
               (Add (ChangedPublishData r) EPublishData.Value) r
        else r in
      Return (UpdateReadError false r).

(** [TVirtualRegister::AcceptWriteValue]. *)
Definition AcceptWriteValue (r : TVirtualRegister) : result TVirtualRegister :=
  match ValueToWrite r with
  | Some v => Return (UpdateWriteError false (set_CurrentValue v r))
  | None => Aborted
  end.

(** [TVirtualRegister::GetValueContext]. *)
Definition GetValueContext (r : TVirtualRegister) : TIRDeviceValueContext :=
  {| CtxMemoryBlocks := MemoryBlocks r;
     CtxWordOrder := WordOrder r;
     CtxValue := CurrentValue r |}.

(** [TVirtualRegister::GetValueToWriteContext]. *)
Definition GetValueToWriteContext (r : TVirtualRegister)
  : result TIRDeviceValueContext :=
  match ValueToWrite r with
  | Some v =>
      Return {| CtxMemoryBlocks := MemoryBlocks r;
                CtxWordOrder := WordOrder r;
                CtxValue := v |}
  | None => Aborted
  end.

Section WithDevice.

(** Modelled from the spec: [TSerialDevice::Execute], an external
    collaborator; "device.execute(query) sets query.status". *)
Variable Execute : TIRDeviceValueQuery -> TIRDeviceValueQuery.

(** [TVirtualRegister::Flush]. *)
Definition Flush (r : TVirtualRegister) : result TVirtualRegister :=
  if Dirty r then
    let r := set_Dirty false r in
    match WriteQuery r with
    | None => Aborted
    | Some q =>
        let q := ResetStatus q in
        let q := SetValue (GetValueContext r) q in
        let q := Execute q in
        let r := set_WriteQuery (Some q) r in
        Return (UpdateWriteError (negb (status_eqb (GetStatus q) Ok)) r)
    end
  else Return r.

End WithDevice.

(** The error states a register can be in: the sentinel, or a subset of
    { WriteError, ReadError }. *)
Definition valid_error_state (e : Z) : Prop :=
  e = EErrorState.UnknownErrorState \/ 0 <= e <= 3.

(** The other of the two error flags. *)
Definition other_flag (flag : Z) : Z := 3 - flag.

(* ===================================================================== *)
(** * Ordered sets                                                        *)
(* ===================================================================== *)

(** A [std::set] with comparator [lt] is the list of its elements in
    iteration order.  [set_find] is [std::set::find]: the element equivalent
    to [x] under the comparator, if any.  [set_insert] is
    [std::set::insert]: [x] is put at its place unless an equivalent element
    is already there. *)
Section OrderedSet.

Variable A : Type.
Variable lt : A -> A -> bool.

Definition equiv (x y : A) : bool := negb (lt x y) && negb (lt y x).

Definition set_find (x : A) (l : list A) : option A :=
  find (fun y => equiv y x) l.

Fixpoint set_insert (x : A) (l : list A) : list A :=
  match l with
  | [] => [x]
  | y :: l' =>
      if lt x y then x :: l
      else if lt y x then y :: set_insert x l'
      else l
  end.

(** [s.insert(first, last)]: the elements of [l'] are inserted one by one,
    in iteration order. *)
Definition set_insert_range (l' l : list A) : list A :=
  fold_left (fun acc x => set_insert x acc) l' l.

End OrderedSet.

(** Modelled from the spec: the helper [AnyOf] (declared outside the sources
    at hand), taken as [std::any_of]: the predicate is evaluated on the
    elements in iteration order until one satisfies it. *)
Fixpoint AnyOf {A : Type} (l : list A) (p : A -> result bool) : result bool :=
  match l with
  | [] => Return false
  | x :: l' => b <- p x ;; if b then Return true else AnyOf l' p
  end.

(* ===================================================================== *)
(** * External linkage of a memory block                                  *)
(* ===================================================================== *)

(** The two implementations of [TMemoryBlock::IExternalLinkage], local to
    the two overloads of [InitExternalLinkage].  The back reference of
    [TVirtualRegisterLinkage] to its block is the block that holds the
    linkage.  Weak pointers are taken not to have expired. *)
Inductive IExternalLinkage : Type :=
| TSerialDeviceLinkage (device : PSerialDevice)
| TVirtualRegisterLinkage (VirtualRegisters : list TVirtualRegister).

(** A memory block object: its immutable part and its linkage. *)
Record TMemoryBlockObject : Type := {
  Block : TMemoryBlock;
  ExternalLinkage : option IExternalLinkage
}.

Definition set_ExternalLinkage (l : IExternalLinkage) (mb : TMemoryBlockObject)
  : TMemoryBlockObject :=
  {| Block := Block mb; ExternalLinkage := Some l |}.

(** [TVirtualRegister::GetMemoryBlockBindInfo]. *)
Definition GetMemoryBlockBindInfo (memoryBlock : TMemoryBlock)
           (r : TVirtualRegister) : result TIRBindInfo :=
  match find (fun kv => mb_equiv (fst kv) memoryBlock) (MemoryBlocks r) with
  | Some kv => Return (snd kv)
  | None => Aborted
  end.

Section Linkage.

(** Modelled from the spec: the order of [TIRDeviceValueContext] (declared
    outside the sources at hand), "a total order over (blocks ordered by
    address, bit range)"; nothing but its being a comparison is used. *)
Variable context_lt : TIRDeviceValueContext -> TIRDeviceValueContext -> bool.

(** [TVirtualRegister::operator<], the comparator of the set of registers
    of a linkage.  Its assertion that both registers are of one device is
    the one [LinkWith] makes before it touches the set. *)
Definition vreg_lt (a b : TVirtualRegister) : bool :=
  (RegType a <? RegType b)
  || ((RegType a =? RegType b)
      && context_lt (GetValueContext a) (GetValueContext b)).

(** [TVirtualRegisterLinkage::AssociatedVirtualRegister]. *)
Definition AssociatedVirtualRegister (VirtualRegisters : list TVirtualRegister)
  : result TVirtualRegister :=
  match VirtualRegisters with
  | [] => Aborted
  | v :: _ => Return v
  end.

(** [TVirtualRegisterLinkage::Has]: identity of the objects. *)
Definition LinkageHas (vreg : TVirtualRegister)
           (VirtualRegisters : list TVirtualRegister) : bool :=
  existsb (fun added => Nat.eqb (Self added) (Self vreg)) VirtualRegisters.

(** [TVirtualRegisterLinkage::LinkWithImpl]. *)
Definition LinkWithImpl (vreg : TVirtualRegister)
           (VirtualRegisters : list TVirtualRegister) : list TVirtualRegister :=
  set_insert vreg_lt vreg VirtualRegisters.

(** [TVirtualRegisterLinkage::LinkWith]. *)
Definition LinkWith (vreg : TVirtualRegister)
           (VirtualRegisters : list TVirtualRegister)
  : result (list TVirtualRegister) :=
  first <- AssociatedVirtualRegister VirtualRegisters ;;
  _ <- assert (Nat.eqb (Device first) (Device vreg)) ;;
  _ <- assert (RegType first =? RegType vreg) ;;
  _ <- assert (negb (LinkageHas vreg VirtualRegisters)) ;;
  match set_find vreg_lt vreg VirtualRegisters with
  | Some otherReg => Throw
  | None => Return (LinkWithImpl vreg VirtualRegisters)
  end.


(** [TMemoryBlock::InitExternalLinkage(const PVirtualRegister &)]. *)
Definition InitExternalLinkage_vreg (vreg : TVirtualRegister)
           (mb : TMemoryBlockObject) : bool * TMemoryBlockObject :=
  match ExternalLinkage mb with
  | Some (TVirtualRegisterLinkage _) => (false, mb)
  | _ => (true,
          set_ExternalLinkage
            (TVirtualRegisterLinkage (LinkWithImpl vreg [])) mb)
  end.

(** [TMemoryBlock::AssociateWith]. *)
Definition AssociateWith (vreg : TVirtualRegister) (mb : TMemoryBlockObject)
  : result TMemoryBlockObject :=
  let (installed, mb) := InitExternalLinkage_vreg vreg mb in
  if installed then Return mb
  else
    match ExternalLinkage mb with
    | Some (TVirtualRegisterLinkage VirtualRegisters) =>
        regs <- LinkWith vreg VirtualRegisters ;;
        Return (set_ExternalLinkage (TVirtualRegisterLinkage regs) mb)
    | Some (TSerialDeviceLinkage _) => Aborted
    | None => Aborted
    end.

End Linkage.

(** [TVirtualRegisterLinkage::NeedsCaching], for the block [memoryBlock]
    that holds the linkage. *)
Definition Linkage_NeedsCaching (memoryBlock : TMemoryBlock)
           (VirtualRegisters : list TVirtualRegister) : result bool :=
  _ <- assert (negb (Nat.eqb (List.length VirtualRegisters) 0)) ;;
  let fullCoverage :=
    {| BitStart := 0; BitEnd := to_uint16 (Size memoryBlock * 8) |} in
  AnyOf VirtualRegisters (fun vreg =>
    let writable :=
      negb (TypeReadOnly (Type_ memoryBlock)) && negb (ReadOnly vreg) in
    bindInfo <- GetMemoryBlockBindInfo memoryBlock vreg ;;
    let notFullCoverage := bind_info_neqb bindInfo fullCoverage in
    Return (writable && notFullCoverage)).

(** [TMemoryBlock::NeedsCaching]. *)
Definition NeedsCaching (mb : TMemoryBlockObject) : result bool :=
  match ExternalLinkage mb with
  | None => Return false
  | Some (TSerialDeviceLinkage _) => Return false
  | Some (TVirtualRegisterLinkage VirtualRegisters) =>
      Linkage_NeedsCaching (Block mb) VirtualRegisters
  end.

(* ===================================================================== *)
(** * Query factory                                                       *)
(* ===================================================================== *)

(** [TPSet<PMemoryBlock>]: the blocks in the order of [TMemoryBlock::operator<]. *)
Definition TPSet : Type := list TMemoryBlock.

(** Identity of two block pointers. *)
Definition type_identical (t u : TMemoryBlockType) : bool :=
  (Index t =? Index u) && String.eqb (Name t) (Name u)
  && (TypeSize t =? TypeSize u) && Bool.eqb (TypeReadOnly t) (TypeReadOnly u)
  && Bool.eqb (VariadicSize t) (VariadicSize u).

Definition mb_identical (a b : TMemoryBlock) : bool :=
  (Address a =? Address b) && type_identical (Type_ a) (Type_ b)
  && (Size a =? Size b).

(** [operator==] of two [std::set]s of block pointers: same length and the
    same pointers, position by position. *)
Fixpoint TPSet_eqb (a b : TPSet) : bool :=
  match a, b with
  | [], [] => true
  | x :: a', y :: b' => mb_identical x y && TPSet_eqb a' b'
  | _, _ => false
  end.

(** [*s.begin()] and [*s.rbegin()]; both are undefined on an empty set. *)
Definition set_begin (s : TPSet) : result TMemoryBlock :=
  match s with
  | [] => Aborted
  | mb :: _ => Return mb
  end.

Definition set_rbegin (s : TPSet) : result TMemoryBlock :=
  match s with
  | [] => Aborted
  | mb :: s' => Return (last s' mb)
  end.

(** Device and protocol parameters read by the factory. *)
Record TDeviceConfig : Type := {
  MaxBitHole : Z;
  MaxRegHole : Z;
  MaxReadRegisters : Z
}.

Record TProtocolInfo : Type := {
  IsSingleBitType : TMemoryBlockType -> bool;
  GetMaxReadBits : Z;
  GetMaxReadRegisters : Z;
  GetMaxWriteBits : Z;
  GetMaxWriteRegisters : Z
}.

Inductive EQueryOperation : Type := Read | Write.

Inductive EQueryGenerationPolicy : Type := Minify | NoDuplicates.

Definition policy_eqb (p q : EQueryGenerationPolicy) : bool :=
  match p, q with
  | Minify, Minify | NoDuplicates, NoDuplicates => true
  | _, _ => false
  end.

(** [IsReadOperation]. *)
Definition IsReadOperation (operation : EQueryOperation) : bool :=
  match operation with
  | Read => true
  | Write => false
  end.

(** [TRegisterTypeInfo]: per type, the pair (max hole, max regs), both
    [uint32_t]. *)
Definition TRegisterTypeInfo : Type := TMemoryBlockType -> Z * Z.

(** The lambda [getMaxHoleAndRegs] of [GenerateQueries].  [maxHole] and
    [maxRegs] are [int]s, converted to [uint32_t] when the pair is built. *)
Definition getMaxHoleAndRegs (deviceConfig : TDeviceConfig)
           (protocolInfo : TProtocolInfo) (operation : EQueryOperation)
           (policy : EQueryGenerationPolicy) : TRegisterTypeInfo :=
  let isRead := IsReadOperation operation in
  let enableHoles := policy_eqb policy Minify in
  fun type =>
    let singleBitType := IsSingleBitType protocolInfo type in
    let maxHole :=
      if enableHoles
      then (if singleBitType then MaxBitHole deviceConfig
            else MaxRegHole deviceConfig)
      else 0 in
    let maxRegs :=
      if isRead then
        let protocolMaximum :=
          if singleBitType then GetMaxReadBits protocolInfo
          else GetMaxReadRegisters protocolInfo in
        if MaxReadRegisters deviceConfig >? 0
        then to_int (Z.min (to_uint32 (MaxReadRegisters deviceConfig))
                           (to_uint32 protocolMaximum))
        else protocolMaximum
      else
        if singleBitType then GetMaxWriteBits protocolInfo
        else GetMaxWriteRegisters protocolInfo in
    (to_uint32 maxHole, to_uint32 maxRegs).

(** The largest gap between consecutive addresses of an ascending list. *)
Fixpoint max_gap (addresses : list Z) : Z :=
  match addresses with
  | a :: (b :: _) as rest => Z.max (b - a - 1) (max_gap rest)
  | _ => 0
  end.

(** The blocks of type index [index] with an address in [lo, hi]. *)
Definition blocks_in_range (blocks : list TMemoryBlock) (index lo hi : Z)
  : list TMemoryBlock :=
  filter (fun mb =>
            (Index (Type_ mb) =? index)
            && (lo <=? Address mb) && (Address mb <=? hi)) blocks.

Section QueryFactory.

(** [PVirtualValue]: the registers an entry carries are only moved around. *)
Variable PVirtualValue : Type.

(** The registry of memory blocks of the device the blocks belong to, an
    ordered set. *)
Variable DeviceMemoryBlocks : TPSet.

(** [TAssociatedMemoryBlockSet] and [TAssociatedMemoryBlockList]. *)
Definition TAssociatedMemoryBlockSet : Type := (TPSet * list PVirtualValue)%type.
Definition TAssociatedMemoryBlockList : Type := list TAssociatedMemoryBlockSet.

(** Modelled from the spec: [TSerialDevice::StaticCreateMemoryBlockRange]
    (serial_device.cpp is not part of the sources at hand), a view of "the
    device-wide set of blocks of that type falling in [first, last]", in
    the order of the registry. *)
Definition StaticCreateMemoryBlockRange (first last : TMemoryBlock) : TPSet :=
  blocks_in_range DeviceMemoryBlocks
                  (Index (Type_ first)) (Address first) (Address last).

(** The loop of [GetMaxHoleSize]; [hole] is a [uint32_t], [prev] an [int]. *)
Fixpoint hole_loop (view : list TMemoryBlock) (hole prev : Z) : result Z :=
  match view with
  | [] => Return hole
  | mb :: view' =>
      _ <- assert (to_int (Address mb) >? prev) ;;
      let hole :=
        if prev >=? 0
        then Z.max hole
                   (to_uint32 (to_uint32 (Address mb - to_uint32 prev) - 1))
        else hole in
      hole_loop view' hole (to_int (Address mb))
  end.

(** [GetMaxHoleSize(first, last)]. *)
Definition GetMaxHoleSize (first last : TMemoryBlock) : result Z :=
  _ <- assert (Address first <=? Address last) ;;
  hole_loop (StaticCreateMemoryBlockRange first last) 0 (-1).

(** [GetMaxHoleSize(memoryBlockSet)]. *)
Definition GetMaxHoleSize_set (memoryBlockSet : TPSet) : result Z :=
  first <- set_begin memoryBlockSet ;;
  last <- set_rbegin memoryBlockSet ;;
  GetMaxHoleSize first last.

(** [GetRegCount(first, last)]. *)
Definition GetRegCount (first last : TMemoryBlock) : result Z :=
  _ <- assert (Address first <=? Address last) ;;
  Return (to_uint32 (Address last - Address first + 1)).

(** [GetRegCount(memoryBlockSet)]. *)
Definition GetRegCount_set (memoryBlockSet : TPSet) : result Z :=
  first <- set_begin memoryBlockSet ;;
  last <- set_rbegin memoryBlockSet ;;
  GetRegCount first last.

(** [GetType] and [GetSize]. *)
Definition GetType (memoryBlockSet : TPSet) : result TMemoryBlockType :=
  first <- set_begin memoryBlockSet ;; Return (Type_ first).

Definition GetSize (memoryBlockSet : TPSet) : result Z :=
  first <- set_begin memoryBlockSet ;; Return (Size first).

(** The "check types" loop of [CheckSets]. *)
Fixpoint check_types (blocks : list TMemoryBlock) (typeIndex size : Z)
  : result unit :=
  match blocks with
  | [] => Return tt
  | mb :: blocks' =>
      _ <- throw_if (negb (Index (Type_ mb) =? typeIndex)) ;;
      _ <- throw_if (negb (Size mb =? size)) ;;
      check_types blocks' typeIndex size
  end.

(** The body of the loop of [CheckSets], for one set. *)
Definition check_set (typeInfo : TRegisterTypeInfo) (memoryBlockSet : TPSet)
  : result unit :=
  type <- GetType memoryBlockSet ;;
  let (maxHole, maxRegs) := typeInfo type in
  hole <- GetMaxHoleSize_set memoryBlockSet ;;
  _ <- throw_if (hole >? maxHole) ;;
  regCount <- GetRegCount_set memoryBlockSet ;;
  _ <- throw_if (regCount >? maxRegs) ;;
  type <- GetType memoryBlockSet ;;
  size <- GetSize memoryBlockSet ;;
  check_types memoryBlockSet (Index type) size.

(** [TIRDeviceQueryFactory::CheckSets].  The handler rethrows the exception
    under a longer message; the argument is a reference to const. *)
Fixpoint CheckSets (memoryBlockSets : TAssociatedMemoryBlockList)
         (typeInfo : TRegisterTypeInfo) : result unit :=
  match memoryBlockSets with
  | [] => Return tt
  | memoryBlockSet :: rest =>
      _ <- check_set typeInfo (fst memoryBlockSet) ;;
      CheckSets rest typeInfo
  end.

(** The lambda [mergeCondition] of [MergeSets]. *)
Definition mergeCondition (a b : TPSet) (typeInfo : TRegisterTypeInfo)
  : result bool :=
  type_a <- GetType a ;;
  type_b <- GetType b ;;
  if negb (type_eqb type_a type_b) then Return false
  else
    a_begin <- set_begin a ;;
    b_begin <- set_begin b ;;
    a_rbegin <- set_rbegin a ;;
    b_rbegin <- set_rbegin b ;;
    let first := if mb_lt a_begin b_begin then a_begin else b_begin in
    let last := if mb_lt b_rbegin a_rbegin then a_rbegin else b_rbegin in
    let (maxHole, maxRegs) := typeInfo type_a in
    holeAfterMerge <- GetMaxHoleSize first last ;;
    let regsAfterMerge := to_uint32 (Address last - Address first + 1) in
    size_a <- GetSize a ;;
    size_b <- GetSize b ;;
    Return ((size_a =? size_b)
            && (holeAfterMerge <=? maxHole)
            && (regsAfterMerge <=? maxRegs)).

(** The lambda [noDuplicatesCondition] of [MergeSets]. *)
Definition noDuplicatesCondition (a b : TPSet) (typeInfo : TRegisterTypeInfo)
  : result bool :=
  Return (TPSet_eqb a b).

Section MergeLoop.

Variable condition : TPSet -> TPSet -> result bool.

(** The inner loop of [MergeSets]: the entry [current] absorbs every
    later entry the condition accepts; the others stay in the list. *)
Fixpoint merge_others (current : TAssociatedMemoryBlockSet)
         (others : TAssociatedMemoryBlockList)
  : result (TAssociatedMemoryBlockSet * TAssociatedMemoryBlockList) :=
  match others with
  | [] => Return (current, [])
  | other :: others' =>
      mergeable <- condition (fst current) (fst other) ;;
      if mergeable then
        merge_others
          (set_insert_range mb_lt (fst other) (fst current),
           snd current ++ snd other)
          others'
      else
        r <- merge_others current others' ;;
        Return (fst r, other :: snd r)
  end.

(** The outer loop of [MergeSets]. *)
Equations? merge_loop (sets : TAssociatedMemoryBlockList)
  : result TAssociatedMemoryBlockList by wf (List.length sets) lt :=
  merge_loop [] := Return [];
  merge_loop (current :: others) with inspect (merge_others current others) := {
    | exist _ (Return r) H =>
        rest <- merge_loop (snd r) ;; Return (fst r :: rest);
    | exist _ Throw _ => Throw;
    | exist _ Aborted _ => Aborted }.
Proof.
  clear merge_loop.
  enough (Hlen : forall others current r,
             merge_others current others = Return r ->
             (List.length (snd r) <= List.length others)%nat).
  { apply Hlen in H. cbn [snd] in H. lia. }
  clear. intros others.
  induction others as [| other others IH]; intros current r H; cbn in H.
  - injection H as <-. cbn. lia.
  - destruct (condition (fst current) (fst other)) as [[|] | |];
      cbn in H; try discriminate.
    + apply IH in H. cbn. lia.
    + destruct (merge_others current others) as [r' | |] eqn:E;
        cbn in H; try discriminate.
      injection H as <-. apply IH in E. cbn. lia.
Qed.

End MergeLoop.

(** [TIRDeviceQueryFactory::MergeSets]. *)
Definition MergeSets (memoryBlockSets : TAssociatedMemoryBlockList)
           (typeInfo : TRegisterTypeInfo) (policy : EQueryGenerationPolicy)
  : result TAssociatedMemoryBlockList :=
  _ <- CheckSets memoryBlockSets typeInfo ;;
  let condition :=
    if policy_eqb policy NoDuplicates then noDuplicatesCondition
    else mergeCondition in
  merge_loop (fun a b => condition a b typeInfo) memoryBlockSets.

End QueryFactory.

(* ===================================================================== *)
(** * Specification vocabulary                                            *)
(* ===================================================================== *)

(** An [int] that is not negative. *)
Definition nonneg_int (z : Z) : Prop := 0 <= z < 2 ^ 31.

(** Ascending addresses. *)
Definition ascending (addresses : list Z) : Prop := StronglySorted Z.lt addresses.

(** The list is in the strict order of [TMemoryBlock::operator<], as the
    elements of a [TPSet<PMemoryBlock>] are. *)
Definition ordered_set (s : TPSet) : Prop :=
  StronglySorted (fun a b => mb_lt a b = true) s.

(** The registry of a device: an ordered set of blocks whose addresses are
    non-negative as [int]s (what the assertions of [GetMaxHoleSize] demand). *)
Definition registry_ok (blocks : TPSet) : Prop :=
  ordered_set blocks /\ forall mb, In mb blocks -> nonneg_int (Address mb).

(** A non-empty ordered set of blocks of the registry. *)
Definition block_set_ok (blocks s : TPSet) : Prop :=
  s <> [] /\ ordered_set s /\ forall mb, In mb s -> In mb blocks.

Definition uniform_type (s : TPSet) : Prop :=
  forall mb mb', In mb s -> In mb' s -> Index (Type_ mb) = Index (Type_ mb').

Definition uniform_size (s : TPSet) : Prop :=
  forall mb mb', In mb s -> In mb' s -> Size mb = Size mb'.

(** The largest gap between consecutive addresses among the blocks of the
    device of type index [index] with an address in [lo, hi]. *)
Definition device_gap (blocks : TPSet) (index lo hi : Z) : Z :=
  max_gap (map Address (blocks_in_range blocks index lo hi)).

(** A set exceeds the limits of its type: the gap, taken over the blocks
    that the device has in the range of the set, the width from the first to
    the last address, or a block of another type index or size than the
    first.  (An empty set has no first block; it does not occur.) *)
Definition exceeds_limits (blocks : TPSet) (typeInfo : TRegisterTypeInfo)
           (s : TPSet) : Prop :=
  match s with
  | [] => False
  | first :: s' =>
      let last := last s' first in
      device_gap blocks (Index (Type_ first)) (Address first) (Address last)
        > fst (typeInfo (Type_ first))
      \/ Address last - Address first + 1 > snd (typeInfo (Type_ first))
      \/ (exists mb, In mb s /\ Index (Type_ mb) <> Index (Type_ first))
      \/ (exists mb, In mb s /\ Size mb <> Size first)
  end.

(** The same with the gap taken over the addresses of the set itself. *)
Definition exceeds_limits_within (typeInfo : TRegisterTypeInfo) (s : TPSet)
  : Prop :=
  match s with
  | [] => False
  | first :: s' =>
      let last := last s' first in
      max_gap (map Address s) > fst (typeInfo (Type_ first))
      \/ Address last - Address first + 1 > snd (typeInfo (Type_ first))
      \/ (exists mb, In mb s /\ Index (Type_ mb) <> Index (Type_ first))
      \/ (exists mb, In mb s /\ Size mb <> Size first)
  end.

(** The first address of a set is not above its last address, as
    [GetMaxHoleSize] and [GetRegCount] assert. *)
Definition first_le_last (s : TPSet) : Prop :=
  match s with
  | [] => True
  | first :: s' => Address first <= Address (last s' first)
  end.

(** The distinct elements of a list of block sets, each at its first
    occurrence. *)
Fixpoint distinct_sets (sets : list TPSet) : list TPSet :=
  match sets with
  | [] => []
  | s :: sets' => s :: filter (fun t => negb (TPSet_eqb s t)) (distinct_sets sets')
  end.

(** The registers of the entries that carry the block set [s], in the order
    of the entries. *)
Definition registers_of (V : Type) (s : TPSet) (sets : list (TPSet * list V))
  : list V :=
  List.concat (map snd (filter (fun e => TPSet_eqb s (fst e)) sets)).

(** One entry per distinct block set, in the order of the first
    occurrences, each with the registers of all the entries that carry it. *)
Definition coalesced (V : Type) (sets : list (TPSet * list V))
  : list (TPSet * list V) :=
  map (fun s => (s, registers_of s sets)) (distinct_sets (map fst sets)).

(** ** Sample blocks and registers *)

Definition holding : TMemoryBlockType :=
  {| Index := 0; Name := "holding"; TypeSize := 2;
     TypeReadOnly := false; VariadicSize := false |}.

Definition block (address : Z) : TMemoryBlock :=
  {| Address := address; Type_ := holding; Size := 2 |}.

(** A writable register as [Initialize] leaves it, later written to through
    [SetTextValue]: the value to write is 5, the current value still 0. *)
Definition written_register : TVirtualRegister :=
  {| Self := 1%nat; Device := 0%nat;
     RegType := 0; RegAddress := 100; ReadOnly := false; Poll := true;
     HasErrorValue := false; ErrorValue := 0; WordOrder := BigEndian;
     MemoryBlocks := [(block 100, {| BitStart := 0; BitEnd := 16 |})];
     ValueToWrite := Some 5; CurrentValue := 0;
     WriteQuery := Some {| Status := NotExecuted; QueryValue := None |};
     ErrorState := EErrorState.UnknownErrorState;
     ChangedPublishData := EPublishData.None;
     Dirty := true; Enabled := true; ValueIsRead := false;
     ValueWasAccepted := false |}.

(** A device that executes every query successfully. *)
Definition execute_ok (q : TIRDeviceValueQuery) : TIRDeviceValueQuery :=
  {| Status := Ok; QueryValue := QueryValue q |}.

(** A device that fails every query. *)
Definition execute_fail (q : TIRDeviceValueQuery) : TIRDeviceValueQuery :=
  {| Status := DeviceError; QueryValue := QueryValue q |}.

(** A polled register that has not been read in this cycle. *)
Definition polled_register : TVirtualRegister :=
  {| Self := 1%nat; Device := 0%nat;
     RegType := 0; RegAddress := 100; ReadOnly := true; Poll := true;
     HasErrorValue := true; ErrorValue := 65535; WordOrder := BigEndian;
     MemoryBlocks := [(block 100, {| BitStart := 0; BitEnd := 16 |})];
     ValueToWrite := None; CurrentValue := 0;
     WriteQuery := None;
     ErrorState := EErrorState.UnknownErrorState;
     ChangedPublishData := EPublishData.None;
     Dirty := false; Enabled := true; ValueIsRead := false;
     ValueWasAccepted := false |}.

(** A register of device 0 bound to bits [bit_start, bit_end) of the
    holding block at [address]. *)
Definition sample_register (self : PVirtualRegister) (address : Z)
           (read_only : bool) (bit_start bit_end : Z) : TVirtualRegister :=
  {| Self := self; Device := 0%nat;
     RegType := 0; RegAddress := address; ReadOnly := read_only; Poll := true;
     HasErrorValue := false; ErrorValue := 0; WordOrder := BigEndian;
     MemoryBlocks :=
       [(block address, {| BitStart := bit_start; BitEnd := bit_end |})];
     ValueToWrite := if read_only then None else Some 0;
     CurrentValue := 0;
     WriteQuery :=
       if read_only then None
       else Some {| Status := NotExecuted; QueryValue := None |};
     ErrorState := EErrorState.UnknownErrorState;
     ChangedPublishData := EPublishData.None;
     Dirty := false; Enabled := true; ValueIsRead := false;
     ValueWasAccepted := false |}.

(** A register of device 1, at the address of the holding block at 100. *)
Definition foreign_register : TVirtualRegister :=
  {| Self := 9%nat; Device := 1%nat;
     RegType := 0; RegAddress := 100; ReadOnly := true; Poll := true;
     HasErrorValue := false; ErrorValue := 0; WordOrder := BigEndian;
     MemoryBlocks := [(block 100, {| BitStart := 0; BitEnd := 16 |})];
     ValueToWrite := None; CurrentValue := 0;
     WriteQuery := None;
     ErrorState := EErrorState.UnknownErrorState;
     ChangedPublishData := EPublishData.None;
     Dirty := false; Enabled := true; ValueIsRead := false;
     ValueWasAccepted := false |}.

(** An order of value contexts by position: the first block's address, then
    the bit range, a range being before another when it ends where the
    other starts or earlier. *)
Definition position_lt (a b : TIRDeviceValueContext) : bool :=
  match CtxMemoryBlocks a, CtxMemoryBlocks b with
  | (ma, ba) :: _, (mb, bb) :: _ =>
      (Address ma <? Address mb)
      || ((Address ma =? Address mb) && (BitEnd ba <=? BitStart bb))
  | _, _ => false
  end.


(** A device with holding blocks at addresses 100 to 103, and the limits
    "no hole, at most 125 registers" for every type. *)
Definition sample_registry : TPSet := [block 100; block 101; block 102; block 103].

Definition no_hole_limits : TRegisterTypeInfo := fun _ => (0, 125).

(** A device with holding blocks at addresses 100, 101 and 103. *)
Definition sparse_registry : TPSet := [block 100; block 101; block 103].

(** Three registers, the first and the third on the block at 100, the second
    on the block at 101. *)
Definition interleaved_sets : list (TPSet * list nat) :=
  [([block 100], [1%nat]); ([block 101], [2%nat]); ([block 100], [3%nat])].

(** A device with holding blocks at addresses 98 to 102. *)
Definition wide_registry : TPSet :=
  [block 98; block 99; block 100; block 101; block 102].

(** A second type, of single bits, and a block of it. *)
Definition coil : TMemoryBlockType :=
  {| Index := 1; Name := "coil"; TypeSize := 1;
     TypeReadOnly := false; VariadicSize := false |}.

Definition coil_block (address : Z) : TMemoryBlock :=
  {| Address := address; Type_ := coil; Size := 1 |}.

(** A device with a holding block at 100 and a coil at 50; the holding
    block comes first in the order, its type index being the smaller. *)
Definition mixed_registry : TPSet := [block 100; coil_block 50].

(** One entry per address: the holding block at that address, carried by a
    register named after the address. *)
Definition entries_at (addresses : list Z) : list (TPSet * list Z) :=
  map (fun a => ([block a], [a])) addresses.

(** The same limits for every type. *)
Definition limits (max_hole max_regs : Z) : TRegisterTypeInfo :=
  fun _ => (max_hole, max_regs).

(** The address ranges and registers of the entries of a result. *)
Definition summary (r : result (list (TPSet * list Z)))
  : option (list (list Z * list Z)) :=
  match r with
  | Return sets => Some (map (fun e => (map Address (fst e), snd e)) sets)
  | _ => None
  end.

(* ===================================================================== *)
(** * Virtual registers: the write path and the text values               *)
(* ===================================================================== *)

Definition set_ValueToWrite (v : option Z) (r : TVirtualRegister)
  : TVirtualRegister :=
  {| Self := Self r; Device := Device r;
     RegType := RegType r; RegAddress := RegAddress r; ReadOnly := ReadOnly r;
     Poll := Poll r; HasErrorValue := HasErrorValue r;
     ErrorValue := ErrorValue r; WordOrder := WordOrder r;
     MemoryBlocks := MemoryBlocks r; ValueToWrite := v;
     CurrentValue := CurrentValue r; WriteQuery := WriteQuery r;
     ErrorState := ErrorState r; ChangedPublishData := ChangedPublishData r;
     Dirty := Dirty r; Enabled := Enabled r; ValueIsRead := ValueIsRead r;
     ValueWasAccepted := ValueWasAccepted r |}.

(** [TVirtualRegister::NeedToFlush]. *)
Definition NeedToFlush (r : TVirtualRegister) : bool := Dirty r.

(** [TVirtualRegister::IsEnabled] and [TVirtualRegister::SetEnabled] (the
    debug output apart). *)
Definition IsEnabled (r : TVirtualRegister) : bool := Enabled r.

(** What a call of [SetTextValue] leaves behind: the register, whether the
    flush semaphore was signalled, and how the call ended. *)
Record TSetTextValueResult : Type := {
  After : TVirtualRegister;
  Signalled : bool;
  Outcome : result unit
}.

Section TextValue.

(** [TRegisterConfig::OnValue] of the register. *)
Variable OnValue : string.

(** Modelled from the spec: [TIRValueFormatter::SetTextValue] (not part of
    the sources at hand), "from_text": the raw word of a text, or the
    exception of a malformed text. *)
Variable FormatterSetTextValue : string -> result Z.

(** Modelled from the spec: [TIRValueFormatter::GetTextValue] (not part of
    the sources at hand), "to_text": the text of a raw word. *)
Variable FormatterGetTextValue : Z -> string.

(** Whether [SetFlushSignal] has registered a semaphore. *)
Variable FlushNeeded : bool.

(** [TVirtualRegister::GetTextValue]. *)
Definition GetTextValue (r : TVirtualRegister) : string :=
  let textValue := FormatterGetTextValue (CurrentValue r) in
  if String.eqb OnValue EmptyString then textValue
  else if String.eqb textValue OnValue then "1"%string else "0"%string.

(** [TVirtualRegister::SetTextValue].  The dirty flag is stored before the
    formatter is called, so it stays when the formatter throws. *)
Definition SetTextValue (value : string) (r : TVirtualRegister)
  : TSetTextValueResult :=
  if ReadOnly r then
    {| After := r; Signalled := false; Outcome := Return tt |}
  else
    let r := set_Dirty true r in
    match ValueToWrite r with
    | None => {| After := r; Signalled := false; Outcome := Aborted |}
    | Some _ =>
        let text :=
          if String.eqb OnValue EmptyString then value
          else if String.eqb value "1" then OnValue else "0"%string in
        match FormatterSetTextValue text with
        | Return v =>
            {| After := set_ValueToWrite (Some v) r;
               Signalled := FlushNeeded;
               Outcome := Return tt |}
        | Throw => {| After := r; Signalled := false; Outcome := Throw |}
        | Aborted => {| After := r; Signalled := false; Outcome := Aborted |}
        end
    end.

End TextValue.

(** A formatter of unsigned decimal texts, for the examples: like the
    conversions of the standard library it takes more than one spelling of a
    number ("7" and "007"), and it prints one. *)
Definition sample_from_text (text : string) : result Z :=
  match NilZero.uint_of_string text with
  | Some digits => Return (Z.of_uint digits)
  | None => Throw
  end.

Definition sample_to_text (raw : Z) : string :=
  NilZero.string_of_uint (N.to_uint (Z.to_N raw)).

(* ===================================================================== *)
(** * Integer formats                                                     *)
(* ===================================================================== *)

(** The formats named by the switches of [ConvertSlaveValue] and
    [ConvertMasterValue]. *)
Inductive RegisterFormat : Type :=
| U8 | S8 | U16 | S16 | S24 | U24 | U32 | S32 | S64 | U64
| BCD8 | BCD16 | BCD24 | BCD32 | Float | Double | Char8.

Definition to_int8 (z : Z) : Z := (z + 2 ^ 7) mod 2 ^ 8 - 2 ^ 7.
Definition to_int16 (z : Z) : Z := (z + 2 ^ 15) mod 2 ^ 16 - 2 ^ 15.
Definition to_int64 (z : Z) : Z := (z + 2 ^ 63) mod 2 ^ 64 - 2 ^ 63.
Definition to_uint64 (z : Z) : Z := z mod 2 ^ 64.

(** [ConvertSlaveValue], up to the text: the integer that the case of the
    format hands to [ToScaledTextValue] for the [uint64_t] [value].  The BCD,
    floating point and character formats hand over no such integer. *)
Definition ConvertSlaveValue_integer (format : RegisterFormat) (value : Z)
  : option Z :=
  match format with
  | S8 => Some (to_int8 (Z.land value 0xff))
  | S16 => Some (to_int16 (Z.land value 0xffff))
  | S24 =>
      let v := to_uint32 (Z.land value 0xffffff) in
      let v := if negb (Z.land v 0x800000 =? 0) then Z.lor v 0xff000000 else v in
      Some (to_int v)
  | S32 => Some (to_int (Z.land value 0xffffffff))
  | S64 => Some (to_int64 value)
  | BCD8 | BCD16 | BCD24 | BCD32 | Float | Double | Char8 => None
  | U8 | U16 | U24 | U32 | U64 => Some value
  end.

(** [ConvertMasterValue], from the integer on: the raw [uint64_t] that the
    case of the format computes from the integer [n] that
    [FromScaledTextValue] returned ([int64_t] for the signed formats,
    [uint64_t] for the unsigned ones). *)
Definition ConvertMasterValue_integer (format : RegisterFormat) (n : Z)
  : option Z :=
  match format with
  | S8 => Some (to_uint64 (Z.land n 0xff))
  | S16 => Some (to_uint64 (Z.land n 0xffff))
  | S24 => Some (to_uint64 (Z.land n 0xffffff))
  | S32 => Some (to_uint64 (Z.land n 0xffffffff))
  | S64 => Some (to_uint64 n)
  | U8 => Some (Z.land n 0xff)
  | U16 => Some (Z.land n 0xffff)
  | U24 => Some (Z.land n 0xffffff)
  | U32 => Some (Z.land n 0xffffffff)
  | U64 => Some n
  | BCD8 | BCD16 | BCD24 | BCD32 | Float | Double | Char8 => None
  end.

(** The width in bits of an integer format, and whether it is signed. *)
Definition format_width (format : RegisterFormat) : Z :=
  match format with
  | U8 | S8 | BCD8 | Char8 => 8
  | U16 | S16 | BCD16 => 16
  | U24 | S24 | BCD24 => 24
  | U32 | S32 | BCD32 | Float => 32
  | U64 | S64 | Double => 64
  end.

Definition format_signed (format : RegisterFormat) : bool :=
  match format with
  | S8 | S16 | S24 | S32 | S64 => true
  | _ => false
  end.

(* ===================================================================== *)
(** * Memory blocks: association queries and the cache                    *)
(* ===================================================================== *)

Section LinkageQueries.

Variable context_lt : TIRDeviceValueContext -> TIRDeviceValueContext -> bool.

(** [TVirtualRegister::AreOverlapping]. *)
Definition AreOverlapping (this other : TVirtualRegister) : bool :=
  if Nat.eqb (Device this) (Device other) && (RegType this =? RegType other)
  then
    let thisValueDesc := GetValueContext this in
    let otherValueDesc := GetValueContext other in
    negb (context_lt thisValueDesc otherValueDesc)
    && negb (context_lt otherValueDesc thisValueDesc)
  else false.

(** [TVirtualRegister::operator<] with its assertion that the two registers
    are of one device. *)
Definition vreg_lt_asserted (a b : TVirtualRegister) : result bool :=
  _ <- assert (Nat.eqb (Device a) (Device b)) ;;
  Return (vreg_lt context_lt a b).

(** [count] of the register set: whether an element is equivalent to [vreg]
    under the comparator; every comparison goes through [operator<] and its
    assertion.  The elements are compared in iteration order, as [set_find]
    does for [find]. *)
Fixpoint set_count (vreg : TVirtualRegister)
         (VirtualRegisters : list TVirtualRegister) : result bool :=
  match VirtualRegisters with
  | [] => Return false
  | added :: rest =>
      below <- vreg_lt_asserted added vreg ;;
      above <- vreg_lt_asserted vreg added ;;
      if negb below && negb above then Return true
      else set_count vreg rest
  end.

(** [IExternalLinkage::IsLinkedWith] of the two linkages. *)
Definition IsLinkedWith (vreg : TVirtualRegister) (linkage : IExternalLinkage)
  : result bool :=
  match linkage with
  | TSerialDeviceLinkage _ => Return false
  | TVirtualRegisterLinkage VirtualRegisters =>
      _ <- assert (negb (Nat.eqb (List.length VirtualRegisters) 0)) ;;
      set_count vreg VirtualRegisters
  end.

(** [TMemoryBlock::IsAssociatedWith]. *)
Definition IsAssociatedWith (vreg : TVirtualRegister) (mb : TMemoryBlockObject)
  : result bool :=
  match ExternalLinkage mb with
  | None => Aborted
  | Some linkage => IsLinkedWith vreg linkage
  end.

End LinkageQueries.

(** [TMemoryBlock::IsReady]. *)
Definition IsReady (mb : TMemoryBlockObject) : bool :=
  match ExternalLinkage mb with
  | Some _ => true
  | None => false
  end.

(** [TMemoryBlock::GetDevice]: the device of a device linkage, the device of
    the first register of a register linkage. *)
Definition MemoryBlock_GetDevice (mb : TMemoryBlockObject) : result PSerialDevice :=
  match ExternalLinkage mb with
  | None => Aborted
  | Some (TSerialDeviceLinkage device) => Return device
  | Some (TVirtualRegisterLinkage VirtualRegisters) =>
      _ <- assert (negb (Nat.eqb (List.length VirtualRegisters) 0)) ;;
      match VirtualRegisters with
      | [] => Aborted
      | v :: _ => Return (Device v)
      end
  end.

(** A memory block object with its cache pointer; the null pointer is 0. *)
Record TCachedMemoryBlock : Type := {
  Object : TMemoryBlockObject;
  Cache : nat
}.

(** [TMemoryBlock::AssignCache] (the debug output apart). *)
Definition AssignCache (cache : nat) (mb : TCachedMemoryBlock)
  : result TCachedMemoryBlock :=
  needed <- NeedsCaching (Object mb) ;;
  _ <- assert needed ;;
  _ <- assert (Nat.eqb (Cache mb) 0) ;;
  Return {| Object := Object mb; Cache := cache |}.

(** [TMemoryBlock::GetCache]: the cache pointer of the view it returns. *)
Definition GetCache (mb : TCachedMemoryBlock) : result nat :=
  needed <- NeedsCaching (Object mb) ;;
  _ <- assert (Bool.eqb needed (negb (Nat.eqb (Cache mb) 0))) ;;
  Return (Cache mb).

(** The registers of a register linkage are of one device, as the
    assertions of [LinkWith] keep them. *)
Definition one_device (mb : TMemoryBlockObject) : Prop :=
  forall regs,
    ExternalLinkage mb = Some (TVirtualRegisterLinkage regs) ->
    forall x y, In x regs -> In y regs -> Device x = Device y.

(** The registers of a register linkage are of one device and one type,
    are distinct objects, and no two of them overlap. *)
Definition linkage_ok
           (context_lt : TIRDeviceValueContext -> TIRDeviceValueContext -> bool)
           (regs : list TVirtualRegister) : Prop :=
  regs <> []
  /\ (forall x y, In x regs -> In y regs ->
                  Device x = Device y /\ RegType x = RegType y)
  /\ NoDup (map Self regs)
  /\ (forall x y, In x regs -> In y regs -> Self x <> Self y ->
                  AreOverlapping context_lt x y = false).

(* ===================================================================== *)
(** * Query sets per poll interval                                        *)
(* ===================================================================== *)

(** The intervals of a list, each at its first occurrence. *)
Fixpoint first_seen (intervals : list Z) : list Z :=
  match intervals with
  | [] => []
  | i :: rest => i :: filter (fun j => negb (j =? i)) (first_seen rest)
  end.

Section QuerySets.

(** [PVirtualRegister], and [vreg->PollInterval.count()]. *)
Variable PRegister : Type.
Variable PollInterval : PRegister -> Z.

(** Modelled from the spec: the constructor of [TIRDeviceQuerySet] (not part
    of the sources at hand), "constructed from a list of virtual registers";
    constructing a query set "invokes the QueryFactory", whose check of the
    input raises the configuration error, so the constructor returns the
    query set or ends in an exception or a failed assertion. *)
Variable PIRDeviceQuerySet : Type.
Variable MakeQuerySet
  : list PRegister -> EQueryOperation -> result PIRDeviceQuerySet.

(** [std::map<int64_t, vector<PVirtualRegister>>], of which only
    [operator[]] and [find] are used: the keys with their vectors. *)
Definition TRegistersByInterval : Type := list (Z * list PRegister).

Fixpoint map_find (key : Z) (m : TRegistersByInterval)
  : option (list PRegister) :=
  match m with
  | [] => None
  | (k, v) :: m' => if k =? key then Some v else map_find key m'
  end.

Fixpoint map_store (key : Z) (value : list PRegister) (m : TRegistersByInterval)
  : TRegistersByInterval :=
  match m with
  | [] => [(key, value)]
  | (k, v) :: m' =>
      if k =? key then (key, value) :: m' else (k, v) :: map_store key value m'
  end.

(** The body of the first loop of [GenerateQuerySets]: [operator[]] gives the
    vector of the interval, a new and empty one if the key is new. *)
Definition collect_register (state : TRegistersByInterval * list Z)
           (vreg : PRegister) : TRegistersByInterval * list Z :=
  let (virtualRegistersByTypeAndInterval, pollIntervals) := state in
  let pollInterval := PollInterval vreg in
  let virtualRegisterSets :=
    match map_find pollInterval virtualRegistersByTypeAndInterval with
    | Some registers => registers
    | None => []
    end in
  let pollIntervals :=
    match virtualRegisterSets with
    | [] => pollIntervals ++ [pollInterval]
    | _ => pollIntervals
    end in
  (map_store pollInterval (virtualRegisterSets ++ [vreg])
             virtualRegistersByTypeAndInterval,
   pollIntervals).

(** The second loop of [GenerateQuerySets]: an exception of the constructor
    leaves the loop and the function. *)
Fixpoint make_query_sets (m : TRegistersByInterval) (pollIntervals : list Z)
         (operation : EQueryOperation) : result (list (Z * PIRDeviceQuerySet)) :=
  match pollIntervals with
  | [] => Return []
  | pollInterval :: rest =>
      match map_find pollInterval m with
      | None => Aborted
      | Some registers =>
          querySet <- MakeQuerySet registers operation ;;
          sets <- make_query_sets m rest operation ;;
          Return ((pollInterval, querySet) :: sets)
      end
  end.

(** [TIRDeviceQueryFactory::GenerateQuerySets]. *)
Definition GenerateQuerySets (virtualRegisters : list PRegister)
           (operation : EQueryOperation)
  : result (list (Z * PIRDeviceQuerySet)) :=
  let (virtualRegistersByTypeAndInterval, pollIntervals) :=
    fold_left collect_register virtualRegisters ([], []) in
  make_query_sets virtualRegistersByTypeAndInterval pollIntervals operation.

End QuerySets.

(** A constructor of query sets, for the examples: it refuses a list that
    holds the register 11, as the check of the factory refuses registers
    that do not fit the limits, and gives back the other lists as they
    are. *)
Definition sample_query_set (registers : list Z) (operation : EQueryOperation)
  : result (list Z) :=
  if existsb (fun v => v =? 11) registers then Throw else Return registers.


(* ===================================================================== *)
(** * Vocabulary of the merge                                             *)
(* ===================================================================== *)

(** The entry [e] went into the entry [o]: [o] carries the registers of [e]
    and, for each block of [e], that block or the block of the same type
    index and address. *)
Definition absorbed (V : Type) (e o : TPSet * list V) : Prop :=
  (forall x, In x (snd e) -> In x (snd o))
  /\ (forall b, In b (fst e) ->
                exists b', In b' (fst o) /\ mb_equiv b' b = true).

(** A set is within the limits of its type: the gap over the blocks that
    the device has in the range of the set, the width of the range, one type
    index and one size. *)
Definition within_limits (blocks : TPSet) (typeInfo : TRegisterTypeInfo)
           (s : TPSet) : Prop :=
  match s with
  | [] => False
  | first :: s' =>
      let last := last s' first in
      Address first <= Address last
      /\ device_gap blocks (Index (Type_ first)) (Address first) (Address last)
         <= fst (typeInfo (Type_ first))
      /\ Address last - Address first + 1 <= snd (typeInfo (Type_ first))
      /\ uniform_type s
      /\ uniform_size s
  end.

(** The type of a block is the type the protocol has under the type index
    (the constructors of [TMemoryBlock] look it up there): blocks of one
    type index have one type. *)
Definition types_by_index (blocks : TPSet) : Prop :=
  forall a b, In a blocks -> In b blocks ->
              Index (Type_ a) = Index (Type_ b) -> Type_ a = Type_ b.


(** Two sets that the merge condition of the Minify policy refuses to merge,
    whichever of the two comes first. *)
Definition unmergeable (blocks : TPSet) (typeInfo : TRegisterTypeInfo)
           (a b : TPSet) : Prop :=
  mergeCondition blocks a b typeInfo = Return false
  /\ mergeCondition blocks b a typeInfo = Return false.

(** The addresses of [lo, hi]. *)
Definition in_range (lo hi z : Z) : bool := (lo <=? z) && (z <=? hi).

(* ===================================================================== *)
(** * Properties                                                          *)
(* ===================================================================== *)

(** ** Flag arithmetic *)

Lemma Has_Add_same (a b : Z) : Has (Add a b) b = true.
Proof.
  unfold Has, Add. apply Z.eqb_eq. apply Z.bits_inj'. intros n _.
  rewrite Z.land_spec, Z.lor_spec.
  destruct (Z.testbit a n), (Z.testbit b n); reflexivity.
Qed.

Lemma Has_Add_Error_Value (c : Z) :
  Has (Add c EPublishData.Error) EPublishData.Value = Has c EPublishData.Value.
Proof.
  unfold Has, Add, EPublishData.Error, EPublishData.Value.
  rewrite Z.land_lor_distr_l. change (Z.land 2 1) with 0.
  now rewrite Z.lor_0_r.
Qed.

Lemma Has_Remove_Error (c : Z) :
  Has (Remove c EPublishData.Error) EPublishData.Error = false.
Proof.
  unfold Has, Remove, EPublishData.Error.
  rewrite <- Z.land_assoc. change (Z.land (Z.lxor 2 255) 2) with 0.
  now rewrite Z.land_0_r.
Qed.

Lemma valid_error_state_cases (e : Z) :
  valid_error_state e -> e = 0 \/ e = 1 \/ e = 2 \/ e = 3 \/ e = 4.
Proof. unfold valid_error_state, EErrorState.UnknownErrorState. lia. Qed.

(** ** Error state updates *)

Lemma UpdateReadError_shape (error : bool) (r : TVirtualRegister) :
  UpdateReadError error r = update_error EErrorState.ReadError error r.
Proof. reflexivity. Qed.

Lemma UpdateWriteError_shape (error : bool) (r : TVirtualRegister) :
  UpdateWriteError error r = update_error EErrorState.WriteError error r.
Proof. reflexivity. Qed.

Lemma update_error_fields (flag : Z) (error : bool) (r : TVirtualRegister) :
  let r' := update_error flag error r in
  ErrorState r' = next_error_state flag error (ErrorState r)
  /\ ChangedPublishData r'
     = (if ErrorState r' =? ErrorState r then ChangedPublishData r
        else Add (ChangedPublishData r) EPublishData.Error)
  /\ CurrentValue r' = CurrentValue r
  /\ Dirty r' = Dirty r
  /\ ValueIsRead r' = ValueIsRead r
  /\ ValueWasAccepted r' = ValueWasAccepted r
  /\ WriteQuery r' = WriteQuery r
  /\ Poll r' = Poll r.
Proof.
  destruct r as [self dev ty ad ro po he ev wo mbs vw cv wq es cp di en vr va].
  unfold update_error, next_error_state; cbn [ErrorState].
  destruct (es =? EErrorState.UnknownErrorState), error;
    cbn [ErrorState set_ErrorState ChangedPublishData];
    match goal with
    | |- context [negb (?a =? es)] => destruct (a =? es) eqn:E
    end; cbn -[Add Remove Z.eqb]; rewrite ?E; repeat split; reflexivity.
Qed.

Lemma next_error_state_spec (flag : Z) (error : bool) (e : Z) :
  flag = EErrorState.ReadError \/ flag = EErrorState.WriteError ->
  valid_error_state e ->
  let e' := next_error_state flag error e in
  0 <= e' <= 3
  /\ Has e' flag = error
  /\ Has e' (other_flag flag)
     = (if e =? EErrorState.UnknownErrorState then false
        else Has e (other_flag flag))
  /\ next_error_state flag error e' = e'.
Proof.
  intros Hflag Hvalid.
  apply valid_error_state_cases in Hvalid.
  unfold EErrorState.ReadError, EErrorState.WriteError in Hflag.
  destruct Hflag as [-> | ->];
    destruct Hvalid as [-> | [-> | [-> | [-> | ->]]]];
    destruct error; vm_compute; repeat split; congruence.
Qed.

Lemma IsChanged_Value_update_error (flag : Z) (error : bool) (r : TVirtualRegister) :
  IsChanged EPublishData.Value (update_error flag error r)
  = IsChanged EPublishData.Value r.
Proof.
  destruct (update_error_fields flag error r) as (_ & Hc & _).
  unfold IsChanged. rewrite Hc.
  destruct (_ =? _); [reflexivity | apply Has_Add_Error_Value].
Qed.

Lemma Has_next_error_state_same (flag : Z) (error : bool) (e : Z) :
  flag = EErrorState.ReadError \/ flag = EErrorState.WriteError ->
  Has (next_error_state flag error e) flag = error.
Proof.
  intros Hflag. unfold next_error_state.
  destruct error; [apply Has_Add_same |].
  unfold Has, Remove. rewrite <- Z.land_assoc.
  destruct Hflag as [-> | ->]; vm_compute (Z.land (Z.lxor _ 255) _);
    rewrite Z.land_0_r; reflexivity.
Qed.

(** ** Virtual register: error state *)

(** C9: the error state is a flag set over { ReadError, WriteError } guarded
    by the sentinel UnknownErrorState.  Both updates replace the sentinel
    (so the first successful update leaves NoError), set their own flag to
    the reported outcome and keep the other flag; the Error publish flag is
    added exactly when the resulting error state differs from the state
    found, so a repeated identical update, once the publisher has reset the
    flag, raises nothing. *)
Theorem error_state_update_publishes_flips (r : TVirtualRegister) (error : bool) :
  valid_error_state (ErrorState r) ->
  let rd := UpdateReadError error r in
  let wr := UpdateWriteError error r in
  (0 <= ErrorState rd <= 3 /\ 0 <= ErrorState wr <= 3)
  /\ (ErrorState r = EErrorState.UnknownErrorState ->
      ErrorState (UpdateReadError false r) = EErrorState.NoError
      /\ ErrorState (UpdateWriteError false r) = EErrorState.NoError)
  /\ (Has (ErrorState rd) EErrorState.ReadError = error
      /\ Has (ErrorState wr) EErrorState.WriteError = error)
  /\ (ErrorState r <> EErrorState.UnknownErrorState ->
      Has (ErrorState rd) EErrorState.WriteError
      = Has (ErrorState r) EErrorState.WriteError
      /\ Has (ErrorState wr) EErrorState.ReadError
         = Has (ErrorState r) EErrorState.ReadError)
  /\ (ChangedPublishData rd
      = (if ErrorState rd =? ErrorState r then ChangedPublishData r
         else Add (ChangedPublishData r) EPublishData.Error)
      /\ ChangedPublishData wr
         = (if ErrorState wr =? ErrorState r then ChangedPublishData r
            else Add (ChangedPublishData r) EPublishData.Error))
  /\ ((IsChanged EPublishData.Error rd = true <->
       ErrorState rd <> ErrorState r \/ IsChanged EPublishData.Error r = true)
      /\ (IsChanged EPublishData.Error wr = true <->
          ErrorState wr <> ErrorState r \/ IsChanged EPublishData.Error r = true))
  /\ (IsChanged EPublishData.Error
        (UpdateReadError error (ResetChanged EPublishData.Error rd)) = false
      /\ IsChanged EPublishData.Error
           (UpdateWriteError error (ResetChanged EPublishData.Error wr)) = false).
Proof.
  intros Hvalid rd wr.
  assert (Hr : EErrorState.ReadError = EErrorState.ReadError
               \/ EErrorState.ReadError = EErrorState.WriteError) by now left.
  assert (Hw : EErrorState.WriteError = EErrorState.ReadError
               \/ EErrorState.WriteError = EErrorState.WriteError) by now right.
  destruct (update_error_fields EErrorState.ReadError error r) as (Er & Cr & _).
  destruct (update_error_fields EErrorState.WriteError error r) as (Ew & Cw & _).
  destruct (next_error_state_spec error Hr Hvalid) as (Br & Sr & Or & Ir).
  destruct (next_error_state_spec error Hw Hvalid) as (Bw & Sw & Ow & Iw).
  rewrite <- UpdateReadError_shape in Er, Cr.
  rewrite <- UpdateWriteError_shape in Ew, Cw.
  fold rd in Er, Cr. fold wr in Ew, Cw.
  assert (Hiff : forall r' : TVirtualRegister,
             ChangedPublishData r'
             = (if ErrorState r' =? ErrorState r then ChangedPublishData r
                else Add (ChangedPublishData r) EPublishData.Error) ->
             (IsChanged EPublishData.Error r' = true <->
              ErrorState r' <> ErrorState r \/ IsChanged EPublishData.Error r = true)).
  { intros r' Hc. unfold IsChanged. rewrite Hc.
    destruct (Z.eqb_spec (ErrorState r') (ErrorState r)) as [E | E].
    - split; [now right | intros [H | H]; [contradiction | exact H]].
    - rewrite Has_Add_same. split; [now left | reflexivity]. }
  assert (Hagain : forall flag (r' : TVirtualRegister),
             next_error_state flag error (ErrorState r') = ErrorState r' ->
             IsChanged EPublishData.Error
               (update_error flag error (ResetChanged EPublishData.Error r')) = false).
  { intros flag r' Hfix.
    destruct (update_error_fields flag error (ResetChanged EPublishData.Error r'))
      as (E & C & _).
    assert (Hes : ErrorState (ResetChanged EPublishData.Error r') = ErrorState r')
      by (destruct r'; reflexivity).
    unfold IsChanged. rewrite C, E, Hes, Hfix, Z.eqb_refl.
    destruct r'; apply Has_Remove_Error. }
  repeat split.
  - rewrite Er; apply Br.
  - rewrite Er; apply Br.
  - rewrite Ew; apply Bw.
  - rewrite Ew; apply Bw.
  - destruct (update_error_fields EErrorState.ReadError false r) as (E & _).
    rewrite UpdateReadError_shape, E, H. reflexivity.
  - destruct (update_error_fields EErrorState.WriteError false r) as (E & _).
    rewrite UpdateWriteError_shape, E, H. reflexivity.
  - rewrite Er; exact Sr.
  - rewrite Ew; exact Sw.
  - rewrite Er. change EErrorState.WriteError with (other_flag EErrorState.ReadError).
    rewrite Or. apply Z.eqb_neq in H. now rewrite H.
  - rewrite Ew. change EErrorState.ReadError with (other_flag EErrorState.WriteError).
    rewrite Ow. apply Z.eqb_neq in H. now rewrite H.
  - exact Cr.
  - exact Cw.
  - apply (Hiff rd Cr).
  - apply (Hiff rd Cr).
  - apply (Hiff wr Cw).
  - apply (Hiff wr Cw).
  - rewrite UpdateReadError_shape. apply Hagain. rewrite Er. exact Ir.
  - rewrite UpdateWriteError_shape. apply Hagain. rewrite Ew. exact Iw.
Qed.

Lemma error_state_update_publishes_flips_witness :
  valid_error_state (ErrorState polled_register)
  /\ Has (ErrorState (UpdateReadError true polled_register))
         EErrorState.ReadError = true.
Proof.
  assert (Hvalid : valid_error_state (ErrorState polled_register))
    by (left; reflexivity).
  split; [exact Hvalid |].
  exact (proj1 (proj1 (proj2 (proj2
           (error_state_update_publishes_flips polled_register true Hvalid))))).
Defined.

(** ** Virtual register: accepting a polled value *)

Lemma UpdateReadError_frame (error : bool) (r : TVirtualRegister) :
  let r' := UpdateReadError error r in
  Has (ErrorState r') EErrorState.ReadError = error
  /\ IsChanged EPublishData.Value r' = IsChanged EPublishData.Value r
  /\ CurrentValue r' = CurrentValue r
  /\ ValueIsRead r' = ValueIsRead r
  /\ ValueWasAccepted r' = ValueWasAccepted r.
Proof.
  cbv zeta. rewrite UpdateReadError_shape.
  destruct (update_error_fields EErrorState.ReadError error r)
    as (E & _ & Hcv & _ & Hvr & Hva & _).
  rewrite E, Has_next_error_state_same by now left.
  rewrite IsChanged_Value_update_error. auto.
Qed.

(** C8, as the code has it: on a register that is polled (Poll set, not
    dirty) and not yet read in this cycle, AcceptDeviceValue(raw) returns
    normally with value_is_read and value_was_accepted set.  If raw is the
    configured error value, the ReadError bit is set, current_value and the
    Value publish flag are left as they were.  Otherwise current_value
    becomes raw, the ReadError bit is cleared, and the Value publish flag is
    raised when raw differs from the previous current_value or when
    value_was_accepted was false before the call, that is, on the first call
    that finds the register polled, whether that call accepts a value or
    reads the error value. *)
Theorem AcceptDeviceValue_polled (raw : Z) (r : TVirtualRegister) :
  NeedToPoll r = true ->
  ValueIsRead r = false ->
  exists r',
    AcceptDeviceValue raw r = Return r'
    /\ ValueIsRead r' = true
    /\ ValueWasAccepted r' = true
    /\ (if HasErrorValue r && (ErrorValue r =? raw)
        then CurrentValue r' = CurrentValue r
             /\ Has (ErrorState r') EErrorState.ReadError = true
             /\ IsChanged EPublishData.Value r' = IsChanged EPublishData.Value r
        else CurrentValue r' = raw
             /\ Has (ErrorState r') EErrorState.ReadError = false
             /\ IsChanged EPublishData.Value r'
                = negb (CurrentValue r =? raw)
                  || negb (ValueWasAccepted r)
                  || IsChanged EPublishData.Value r).
Proof.
  intros Hpoll Hread.
  unfold AcceptDeviceValue. rewrite Hpoll, Hread. cbn [negb assert bind].
  destruct r as [self dev ty ad ro po he ev wo mbs vw cv wq es cp di en vr va].
  cbn [HasErrorValue ErrorValue CurrentValue ValueWasAccepted
       set_ValueIsRead set_ValueWasAccepted RegType RegAddress ReadOnly Poll
       WordOrder MemoryBlocks ValueToWrite WriteQuery ErrorState
       ChangedPublishData Dirty Enabled ValueIsRead].
  destruct (he && (ev =? raw)) eqn:Herr.
  - eexists; split; [reflexivity |].
    match goal with
    | |- context [UpdateReadError true ?x] =>
        destruct (UpdateReadError_frame true x) as (S1 & S2 & S3 & S4 & S5)
    end.
    rewrite S1, S2, S3, S4, S5. repeat split.
  - destruct (Z.eqb_spec cv raw) as [Heq | Hneq]; cbn [negb].
    + eexists; split; [reflexivity |].
      match goal with
      | |- context [UpdateReadError false ?x] =>
          destruct (UpdateReadError_frame false x) as (S1 & S2 & S3 & S4 & S5)
      end.
      rewrite S1, S2, S3, S4, S5.
      destruct va; cbn [negb orb]; repeat split; try assumption;
        unfold IsChanged; cbn [ChangedPublishData set_ChangedPublishData];
        rewrite ?Has_Add_same; reflexivity.
    + eexists; split; [reflexivity |].
      match goal with
      | |- context [UpdateReadError false ?x] =>
          destruct (UpdateReadError_frame false x) as (S1 & S2 & S3 & S4 & S5)
      end.
      rewrite S1, S2, S3, S4, S5.
      repeat split.
      unfold IsChanged; cbn [ChangedPublishData set_ChangedPublishData
                             set_CurrentValue].
      rewrite Has_Add_same. reflexivity.
Qed.

Lemma AcceptDeviceValue_polled_witness :
  NeedToPoll polled_register = true
  /\ ValueIsRead polled_register = false
  /\ exists r',
       AcceptDeviceValue 7 polled_register = Return r'
       /\ CurrentValue r' = 7
       /\ IsChanged EPublishData.Value r' = true.
Proof.
  split; [reflexivity | split; [reflexivity |]].
  destruct (AcceptDeviceValue_polled 7 polled_register eq_refl eq_refl)
    as (r' & Hrun & _ & _ & Hcase).
  exists r'. split; [exact Hrun |].
  cbn in Hcase. destruct Hcase as (Hcv & _ & Hch). split; assumption.
Defined.

(** C8, as stated, fails where it says that the first accepted poll flags
    Value unconditionally: the register has accepted nothing yet and holds
    the current value 0; its first poll reads the configured error value
    65535, which marks a read error and accepts no value; the next poll reads
    0 and succeeds, the first poll to be accepted, and the Value publish flag
    stays down. *)
Lemma AcceptDeviceValue_first_accepted_poll_unflagged :
  ValueWasAccepted polled_register = false
  /\ exists r1 r2,
       AcceptDeviceValue 65535 polled_register = Return r1
       /\ Has (ErrorState r1) EErrorState.ReadError = true
       /\ CurrentValue r1 = CurrentValue polled_register
       /\ IsChanged EPublishData.Value r1 = false
       /\ AcceptDeviceValue 0 (InvalidateReadValues r1) = Return r2
       /\ Has (ErrorState r2) EErrorState.ReadError = false
       /\ CurrentValue r2 = 0
       /\ IsChanged EPublishData.Value r2 = false.
Proof.
  split; [reflexivity |].
  eexists. eexists.
  split; [vm_compute; reflexivity |].
  repeat split; vm_compute; reflexivity.
Qed.

(** C10: when the Poll flag is false or the dirty flag is set,
    AcceptDeviceValue(raw) returns the register as it found it, whatever
    raw is: no field changes. *)
Theorem AcceptDeviceValue_not_polled (raw : Z) (r : TVirtualRegister) :
  Poll r = false \/ Dirty r = true ->
  AcceptDeviceValue raw r = Return r.
Proof.
  intros H. unfold AcceptDeviceValue, NeedToPoll.
  destruct H as [-> | ->]; [reflexivity |].
  rewrite andb_false_r. reflexivity.
Qed.

Lemma AcceptDeviceValue_not_polled_witness :
  (Poll written_register = false \/ Dirty written_register = true)
  /\ AcceptDeviceValue 7 written_register = Return written_register.
Proof.
  assert (H : Poll written_register = false \/ Dirty written_register = true)
    by (right; reflexivity).
  split; [exact H | exact (AcceptDeviceValue_not_polled 7 written_register H)].
Defined.

(** ** Virtual register: flushing a written value *)

(** What Flush does on a dirty register that has its write query: the
    context handed to the query is the one of GetValueContext, which carries
    the current value. *)
Lemma Flush_dirty (Execute : TIRDeviceValueQuery -> TIRDeviceValueQuery)
      (r : TVirtualRegister) (q : TIRDeviceValueQuery) :
  Dirty r = true ->
  WriteQuery r = Some q ->
  exists r',
    Flush Execute r = Return r'
    /\ Dirty r' = false
    /\ WriteQuery r'
       = Some (Execute {| Status := NotExecuted;
                          QueryValue := Some (GetValueContext r) |})
    /\ (forall q', WriteQuery r' = Some q' ->
        Has (ErrorState r') EErrorState.WriteError
        = negb (status_eqb (Status q') Ok)).
Proof.
  intros Hd Hq. unfold Flush. rewrite Hd.
  destruct r as [self dev ty ad ro po he ev wo mbs vw cv wq es cp di en vr va].
  cbn [WriteQuery set_Dirty] in *. subst wq.
  eexists; split; [reflexivity |].
  rewrite UpdateWriteError_shape.
  match goal with
  | |- context [update_error _ ?e ?x] =>
      destruct (update_error_fields EErrorState.WriteError e x)
        as (E & _ & _ & D & _ & _ & W & _)
  end.
  rewrite D, W, E. cbn [Dirty WriteQuery set_WriteQuery].
  split; [reflexivity | split; [reflexivity |]].
  intros q' Hq'. injection Hq' as <-.
  rewrite Has_next_error_state_same by now right. reflexivity.
Qed.

Lemma Flush_clean (Execute : TIRDeviceValueQuery -> TIRDeviceValueQuery)
      (r : TVirtualRegister) :
  Dirty r = false -> Flush Execute r = Return r.
Proof. intros Hd. unfold Flush. now rewrite Hd. Qed.

(** On a device that fails the query, Flush leaves the WriteError bit set and
    raises the Error publish flag. *)
Example Flush_failure_sets_write_error :
  exists r',
    Flush execute_fail written_register = Return r'
    /\ Dirty r' = false
    /\ Has (ErrorState r') EErrorState.WriteError = true
    /\ IsChanged EPublishData.Error r' = true.
Proof. eexists. repeat split. Qed.

(** C1: Flush on a dirty writable register whose value to write (5) differs
    from its current value (0).  Dirty is cleared, the query is executed and
    the WriteError bit follows the status, but the value placed in the write
    query is the current value 0, whereas GetValueToWriteContext carries the
    value to write, 5. *)
Theorem Flush_sends_current_value :
  exists r' q',
    Flush execute_ok written_register = Return r'
    /\ Dirty r' = false
    /\ WriteQuery r' = Some q'
    /\ Status q' = Ok
    /\ Has (ErrorState r') EErrorState.WriteError = false
    /\ option_map CtxValue (QueryValue q') = Some 0
    /\ (exists ctx, GetValueToWriteContext written_register = Return ctx
                    /\ CtxValue ctx = 5)
    /\ QueryValue q' <> Some {| CtxMemoryBlocks := MemoryBlocks written_register;
                                CtxWordOrder := WordOrder written_register;
                                CtxValue := 5 |}.
Proof.
  eexists. eexists. split; [reflexivity |].
  repeat split.
  - eexists. split; reflexivity.
  - cbn. discriminate.
Qed.

(** ** Ordered sets *)

Lemma set_insert_In (A : Type) (lt : A -> A -> bool) (x : A) (l : list A) :
  set_find lt x l = None ->
  forall y, In y (set_insert lt x l) <-> y = x \/ In y l.
Proof.
  unfold set_find. induction l as [| z l IH]; intros Hfind y; cbn in *.
  - intuition congruence.
  - unfold equiv in Hfind at 1.
    destruct (lt x z) eqn:Hxz.
    + cbn. intuition congruence.
    + destruct (lt z x) eqn:Hzx; cbn in Hfind; [| discriminate].
      cbn. rewrite (IH Hfind y). intuition congruence.
Qed.

Lemma set_insert_keeps (A : Type) (lt : A -> A -> bool) (x : A) (l : list A) :
  forall y, In y l -> In y (set_insert lt x l).
Proof.
  induction l as [| z l IH]; intros y Hy; cbn in *; [contradiction |].
  destruct (lt x z); [now right |].
  destruct (lt z x); [| exact Hy].
  destruct Hy as [-> | Hy]; [now left | right; auto].
Qed.

(** ** Memory block linkage *)




(** ** Cache necessity *)

Lemma AnyOf_pure (A : Type) (p : A -> result bool) (q : A -> bool) (l : list A) :
  (forall x, In x l -> p x = Return (q x)) ->
  AnyOf l p = Return (existsb q l).
Proof.
  induction l as [| x l IH]; intros Hp; cbn; [reflexivity |].
  rewrite (Hp x) by now left. cbn [bind].
  destruct (q x); [reflexivity |].
  apply IH. intros y Hy. apply Hp. now right.
Qed.

Lemma bind_info_neqb_true (a b : TIRBindInfo) :
  bind_info_neqb a b = true
  <-> BitStart a <> BitStart b \/ BitEnd a <> BitEnd b.
Proof.
  unfold bind_info_neqb. rewrite negb_true_iff, andb_false_iff, !Z.eqb_neq.
  reflexivity.
Qed.

(** C4, as the code has it: for a block with a register linkage (which
    holds at least one register, each of them bound to the block; block size
    times 8 fits the 16 bits of a bind info), NeedsCaching() returns true iff
    the block's type is not read-only and at least one associated register
    that is itself writable has a BindInfo that does not span the full block
    bit width [0, size*8). *)
Theorem NeedsCaching_register_linkage
        (mb : TMemoryBlockObject) (regs : list TVirtualRegister) :
  ExternalLinkage mb = Some (TVirtualRegisterLinkage regs) ->
  regs <> [] ->
  (forall v, In v regs ->
             exists bi, GetMemoryBlockBindInfo (Block mb) v = Return bi) ->
  0 <= Size (Block mb) * 8 < 2 ^ 16 ->
  exists b,
    NeedsCaching mb = Return b
    /\ (b = true <->
        TypeReadOnly (Type_ (Block mb)) = false
        /\ exists v bi,
             In v regs
             /\ ReadOnly v = false
             /\ GetMemoryBlockBindInfo (Block mb) v = Return bi
             /\ (BitStart bi <> 0 \/ BitEnd bi <> Size (Block mb) * 8)).
Proof.
  intros Hlink Hne Hbound Hsize.
  unfold NeedsCaching. rewrite Hlink. unfold Linkage_NeedsCaching.
  destruct regs as [| r0 regs]; [contradiction |].
  cbn [List.length Nat.eqb negb assert bind].
  unfold to_uint16. rewrite Z.mod_small by exact Hsize.
  set (full := {| BitStart := 0; BitEnd := Size (Block mb) * 8 |}).
  set (q := fun v : TVirtualRegister =>
              match GetMemoryBlockBindInfo (Block mb) v with
              | Return bi =>
                  negb (TypeReadOnly (Type_ (Block mb))) && negb (ReadOnly v)
                  && bind_info_neqb bi full
              | _ => false
              end).
  rewrite (@AnyOf_pure _ _ q).
  - eexists. split; [reflexivity |].
    rewrite existsb_exists. split.
    + intros (v & Hin & Hq). unfold q in Hq.
      destruct (GetMemoryBlockBindInfo (Block mb) v) as [bi | |] eqn:Hbi;
        try discriminate.
      apply andb_true_iff in Hq. destruct Hq as [Hw Hn].
      apply andb_true_iff in Hw. destruct Hw as [Hty Hro].
      apply negb_true_iff in Hty, Hro.
      apply bind_info_neqb_true in Hn.
      split; [exact Hty |]. exists v, bi. repeat split; assumption.
    + intros (Hty & v & bi & Hin & Hro & Hbi & Hn).
      exists v. split; [exact Hin |]. unfold q. rewrite Hbi, Hty, Hro.
      cbn [negb andb]. apply bind_info_neqb_true. exact Hn.
  - intros v Hin. unfold q.
    destruct (Hbound v Hin) as (bi & ->). reflexivity.
Qed.

Lemma NeedsCaching_register_linkage_witness :
  exists b,
    NeedsCaching
      {| Block := block 100;
         ExternalLinkage :=
           Some (TVirtualRegisterLinkage
                   [sample_register 1%nat 100 true 0 8;
                    sample_register 2%nat 100 false 8 16]) |}
    = Return b
    /\ b = true.
Proof.
  destruct (@NeedsCaching_register_linkage
              {| Block := block 100;
                 ExternalLinkage :=
                   Some (TVirtualRegisterLinkage
                           [sample_register 1%nat 100 true 0 8;
                            sample_register 2%nat 100 false 8 16]) |}
              [sample_register 1%nat 100 true 0 8;
               sample_register 2%nat 100 false 8 16]
              eq_refl)
    as (b & Hrun & Hiff).
  - discriminate.
  - intros v [<- | [<- | []]]; eexists; reflexivity.
  - cbn. lia.
  - exists b. split; [exact Hrun |].
    apply Hiff. split; [reflexivity |].
    exists (sample_register 2%nat 100 false 8 16),
           {| BitStart := 8; BitEnd := 16 |}.
    repeat split; [right; left; reflexivity | left; discriminate].
Defined.

(** C4, as stated, fails: the block is writable and its only register covers
    bits [0, 8) of its 16, but that register is read-only, and NeedsCaching()
    returns false. *)
Lemma NeedsCaching_ignores_read_only_registers :
  let regs := [sample_register 1%nat 100 true 0 8] in
  let mb := {| Block := block 100;
               ExternalLinkage := Some (TVirtualRegisterLinkage regs) |} in
  ~ (NeedsCaching mb = Return true <->
     TypeReadOnly (Type_ (Block mb)) = false
     /\ exists v bi,
          In v regs
          /\ GetMemoryBlockBindInfo (Block mb) v = Return bi
          /\ (BitStart bi <> 0 \/ BitEnd bi <> Size (Block mb) * 8)).
Proof.
  intros regs mb [_ stated].
  assert (H : NeedsCaching mb = Return true).
  { apply stated. split; [reflexivity |].
    exists (sample_register 1%nat 100 true 0 8),
           {| BitStart := 0; BitEnd := 8 |}.
    repeat split; [left; reflexivity | right; discriminate]. }
  discriminate H.
Qed.

(** ** Per-type limits *)

Lemma to_uint32_small (z : Z) : 0 <= z < 2 ^ 32 -> to_uint32 z = z.
Proof. intros H. unfold to_uint32. now apply Z.mod_small. Qed.

Lemma to_int_small (z : Z) : - 2 ^ 31 <= z < 2 ^ 31 -> to_int z = z.
Proof. intros H. unfold to_int. rewrite Z.mod_small; lia. Qed.

(** C7: for a Read operation and configuration values that are non-negative
    ints, max_regs is the minimum of device.max_read_registers and the
    protocol maximum when device.max_read_registers is greater than 0 and the
    protocol maximum alone otherwise, the protocol maximum being
    max_read_bits for a single-bit type and max_read_registers otherwise;
    max_hole is device.max_bit_hole for a single-bit type and
    device.max_reg_hole otherwise under Minify, and 0 under NoDuplicates. *)
Theorem getMaxHoleAndRegs_read
        (deviceConfig : TDeviceConfig) (protocolInfo : TProtocolInfo)
        (policy : EQueryGenerationPolicy) (type : TMemoryBlockType) :
  nonneg_int (MaxBitHole deviceConfig) ->
  nonneg_int (MaxRegHole deviceConfig) ->
  MaxReadRegisters deviceConfig < 2 ^ 31 ->
  nonneg_int (GetMaxReadBits protocolInfo) ->
  nonneg_int (GetMaxReadRegisters protocolInfo) ->
  let single_bit := IsSingleBitType protocolInfo type in
  let protocol_maximum :=
    if single_bit then GetMaxReadBits protocolInfo
    else GetMaxReadRegisters protocolInfo in
  getMaxHoleAndRegs deviceConfig protocolInfo Read policy type
  = (match policy with
     | Minify => if single_bit then MaxBitHole deviceConfig
                 else MaxRegHole deviceConfig
     | NoDuplicates => 0
     end,
     if 0 <? MaxReadRegisters deviceConfig
     then Z.min (MaxReadRegisters deviceConfig) protocol_maximum
     else protocol_maximum).
Proof.
  intros Hbit Hreg Hmax Hpb Hpr single_bit protocol_maximum.
  unfold nonneg_int in *.
  unfold getMaxHoleAndRegs. cbn [IsReadOperation].
  fold single_bit. fold protocol_maximum.
  assert (Hpm : 0 <= protocol_maximum < 2 ^ 31)
    by (unfold protocol_maximum; destruct single_bit; assumption).
  rewrite Z.gtb_ltb.
  f_equal.
  - destruct policy; cbn [policy_eqb];
      [destruct single_bit |]; apply to_uint32_small; lia.
  - destruct (Z.ltb_spec 0 (MaxReadRegisters deviceConfig)) as [Hpos | Hnpos].
    + rewrite (@to_uint32_small (MaxReadRegisters deviceConfig)) by lia.
      rewrite (@to_uint32_small protocol_maximum) by lia.
      rewrite to_int_small by lia. apply to_uint32_small. lia.
    + apply to_uint32_small. lia.
Qed.

Lemma getMaxHoleAndRegs_read_witness :
  let deviceConfig :=
    {| MaxBitHole := 8; MaxRegHole := 2; MaxReadRegisters := 10 |} in
  let protocolInfo :=
    {| IsSingleBitType := fun t => Index t =? 1;
       GetMaxReadBits := 2000; GetMaxReadRegisters := 125;
       GetMaxWriteBits := 1968; GetMaxWriteRegisters := 123 |} in
  getMaxHoleAndRegs deviceConfig protocolInfo Read Minify holding = (2, 10)
  /\ getMaxHoleAndRegs deviceConfig protocolInfo Read NoDuplicates holding
     = (0, 10).
Proof.
  intros deviceConfig protocolInfo.
  split.
  - apply (@getMaxHoleAndRegs_read deviceConfig protocolInfo Minify holding);
      unfold nonneg_int; cbn; lia.
  - apply (@getMaxHoleAndRegs_read deviceConfig protocolInfo NoDuplicates holding);
      unfold nonneg_int; cbn; lia.
Defined.

(** ** Holes over the range view of the device *)

Lemma max_gap_nonneg (addresses : list Z) : 0 <= max_gap addresses.
Proof.
  induction addresses as [| a l IH]; [cbn; lia |].
  destruct l as [| b t]; [cbn; lia |].
  change (0 <= Z.max (b - a - 1) (max_gap (b :: t))). lia.
Qed.

Lemma hole_loop_from (view : list TMemoryBlock) :
  forall hole prev,
    0 <= hole ->
    0 <= prev ->
    ascending (prev :: map Address view) ->
    (forall mb, In mb view -> Address mb < 2 ^ 31) ->
    hole_loop view hole prev
    = Return (Z.max hole (max_gap (prev :: map Address view))).
Proof.
  induction view as [| mb view IH]; intros hole prev Hhole Hprev Hasc Hbound.
  - cbn. f_equal. lia.
  - apply StronglySorted_inv in Hasc. destruct Hasc as [Hasc Hlt].
    cbn [map] in Hlt, Hasc. pose proof (Forall_inv Hlt) as Hfirst.
    assert (Haddr : Address mb < 2 ^ 31) by (apply Hbound; now left).
    cbn [hole_loop].
    rewrite to_int_small by lia.
    replace (Address mb >? prev) with true by (symmetry; apply Z.gtb_lt; lia).
    cbn [assert bind].
    replace (prev >=? 0) with true by (symmetry; apply Z.geb_le; lia).
    rewrite (@to_uint32_small prev) by lia.
    rewrite (@to_uint32_small (Address mb - prev)) by lia.
    rewrite to_uint32_small by lia.
    rewrite IH; try lia; try assumption.
    + f_equal. cbn [map].
      change (max_gap (prev :: Address mb :: map Address view))
        with (Z.max (Address mb - prev - 1)
                    (max_gap (Address mb :: map Address view))).
      lia.
    + intros mb' Hin. apply Hbound. now right.
Qed.

Lemma hole_loop_start (view : list TMemoryBlock) :
  ascending (map Address view) ->
  (forall mb, In mb view -> nonneg_int (Address mb)) ->
  hole_loop view 0 (-1) = Return (max_gap (map Address view)).
Proof.
  intros Hasc Hbound. destruct view as [| mb view]; [reflexivity |].
  assert (Haddr : nonneg_int (Address mb)) by (apply Hbound; now left).
  unfold nonneg_int in Haddr.
  cbn [hole_loop].
  rewrite to_int_small by lia.
  replace (Address mb >? -1) with true by (symmetry; apply Z.gtb_lt; lia).
  cbn [assert bind].
  change (-1 >=? 0) with false. cbv iota.
  rewrite hole_loop_from; try lia; try assumption.
  - f_equal. pose proof (max_gap_nonneg (Address mb :: map Address view)).
    cbn [map]. lia.
  - intros mb' Hin. apply (Hbound mb'). now right.
Qed.

Lemma mb_lt_same_index (a b : TMemoryBlock) :
  Index (Type_ a) = Index (Type_ b) ->
  mb_lt a b = (Address a <? Address b).
Proof.
  intros H. unfold mb_lt. rewrite H, Z.ltb_irrefl, Z.eqb_refl. reflexivity.
Qed.

Lemma blocks_in_range_In (blocks : TPSet) (index lo hi : Z) (mb : TMemoryBlock) :
  In mb (blocks_in_range blocks index lo hi)
  <-> In mb blocks /\ Index (Type_ mb) = index /\ lo <= Address mb <= hi.
Proof.
  unfold blocks_in_range. rewrite filter_In, !andb_true_iff.
  rewrite Z.eqb_eq, !Z.leb_le. intuition.
Qed.

Lemma blocks_in_range_ascending (blocks : TPSet) (index lo hi : Z) :
  ordered_set blocks ->
  ascending (map Address (blocks_in_range blocks index lo hi)).
Proof.
  unfold ordered_set, ascending.
  induction 1 as [| a l Hsorted IH Hall]; [constructor |].
  unfold blocks_in_range in *. cbn [filter].
  destruct ((Index (Type_ a) =? index) && (lo <=? Address a)
            && (Address a <=? hi)) eqn:Ha; [| exact IH].
  cbn [map]. constructor; [exact IH |].
  apply Forall_forall. intros z Hz.
  apply in_map_iff in Hz. destruct Hz as (mb & <- & Hmb).
  apply filter_In in Hmb. destruct Hmb as [Hin Hmb].
  rewrite Forall_forall in Hall. specialize (Hall mb Hin).
  apply andb_true_iff in Ha, Hmb. destruct Ha as [Ha _], Hmb as [Hmb _].
  apply andb_true_iff in Ha, Hmb. destruct Ha as [Ha _], Hmb as [Hmb _].
  apply Z.eqb_eq in Ha, Hmb.
  rewrite mb_lt_same_index in Hall by congruence.
  now apply Z.ltb_lt.
Qed.

Lemma GetMaxHoleSize_device_gap (blocks : TPSet) (first last : TMemoryBlock) :
  registry_ok blocks ->
  Address first <= Address last ->
  GetMaxHoleSize blocks first last
  = Return (device_gap blocks (Index (Type_ first))
                       (Address first) (Address last)).
Proof.
  intros [Hord Hbound] Hle. unfold GetMaxHoleSize.
  replace (Address first <=? Address last) with true
    by (symmetry; now apply Z.leb_le).
  cbn [assert bind]. unfold StaticCreateMemoryBlockRange, device_gap.
  apply hole_loop_start.
  - now apply blocks_in_range_ascending.
  - intros mb Hin. apply Hbound. now apply blocks_in_range_In in Hin.
Qed.

Lemma set_rbegin_In (s : TPSet) (mb : TMemoryBlock) :
  set_rbegin s = Return mb -> In mb s.
Proof.
  destruct s as [| a s]; [discriminate |]. cbn [set_rbegin]. intros [= <-].
  induction s as [| b s IH]; [now left |].
  destruct s as [| c s]; [right; now left |].
  change (last (b :: c :: s) a) with (last (c :: s) a).
  destruct IH as [IH | IH]; [now left | right; now right].
Qed.

Lemma set_begin_In (s : TPSet) (mb : TMemoryBlock) :
  set_begin s = Return mb -> In mb s.
Proof. destruct s; [discriminate |]. cbn. intros [= <-]. now left. Qed.

Lemma last_cons_In (A : Type) (s : list A) :
  forall b d, In (last (b :: s) d) (b :: s).
Proof.
  induction s as [| c s IH]; intros b d; [now left |].
  change (last (b :: c :: s) d) with (last (c :: s) d).
  right. apply IH.
Qed.

Lemma last_cons_In_default (A : Type) (s : list A) (d : A) :
  In (last s d) (d :: s).
Proof.
  destruct s as [| b s]; [now left |]. right. apply last_cons_In.
Qed.

Lemma ordered_set_first_last (s : TPSet) (first last : TMemoryBlock) :
  ordered_set s ->
  set_begin s = Return first ->
  set_rbegin s = Return last ->
  first = last \/ mb_lt first last = true.
Proof.
  intros Hord Hb Hr. destruct s as [| a s]; [discriminate |].
  cbn in Hb. injection Hb as ->.
  apply StronglySorted_inv in Hord. destruct Hord as [_ Hall].
  cbn in Hr. injection Hr as <-.
  destruct s as [| b s]; [now left |]. right.
  rewrite Forall_forall in Hall. apply Hall. apply last_cons_In.
Qed.

Lemma uniform_first_last_le (s : TPSet) (first last : TMemoryBlock) :
  ordered_set s ->
  uniform_type s ->
  set_begin s = Return first ->
  set_rbegin s = Return last ->
  Address first <= Address last.
Proof.
  intros Hord Huni Hb Hr.
  destruct (ordered_set_first_last Hord Hb Hr) as [<- | Hlt]; [lia |].
  rewrite mb_lt_same_index in Hlt
    by (apply Huni; [now apply set_begin_In | now apply set_rbegin_In]).
  apply Z.ltb_lt in Hlt. lia.
Qed.

(** ** The check of the input sets *)

Lemma check_types_spec (blocks : list TMemoryBlock) (typeIndex size : Z) :
  (check_types blocks typeIndex size = Return tt
   /\ forall mb, In mb blocks ->
                 Index (Type_ mb) = typeIndex /\ Size mb = size)
  \/ (check_types blocks typeIndex size = Throw
      /\ ((exists mb, In mb blocks /\ Index (Type_ mb) <> typeIndex)
          \/ (exists mb, In mb blocks /\ Size mb <> size))).
Proof.
  induction blocks as [| mb blocks IH]; cbn [check_types].
  - left. split; [reflexivity | intros mb []].
  - destruct (Z.eqb_spec (Index (Type_ mb)) typeIndex) as [Hi | Hi];
      cbn [negb throw_if bind].
    2: { right. split; [reflexivity |]. left. exists mb. split; [now left | exact Hi]. }
    destruct (Z.eqb_spec (Size mb) size) as [Hs | Hs]; cbn [negb throw_if bind].
    2: { right. split; [reflexivity |]. right. exists mb. split; [now left | exact Hs]. }
    destruct IH as [[Hrun Hall] | [Hrun Hex]].
    + left. split; [exact Hrun |].
      intros mb' [<- | Hin]; [split; assumption | now apply Hall].
    + right. split; [exact Hrun |].
      destruct Hex as [(mb' & Hin & H) | (mb' & Hin & H)];
        [left | right]; exists mb'; (split; [now right | exact H]).
Qed.

Lemma check_set_spec (blocks : TPSet) (typeInfo : TRegisterTypeInfo) (s : TPSet) :
  registry_ok blocks ->
  block_set_ok blocks s ->
  first_le_last s ->
  (check_set blocks typeInfo s = Return tt /\ ~ exceeds_limits blocks typeInfo s)
  \/ (check_set blocks typeInfo s = Throw /\ exceeds_limits blocks typeInfo s).
Proof.
  intros Hreg (Hne & _ & Hin) Hle.
  destruct s as [| first s']; [contradiction |].
  unfold first_le_last in Hle. unfold exceeds_limits.
  set (last := last s' first) in *.
  assert (Hlast : In last (first :: s')) by apply last_cons_In_default.
  pose proof (proj2 Hreg _ (Hin _ (or_introl eq_refl))) as Bf.
  pose proof (proj2 Hreg _ (Hin _ Hlast)) as Bl.
  unfold nonneg_int in Bf, Bl.
  unfold check_set, GetType, GetSize, GetMaxHoleSize_set, GetRegCount_set,
    GetRegCount.
  cbn [set_begin set_rbegin bind]. fold last.
  destruct (typeInfo (Type_ first)) as [maxHole maxRegs]. cbn [fst snd].
  rewrite GetMaxHoleSize_device_gap by assumption. cbn [bind].
  rewrite Z.gtb_ltb.
  destruct (Z.ltb_spec maxHole
              (device_gap blocks (Index (Type_ first)) (Address first)
                          (Address last))) as [Hh | Hh]; cbn [throw_if bind].
  { right. split; [reflexivity |]. left. lia. }
  replace (Address first <=? Address last) with true
    by (symmetry; now apply Z.leb_le).
  cbn [assert bind]. rewrite to_uint32_small by lia.
  rewrite Z.gtb_ltb.
  destruct (Z.ltb_spec maxRegs (Address last - Address first + 1)) as [Hr | Hr];
    cbn [throw_if bind].
  { right. split; [reflexivity |]. right. left. lia. }
  destruct (check_types_spec (first :: s') (Index (Type_ first)) (Size first))
    as [[Hrun Hall] | [Hrun Hex]].
  - left. split; [exact Hrun |].
    intros [H | [H | [(mb & Hmb & H) | (mb & Hmb & H)]]]; try lia;
      apply H; now apply Hall.
  - right. split; [exact Hrun |]. right. right. exact Hex.
Qed.

Lemma check_set_aborts (blocks : TPSet) (typeInfo : TRegisterTypeInfo)
      (s : TPSet) :
  ~ first_le_last s -> check_set blocks typeInfo s = Aborted.
Proof.
  destruct s as [| first s']; cbn [first_le_last]; [tauto |]. intros Hgt.
  unfold check_set, GetType, GetMaxHoleSize_set, GetMaxHoleSize.
  cbn [set_begin set_rbegin bind].
  destruct (typeInfo (Type_ first)) as [maxHole maxRegs].
  replace (Address first <=? Address (last s' first)) with false
    by (symmetry; apply Z.leb_gt; lia).
  reflexivity.
Qed.

Lemma first_above_last_mixes_types (s : TPSet) :
  ordered_set s -> ~ first_le_last s -> ~ uniform_type s.
Proof.
  intros Hord Hgt Huni. apply Hgt.
  destruct s as [| first s']; cbn [first_le_last]; [exact I |].
  now apply (@uniform_first_last_le (first :: s') first (last s' first)).
Qed.

Lemma check_set_outcome (blocks : TPSet) (typeInfo : TRegisterTypeInfo)
      (s : TPSet) :
  registry_ok blocks ->
  block_set_ok blocks s ->
  (first_le_last s /\ ~ exceeds_limits blocks typeInfo s
   /\ check_set blocks typeInfo s = Return tt)
  \/ (first_le_last s /\ exceeds_limits blocks typeInfo s
      /\ check_set blocks typeInfo s = Throw)
  \/ (~ first_le_last s /\ check_set blocks typeInfo s = Aborted).
Proof.
  intros Hreg Hok.
  assert (Hdec : first_le_last s \/ ~ first_le_last s).
  { destruct s as [| first s']; cbn [first_le_last]; [now left | lia]. }
  destruct Hdec as [Hle | Hgt].
  - destruct (@check_set_spec blocks typeInfo s Hreg Hok Hle)
      as [[Hrun Hnot] | [Hrun Hex]]; [left | right; left]; repeat split;
      assumption.
  - right. right. split; [exact Hgt | now apply check_set_aborts].
Qed.

(** C6, as the code has it: CheckSets goes through the sets of blocks of the
    device in list order and ends at the first set that does not pass.  It
    returns normally iff every set has its first address not above its last
    and neither exceeds max_hole, max_regs (last address - first address +
    1) nor holds blocks of differing type index or size.  It raises the
    configuration error iff the first set that does not pass has its first
    address not above its last and exceeds one of these limits; max_hole is
    compared with the largest gap between consecutive addresses among all
    blocks the device has of that type between the first and the last block
    of the set.  It fails the assertion of GetMaxHoleSize, raising nothing,
    iff the first set that does not pass has its first address above its
    last; such a set holds blocks of differing type index.  The list is
    passed by reference to const. *)
Theorem CheckSets_outcome
        (V : Type) (blocks : TPSet) (typeInfo : TRegisterTypeInfo)
        (sets : list (TPSet * list V)) :
  registry_ok blocks ->
  (forall e, In e sets -> block_set_ok blocks (fst e)) ->
  let passes := fun e : TPSet * list V =>
                  first_le_last (fst e)
                  /\ ~ exceeds_limits blocks typeInfo (fst e) in
  (CheckSets blocks sets typeInfo = Return tt <->
   forall e, In e sets -> passes e)
  /\ (CheckSets blocks sets typeInfo = Throw <->
      exists pre e post,
        sets = pre ++ e :: post
        /\ (forall p, In p pre -> passes p)
        /\ first_le_last (fst e)
        /\ exceeds_limits blocks typeInfo (fst e))
  /\ (CheckSets blocks sets typeInfo = Aborted <->
      exists pre e post,
        sets = pre ++ e :: post
        /\ (forall p, In p pre -> passes p)
        /\ ~ first_le_last (fst e))
  /\ (forall e, In e sets -> ~ first_le_last (fst e) ->
                ~ uniform_type (fst e)).
Proof.
  intros Hreg Hok passes.
  split; [| split; [| split]].
  4: { intros e He. apply first_above_last_mixes_types. apply (Hok e He). }
  all: induction sets as [| e sets IH]; cbn [CheckSets].
  - split; [intros _ e [] | reflexivity].
  - assert (Hok' : forall e', In e' sets -> block_set_ok blocks (fst e'))
      by (intros e' He'; apply Hok; now right).
    specialize (IH Hok').
    destruct (@check_set_outcome blocks typeInfo (fst e) Hreg
                (Hok e (or_introl eq_refl)))
      as [(Hle & Hnot & Hrun) | [(Hle & Hex & Hrun) | (Hgt & Hrun)]];
      rewrite Hrun; cbn [bind].
    + rewrite IH. split.
      * intros H e' [<- | He']; [now split | now apply H].
      * intros H e' He'. apply H. now right.
    + split; [discriminate |]. intros H.
      destruct (H e (or_introl eq_refl)) as [_ Hn]. contradiction.
    + split; [discriminate |]. intros H.
      destruct (H e (or_introl eq_refl)) as [Hn _]. contradiction.
  - split; [discriminate |].
    intros (pre & e & post & Heq & _). destruct pre; discriminate Heq.
  - assert (Hok' : forall e', In e' sets -> block_set_ok blocks (fst e'))
      by (intros e' He'; apply Hok; now right).
    specialize (IH Hok').
    destruct (@check_set_outcome blocks typeInfo (fst e) Hreg
                (Hok e (or_introl eq_refl)))
      as [(Hle & Hnot & Hrun) | [(Hle & Hex & Hrun) | (Hgt & Hrun)]];
      rewrite Hrun; cbn [bind].
    + rewrite IH. split.
      * intros (pre & e' & post & -> & Hpre & He').
        exists (e :: pre), e', post. split; [reflexivity |].
        split; [| exact He'].
        intros p [<- | Hp]; [now split | now apply Hpre].
      * intros (pre & e' & post & Heq & Hpre & Hle' & Hex').
        destruct pre as [| p pre]; cbn [app] in Heq; injection Heq as <- ->.
        -- contradiction.
        -- exists pre, e', post. split; [reflexivity |].
           split; [| now split].
           intros q Hq. apply Hpre. now right.
    + split; [intros _ | reflexivity].
      exists [], e, sets. split; [reflexivity |].
      split; [intros p [] | now split].
    + split; [discriminate |].
      intros (pre & e' & post & Heq & Hpre & Hle' & Hex').
      destruct pre as [| p pre]; cbn [app] in Heq; injection Heq as <- ->.
      * contradiction.
      * destruct (Hpre e (or_introl eq_refl)) as [Hn _]. contradiction.
  - split; [discriminate |].
    intros (pre & e & post & Heq & _). destruct pre; discriminate Heq.
  - assert (Hok' : forall e', In e' sets -> block_set_ok blocks (fst e'))
      by (intros e' He'; apply Hok; now right).
    specialize (IH Hok').
    destruct (@check_set_outcome blocks typeInfo (fst e) Hreg
                (Hok e (or_introl eq_refl)))
      as [(Hle & Hnot & Hrun) | [(Hle & Hex & Hrun) | (Hgt & Hrun)]];
      rewrite Hrun; cbn [bind].
    + rewrite IH. split.
      * intros (pre & e' & post & -> & Hpre & He').
        exists (e :: pre), e', post. split; [reflexivity |].
        split; [| exact He'].
        intros p [<- | Hp]; [now split | now apply Hpre].
      * intros (pre & e' & post & Heq & Hpre & Hgt').
        destruct pre as [| p pre]; cbn [app] in Heq; injection Heq as <- ->.
        -- contradiction.
        -- exists pre, e', post. split; [reflexivity |].
           split; [| exact Hgt'].
           intros q Hq. apply Hpre. now right.
    + split; [discriminate |].
      intros (pre & e' & post & Heq & Hpre & Hgt').
      destruct pre as [| p pre]; cbn [app] in Heq; injection Heq as <- ->.
      * contradiction.
      * destruct (Hpre e (or_introl eq_refl)) as [_ Hn]. contradiction.
    + split; [intros _ | reflexivity].
      exists [], e, sets. split; [reflexivity |].
      split; [intros p [] | exact Hgt].
Qed.

Lemma CheckSets_outcome_witness :
  CheckSets mixed_registry [([block 100; coil_block 50], [1%nat])]
            no_hole_limits
  = Aborted
  /\ CheckSets sparse_registry
               [([block 100; block 101], [1%nat]);
                ([block 101; block 103], [2%nat])]
               no_hole_limits
     = Throw.
Proof.
  split.
  - destruct (@CheckSets_outcome nat mixed_registry no_hole_limits
                [([block 100; coil_block 50], [1%nat])])
      as (_ & _ & Haborts & _).
    + split.
      * repeat constructor.
      * intros mb [<- | [<- | []]]; unfold nonneg_int; cbn; lia.
    + intros e [<- | []].
      split; [discriminate | split; [repeat constructor |]].
      intros mb [<- | [<- | []]]; cbn; auto.
    + apply Haborts.
      exists [], ([block 100; coil_block 50], [1%nat]), [].
      split; [reflexivity |]. split; [intros p [] |]. cbn. lia.
  - destruct (@CheckSets_outcome nat sparse_registry no_hole_limits
                [([block 100; block 101], [1%nat]);
                 ([block 101; block 103], [2%nat])])
      as (_ & Hthrows & _).
    + split.
      * repeat constructor.
      * intros mb [<- | [<- | [<- | []]]]; unfold nonneg_int; cbn; lia.
    + intros e [<- | [<- | []]];
        (split; [discriminate
                | split; [repeat constructor
                         | intros mb [<- | [<- | []]]; cbn; auto]]).
    + apply Hthrows.
      exists [([block 100; block 101], [1%nat])],
             ([block 101; block 103], [2%nat]), [].
      split; [reflexivity |].
      split; [| split; [cbn; lia | left; cbn; lia]].
      intros p [<- | []]. split; [cbn; lia |].
      intros [H | [H | [(mb & Hmb & H) | (mb & Hmb & H)]]];
        cbn in H; try lia;
        destruct Hmb as [<- | [<- | []]]; now apply H.
Defined.

(** C6, as stated, fails: the device has blocks at 100, 101, 102 and 103; the
    input set { 100, 103 } has a gap of 2 between its consecutive addresses,
    above max_hole = 0, and CheckSets raises nothing, for the gap it looks at
    is the one of the device's blocks in that range. *)
Lemma CheckSets_hole_is_device_wide :
  let sets := [([block 100; block 103], [1%nat])] in
  ~ (CheckSets sample_registry sets no_hole_limits = Throw <->
     exists e, In e sets /\ exceeds_limits_within no_hole_limits (fst e)).
Proof.
  intros sets [_ stated].
  assert (H : CheckSets sample_registry sets no_hole_limits = Throw).
  { apply stated. exists ([block 100; block 103], [1%nat]).
    split; [now left |]. left. cbn. lia. }
  discriminate H.
Qed.

(** ** Merging under the NoDuplicates policy *)

Lemma type_identical_eq (t u : TMemoryBlockType) :
  type_identical t u = true <-> t = u.
Proof.
  destruct t as [i n z r v], u as [i' n' z' r' v']. unfold type_identical.
  cbn [Index Name TypeSize TypeReadOnly VariadicSize].
  rewrite !andb_true_iff, !Z.eqb_eq, String.eqb_eq, !Bool.eqb_true_iff.
  split.
  - intros ((((-> & ->) & ->) & ->) & ->). reflexivity.
  - intros [= -> -> -> -> ->]. repeat split.
Qed.

Lemma mb_identical_eq (a b : TMemoryBlock) : mb_identical a b = true <-> a = b.
Proof.
  destruct a as [ad ty sz], b as [ad' ty' sz']. unfold mb_identical.
  cbn [Address Type_ Size].
  rewrite !andb_true_iff, !Z.eqb_eq, type_identical_eq.
  split.
  - intros ((-> & ->) & ->). reflexivity.
  - intros [= -> -> ->]. repeat split.
Qed.

Lemma TPSet_eqb_eq (a b : TPSet) : TPSet_eqb a b = true <-> a = b.
Proof.
  revert b. induction a as [| x a IH]; intros [| y b]; cbn [TPSet_eqb];
    try (split; [discriminate | discriminate]); [tauto |].
  rewrite andb_true_iff, mb_identical_eq, IH.
  split; [intros [-> ->]; reflexivity | intros [= -> ->]; now split].
Qed.

Lemma TPSet_eqb_refl (a : TPSet) : TPSet_eqb a a = true.
Proof. now apply TPSet_eqb_eq. Qed.

Lemma mb_lt_asym (a b : TMemoryBlock) : mb_lt a b = true -> mb_lt b a = false.
Proof.
  unfold mb_lt. intros H.
  apply orb_true_iff in H. apply orb_false_iff.
  rewrite andb_true_iff, Z.eqb_eq, !Z.ltb_lt in H.
  rewrite andb_false_iff, Z.eqb_neq, !Z.ltb_ge. lia.
Qed.

Lemma mb_lt_irrefl (a : TMemoryBlock) : mb_lt a a = false.
Proof. unfold mb_lt. now rewrite !Z.ltb_irrefl, andb_false_r. Qed.

Lemma set_insert_member (s : TPSet) (x : TMemoryBlock) :
  ordered_set s -> In x s -> set_insert mb_lt x s = s.
Proof.
  unfold ordered_set. induction 1 as [| y l Hsorted IH Hall]; intros Hin.
  - contradiction.
  - cbn [set_insert]. destruct Hin as [-> | Hin].
    + now rewrite mb_lt_irrefl.
    + rewrite Forall_forall in Hall. specialize (Hall x Hin).
      rewrite (mb_lt_asym _ _ Hall), Hall. f_equal. now apply IH.
Qed.

Lemma set_insert_range_self (s l : TPSet) :
  ordered_set s -> (forall x, In x l -> In x s) ->
  set_insert_range mb_lt l s = s.
Proof.
  intros Hord. unfold set_insert_range.
  induction l as [| x l IH]; intros Hsub; cbn [fold_left]; [reflexivity |].
  rewrite set_insert_member; [| exact Hord | apply Hsub; now left].
  apply IH. intros y Hy. apply Hsub. now right.
Qed.

Lemma merge_loop_cons (V : Type) (condition : TPSet -> TPSet -> result bool)
      (current : TPSet * list V) (others : list (TPSet * list V)) :
  merge_loop condition (current :: others)
  = match merge_others condition current others with
    | Return r => rest <- merge_loop condition (snd r) ;; Return (fst r :: rest)
    | Throw => Throw
    | Aborted => Aborted
    end.
Proof.
  simp merge_loop.
  generalize (inspect (merge_others condition current others)). intros [r e].
  transitivity
    (match r with
     | Return r => rest <- merge_loop condition (snd r) ;; Return (fst r :: rest)
     | Throw => Throw
     | Aborted => Aborted
     end); [| rewrite e; reflexivity].
  destruct r as [[c r] | |]; simp merge_loop; reflexivity.
Qed.

Lemma registers_of_cons (V : Type) (s : TPSet) (e : TPSet * list V)
      (sets : list (TPSet * list V)) :
  registers_of s (e :: sets)
  = if TPSet_eqb s (fst e) then snd e ++ registers_of s sets
    else registers_of s sets.
Proof.
  unfold registers_of. cbn [filter]. destruct (TPSet_eqb s (fst e)); reflexivity.
Qed.

Lemma merge_others_noDuplicates (V : Type) (typeInfo : TRegisterTypeInfo)
      (s : TPSet) (others : list (TPSet * list V)) :
  ordered_set s ->
  forall regs,
    merge_others (fun a b => noDuplicatesCondition a b typeInfo) (s, regs) others
    = Return ((s, regs ++ registers_of s others),
              filter (fun e => negb (TPSet_eqb s (fst e))) others).
Proof.
  intros Hord.
  induction others as [| other others IH]; intros regs;
    cbn [merge_others fst snd].
  - unfold registers_of. cbn. now rewrite app_nil_r.
  - unfold noDuplicatesCondition at 1. cbn [bind].
    rewrite registers_of_cons. cbn [filter].
    destruct (TPSet_eqb s (fst other)) eqn:E; cbn [negb].
    + apply TPSet_eqb_eq in E. rewrite <- E.
      rewrite set_insert_range_self by auto.
      rewrite IH. now rewrite <- app_assoc.
    + rewrite IH. reflexivity.
Qed.

Lemma filter_filter_implied (A : Type) (p q : A -> bool) (l : list A) :
  (forall x, In x l -> q x = true -> p x = true) ->
  filter q (filter p l) = filter q l.
Proof.
  induction l as [| x l IH]; intros H; cbn [filter]; [reflexivity |].
  assert (IH' : filter q (filter p l) = filter q l)
    by (apply IH; intros y Hy; apply H; now right).
  destruct (p x) eqn:Hp; cbn [filter].
  - now rewrite IH'.
  - destruct (q x) eqn:Hq; [| exact IH'].
    rewrite (H x) in Hp by (auto; now left). discriminate.
Qed.

Lemma filter_comm (A : Type) (p q : A -> bool) (l : list A) :
  filter p (filter q l) = filter q (filter p l).
Proof.
  induction l as [| x l IH]; cbn [filter]; [reflexivity |].
  destruct (p x) eqn:Hp, (q x) eqn:Hq; cbn [filter];
    rewrite ?Hp, ?Hq, IH; reflexivity.
Qed.

Lemma distinct_sets_filter (p : TPSet -> bool) (sets : list TPSet) :
  distinct_sets (filter p sets) = filter p (distinct_sets sets).
Proof.
  induction sets as [| s sets IH]; cbn [filter distinct_sets]; [reflexivity |].
  destruct (p s) eqn:Hp; cbn [distinct_sets filter]; rewrite ?Hp.
  - now rewrite IH, filter_comm.
  - rewrite IH. symmetry. apply filter_filter_implied.
    intros t _ Ht. destruct (TPSet_eqb s t) eqn:E; [| reflexivity].
    apply TPSet_eqb_eq in E. congruence.
Qed.

Lemma map_fst_filter (V : Type) (p : TPSet -> bool) (sets : list (TPSet * list V)) :
  map fst (filter (fun e => p (fst e)) sets) = filter p (map fst sets).
Proof.
  induction sets as [| e sets IH]; cbn [filter map]; [reflexivity |].
  destruct (p (fst e)); cbn [map]; now rewrite IH.
Qed.

Lemma distinct_sets_In (sets : list TPSet) (s : TPSet) :
  In s (distinct_sets sets) <-> In s sets.
Proof.
  induction sets as [| t sets IH]; cbn [distinct_sets]; [tauto |].
  cbn [In]. rewrite filter_In, IH.
  destruct (TPSet_eqb t s) eqn:E.
  - apply TPSet_eqb_eq in E. subst. cbn. intuition discriminate.
  - cbn. intuition.
Qed.

Lemma distinct_sets_NoDup (sets : list TPSet) : NoDup (distinct_sets sets).
Proof.
  induction sets as [| t sets IH]; cbn [distinct_sets]; constructor.
  - rewrite filter_In. intros [_ H]. now rewrite TPSet_eqb_refl in H.
  - now apply NoDup_filter.
Qed.

Lemma coalesced_cons (V : Type) (s : TPSet) (regs : list V)
      (others : list (TPSet * list V)) :
  coalesced ((s, regs) :: others)
  = (s, regs ++ registers_of s others)
      :: coalesced (filter (fun e => negb (TPSet_eqb s (fst e))) others).
Proof.
  unfold coalesced. cbn [map fst distinct_sets].
  rewrite registers_of_cons, TPSet_eqb_refl. cbn [fst snd]. f_equal.
  rewrite (@map_fst_filter V (fun t => negb (TPSet_eqb s t))).
  rewrite distinct_sets_filter.
  apply map_ext_in. intros t Ht. apply filter_In in Ht. destruct Ht as [_ Hts].
  f_equal. rewrite registers_of_cons. cbn [fst].
  assert (Hst : TPSet_eqb t s = false).
  { destruct (TPSet_eqb t s) eqn:E; [| reflexivity].
    apply TPSet_eqb_eq in E. subst. now rewrite TPSet_eqb_refl in Hts. }
  rewrite Hst. unfold registers_of. f_equal. f_equal. symmetry.
  apply filter_filter_implied. intros e _ He.
  apply TPSet_eqb_eq in He. now rewrite <- He.
Qed.

Lemma filter_length_le (A : Type) (p : A -> bool) (l : list A) :
  (List.length (filter p l) <= List.length l)%nat.
Proof.
  induction l as [| x l IH]; cbn; [lia |]. destruct (p x); cbn; lia.
Qed.

Lemma merge_loop_noDuplicates (V : Type) (typeInfo : TRegisterTypeInfo) :
  forall (n : nat) (sets : list (TPSet * list V)),
    (List.length sets <= n)%nat ->
    (forall e, In e sets -> ordered_set (fst e)) ->
    merge_loop (fun a b => noDuplicatesCondition a b typeInfo) sets
    = Return (coalesced sets).
Proof.
  induction n as [| n IH]; intros sets Hlen Hord.
  - destruct sets; [| cbn in Hlen; lia]. now simp merge_loop.
  - destruct sets as [| [s regs] others]; [now simp merge_loop |].
    rewrite merge_loop_cons, merge_others_noDuplicates
      by (apply (Hord (s, regs)); now left).
    cbn [fst snd]. rewrite IH.
    + cbn [bind]. now rewrite coalesced_cons.
    + pose proof (filter_length_le
                    (fun e : TPSet * list V => negb (TPSet_eqb s (fst e))) others).
      cbn in Hlen. lia.
    + intros e He. apply filter_In in He. apply Hord. right. tauto.
Qed.

Lemma registers_partition (V : Type) (s : TPSet) (sets : list (TPSet * list V)) :
  Permutation
    (registers_of s sets
     ++ List.concat (map snd (filter (fun e => negb (TPSet_eqb s (fst e))) sets)))
    (List.concat (map snd sets)).
Proof.
  induction sets as [| e sets IH]; [constructor |].
  rewrite registers_of_cons. cbn [filter map List.concat].
  destruct (TPSet_eqb s (fst e)); cbn [negb map List.concat].
  - rewrite <- app_assoc. now apply Permutation_app_head.
  - rewrite app_assoc.
    rewrite (Permutation_app_comm (registers_of s sets) (snd e)).
    rewrite <- app_assoc. now apply Permutation_app_head.
Qed.

Lemma coalesced_registers (V : Type) :
  forall (n : nat) (sets : list (TPSet * list V)),
    (List.length sets <= n)%nat ->
    Permutation (List.concat (map snd (coalesced sets)))
                (List.concat (map snd sets)).
Proof.
  induction n as [| n IH]; intros sets Hlen.
  - destruct sets; [constructor | cbn in Hlen; lia].
  - destruct sets as [| [s regs] others]; [constructor |].
    rewrite coalesced_cons. cbn [map snd List.concat].
    rewrite <- app_assoc. apply Permutation_app_head.
    rewrite IH.
    + apply registers_partition.
    + pose proof (filter_length_le
                    (fun e : TPSet * list V => negb (TPSet_eqb s (fst e))) others).
      cbn in Hlen. lia.
Qed.

Lemma coalesced_fst (V : Type) (sets : list (TPSet * list V)) :
  map fst (coalesced sets) = distinct_sets (map fst sets).
Proof.
  unfold coalesced. rewrite map_map. cbn [fst]. apply map_id.
Qed.

(** C5, as the code has it: under the NoDuplicates policy two entries are
    merged iff they carry the same block set.  On input whose sets pass
    CheckSets, MergeSets yields one entry per distinct block set, in the
    order of the first occurrences, so m entries for m distinct sets; the
    block set of an entry of the output is a block set of the input,
    unchanged; its register list is the concatenation, in input order, of
    the register lists of the input entries that carry this block set.  All
    the register lists of the output together are a permutation of the
    registers of the input. *)
Theorem MergeSets_NoDuplicates
        (V : Type) (blocks : TPSet) (typeInfo : TRegisterTypeInfo)
        (sets : list (TPSet * list V)) :
  (forall e, In e sets -> ordered_set (fst e)) ->
  CheckSets blocks sets typeInfo = Return tt ->
  (forall a b, noDuplicatesCondition a b typeInfo = Return true <-> a = b)
  /\ exists out,
      MergeSets blocks sets typeInfo NoDuplicates = Return out
      /\ map fst out = distinct_sets (map fst sets)
      /\ List.length out = List.length (distinct_sets (map fst sets))
      /\ NoDup (map fst out)
      /\ (forall s, In s (map fst out) <-> In s (map fst sets))
      /\ (forall s regs, In (s, regs) out -> regs = registers_of s sets)
      /\ Permutation (List.concat (map snd out)) (List.concat (map snd sets)).
Proof.
  intros Hord Hcheck. split.
  - intros a b. unfold noDuplicatesCondition. rewrite <- TPSet_eqb_eq.
    split; [intros [= ->]; reflexivity | intros ->; reflexivity].
  - exists (coalesced sets).
    unfold MergeSets. rewrite Hcheck. cbn [bind policy_eqb].
    rewrite (@merge_loop_noDuplicates V typeInfo (List.length sets) sets)
      by auto.
    split; [reflexivity |].
    pose proof (coalesced_fst sets) as Hfst.
    split; [exact Hfst |].
    split; [rewrite <- Hfst; now rewrite length_map |].
    split; [rewrite Hfst; apply distinct_sets_NoDup |].
    split; [intros s; rewrite Hfst; apply distinct_sets_In |].
    split.
    + intros s regs Hin. unfold coalesced in Hin.
      apply in_map_iff in Hin. destruct Hin as (t & [= -> <-] & _). reflexivity.
    + apply (@coalesced_registers V (List.length sets)). lia.
Qed.

Lemma MergeSets_NoDuplicates_witness :
  MergeSets sample_registry interleaved_sets no_hole_limits NoDuplicates
  = Return [([block 100], [1%nat; 3%nat]); ([block 101], [2%nat])].
Proof.
  destruct (@MergeSets_NoDuplicates nat sample_registry no_hole_limits
              interleaved_sets)
    as (_ & out & Hrun & Hfst & _ & _ & _ & Hregs & _).
  - intros e [<- | [<- | [<- | []]]]; repeat constructor.
  - reflexivity.
  - rewrite Hrun. f_equal.
    destruct out as [| [s1 r1] [| [s2 r2] [| e out]]]; try discriminate Hfst.
    cbn in Hfst. injection Hfst as -> ->.
    rewrite (Hregs _ r1) by (now left).
    rewrite (Hregs _ r2) by (right; now left).
    reflexivity.
Defined.

(** C5, as stated, fails where it says that the register lists of the output
    concatenate, in input order, to the input registers: with the registers
    1 and 3 on the block at 100 and the register 2 on the block at 101, the
    output carries 1, 3, 2. *)
Lemma MergeSets_NoDuplicates_reorders_registers :
  ~ (forall out,
        MergeSets sample_registry interleaved_sets no_hole_limits NoDuplicates
        = Return out ->
        List.concat (map snd out) = List.concat (map snd interleaved_sets)).
Proof.
  intros stated.
  specialize (stated [([block 100], [1%nat; 3%nat]); ([block 101], [2%nat])]).
  assert (H : MergeSets sample_registry interleaved_sets no_hole_limits
                        NoDuplicates
              = Return [([block 100], [1%nat; 3%nat]); ([block 101], [2%nat])])
    by (vm_compute; reflexivity).
  specialize (stated H). discriminate stated.
Qed.

(** ** Scenarios of the design document *)

(** Registers at 100 and 101, no hole allowed, at most 125 registers: one
    query under Minify, two under NoDuplicates. *)
Example scenario_trivial_merge :
  summary (MergeSets (map block [100; 101]) (entries_at [100; 101])
                     (limits 0 125) Minify)
  = Some [([100; 101], [100; 101])]
  /\ summary (MergeSets (map block [100; 101]) (entries_at [100; 101])
                        (limits 0 125) NoDuplicates)
     = Some [([100], [100]); ([101], [101])].
Proof. split; vm_compute; reflexivity. Qed.

(** Registers at 100 and 103: one query when holes of 2 are allowed, two
    when only holes of 1 are. *)
Example scenario_hole_tolerated :
  summary (MergeSets (map block [100; 103]) (entries_at [100; 103])
                     (limits 2 125) Minify)
  = Some [([100; 103], [100; 103])]
  /\ summary (MergeSets (map block [100; 103]) (entries_at [100; 103])
                        (limits 1 125) Minify)
     = Some [([100], [100]); ([103], [103])].
Proof. split; vm_compute; reflexivity. Qed.

(** Twenty registers at 200..219, at most 10 registers per query: the
    queries 200..209 and 210..219. *)
Example scenario_count_cap :
  let addresses := map Z.of_nat (seq 200 20) in
  summary (MergeSets (map block addresses) (entries_at addresses)
                     (limits 0 10) Minify)
  = Some [(map Z.of_nat (seq 200 10), map Z.of_nat (seq 200 10));
          (map Z.of_nat (seq 210 10), map Z.of_nat (seq 210 10))].
Proof. vm_compute. reflexivity. Qed.

(** A set whose own addresses leave a hole is rejected when the device has
    no block in between: the assertion-free path of CheckSets throws. *)
Example scenario_hole_rejected :
  MergeSets sparse_registry [([block 101; block 103], [1%nat])]
            no_hole_limits Minify
  = Throw.
Proof. vm_compute. reflexivity. Qed.

(** ** Virtual register: poll cycles *)

Lemma update_error_config (flag : Z) (error : bool) (r : TVirtualRegister) :
  let r' := update_error flag error r in
  HasErrorValue r' = HasErrorValue r
  /\ ErrorValue r' = ErrorValue r
  /\ ReadOnly r' = ReadOnly r
  /\ ValueToWrite r' = ValueToWrite r
  /\ MemoryBlocks r' = MemoryBlocks r.
Proof.
  destruct r as [self dev ty ad ro po he ev wo mbs vw cv wq es cp di en vr va].
  unfold update_error; cbn [ErrorState].
  destruct (es =? EErrorState.UnknownErrorState), error;
    cbn [ErrorState set_ErrorState ChangedPublishData];
    match goal with
    | |- context [negb (?a =? es)] => destruct (a =? es)
    end; cbn; repeat split; reflexivity.
Qed.

(** What a polled register is after accepting [raw]. *)
Lemma AcceptDeviceValue_effect (raw : Z) (r : TVirtualRegister) :
  NeedToPoll r = true ->
  ValueIsRead r = false ->
  let is_error := HasErrorValue r && (ErrorValue r =? raw) in
  let changed :=
    if is_error then ChangedPublishData r
    else if negb (CurrentValue r =? raw) || negb (ValueWasAccepted r)
         then Add (ChangedPublishData r) EPublishData.Value
         else ChangedPublishData r in
  exists r',
    AcceptDeviceValue raw r = Return r'
    /\ Poll r' = Poll r
    /\ Dirty r' = Dirty r
    /\ HasErrorValue r' = HasErrorValue r
    /\ ErrorValue r' = ErrorValue r
    /\ ValueIsRead r' = true
    /\ ValueWasAccepted r' = true
    /\ CurrentValue r' = (if is_error then CurrentValue r else raw)
    /\ ErrorState r'
       = next_error_state EErrorState.ReadError is_error (ErrorState r)
    /\ ChangedPublishData r'
       = (if ErrorState r' =? ErrorState r then changed
          else Add changed EPublishData.Error).
Proof.
  intros Hpoll Hread is_error changed.
  unfold AcceptDeviceValue. rewrite Hpoll, Hread. cbn [negb assert bind].
  destruct r as [self dev ty ad ro po he ev wo mbs vw cv wq es cp di en vr va].
  cbn [HasErrorValue ErrorValue CurrentValue ValueWasAccepted
       set_ValueIsRead set_ValueWasAccepted RegType RegAddress ReadOnly Poll
       WordOrder MemoryBlocks ValueToWrite WriteQuery ErrorState
       ChangedPublishData Dirty Enabled ValueIsRead Self Device]
    in *.
  subst is_error changed.
  destruct (he && (ev =? raw)) eqn:Herr;
    [| destruct (Z.eqb_spec cv raw) as [Heq | Hneq]; cbn [negb orb];
       [destruct va; cbn [negb] |]];
    (eexists; split; [reflexivity |]);
    rewrite UpdateReadError_shape;
    match goal with
    | |- context [update_error ?f ?e ?x] =>
        destruct (update_error_fields f e x) as (E & C & V & D & R & A & _ & P);
        destruct (update_error_config f e x) as (HE & EV & _)
    end;
    rewrite P, D, HE, EV, R, A, V, C, E; cbn; repeat split; congruence.
Qed.

Lemma NeedToPoll_InvalidateReadValues (r : TVirtualRegister) :
  NeedToPoll (InvalidateReadValues r) = NeedToPoll r
  /\ ValueIsRead (InvalidateReadValues r) = false
  /\ ErrorState (InvalidateReadValues r) = ErrorState r
  /\ ChangedPublishData (InvalidateReadValues r) = ChangedPublishData r
  /\ CurrentValue (InvalidateReadValues r) = CurrentValue r
  /\ ValueWasAccepted (InvalidateReadValues r) = ValueWasAccepted r
  /\ HasErrorValue (InvalidateReadValues r) = HasErrorValue r
  /\ ErrorValue (InvalidateReadValues r) = ErrorValue r.
Proof. destruct r. repeat split. Qed.

Lemma ResetChanged_frame (state : Z) (r : TVirtualRegister) :
  NeedToPoll (ResetChanged state r) = NeedToPoll r
  /\ ValueIsRead (ResetChanged state r) = ValueIsRead r
  /\ ErrorState (ResetChanged state r) = ErrorState r
  /\ ChangedPublishData (ResetChanged state r)
     = Remove (ChangedPublishData r) state
  /\ CurrentValue (ResetChanged state r) = CurrentValue r
  /\ ValueWasAccepted (ResetChanged state r) = ValueWasAccepted r
  /\ HasErrorValue (ResetChanged state r) = HasErrorValue r
  /\ ErrorValue (ResetChanged state r) = ErrorValue r.
Proof. destruct r. repeat split. Qed.

(** X1: a register accepts one device value per poll cycle.  After a polled
    register has accepted a value, a second AcceptDeviceValue in the same
    cycle fails the assertion on ValueIsRead, whatever the value; once
    InvalidateReadValues has closed the cycle, the next value is accepted. *)
Theorem AcceptDeviceValue_once_per_cycle (raw1 raw2 : Z) (r : TVirtualRegister) :
  NeedToPoll r = true ->
  ValueIsRead r = false ->
  exists r1,
    AcceptDeviceValue raw1 r = Return r1
    /\ AcceptDeviceValue raw2 r1 = Aborted
    /\ exists r2,
         AcceptDeviceValue raw2 (InvalidateReadValues r1) = Return r2
         /\ ValueIsRead r2 = true.
Proof.
  intros Hpoll Hread.
  destruct (AcceptDeviceValue_effect raw1 r Hpoll Hread)
    as (r1 & Hrun & HP & HD & _ & _ & HR & _).
  exists r1. split; [exact Hrun |].
  assert (Hpoll1 : NeedToPoll r1 = true)
    by (unfold NeedToPoll in *; now rewrite HP, HD).
  split.
  - unfold AcceptDeviceValue. rewrite Hpoll1, HR. reflexivity.
  - destruct (NeedToPoll_InvalidateReadValues r1) as (N & V & _).
    destruct (AcceptDeviceValue_effect raw2 (InvalidateReadValues r1))
      as (r2 & Hrun2 & _ & _ & _ & _ & HR2 & _).
    + now rewrite N.
    + exact V.
    + exists r2. split; assumption.
Qed.

Lemma AcceptDeviceValue_once_per_cycle_witness :
  exists r1,
    AcceptDeviceValue 7 polled_register = Return r1
    /\ AcceptDeviceValue 8 r1 = Aborted.
Proof.
  destruct (AcceptDeviceValue_once_per_cycle 7 8 polled_register eq_refl eq_refl)
    as (r1 & H1 & H2 & _).
  exists r1. split; assumption.
Defined.

Lemma Has_Add_Value_Error (c : Z) :
  Has (Add c EPublishData.Value) EPublishData.Error = Has c EPublishData.Error.
Proof.
  unfold Has, Add, EPublishData.Error, EPublishData.Value.
  rewrite Z.land_lor_distr_l. change (Z.land 1 2) with 0.
  now rewrite Z.lor_0_r.
Qed.

Lemma Has_differs (a b flag : Z) : Has a flag <> Has b flag -> a <> b.
Proof. intros H ->. now apply H. Qed.

(** X2: the ReadError bit latches.  A poll that reads the configured error
    value sets ReadError, and raises the Error publish flag when the bit was
    not set before; the next poll that reads another value clears ReadError
    and raises the Error publish flag again; a further successful poll
    leaves the Error publish flag down (the publisher resets the flag and
    the cycle ends between the polls). *)
Theorem ReadError_latches (raw : Z) (r : TVirtualRegister) :
  NeedToPoll r = true ->
  ValueIsRead r = false ->
  HasErrorValue r = true ->
  raw <> ErrorValue r ->
  valid_error_state (ErrorState r) ->
  let next_cycle r := InvalidateReadValues (ResetChanged EPublishData.Error r) in
  exists r1 r2 r3,
    AcceptDeviceValue (ErrorValue r) r = Return r1
    /\ Has (ErrorState r1) EErrorState.ReadError = true
    /\ (Has (ErrorState r) EErrorState.ReadError = false ->
        IsChanged EPublishData.Error r1 = true)
    /\ AcceptDeviceValue raw (next_cycle r1) = Return r2
    /\ Has (ErrorState r2) EErrorState.ReadError = false
    /\ IsChanged EPublishData.Error r2 = true
    /\ AcceptDeviceValue raw (next_cycle r2) = Return r3
    /\ Has (ErrorState r3) EErrorState.ReadError = false
    /\ IsChanged EPublishData.Error r3 = false.
Proof.
  intros Hpoll Hread Hhas Hraw Hvalid next_cycle.
  assert (Hflag : EErrorState.ReadError = EErrorState.ReadError
                  \/ EErrorState.ReadError = EErrorState.WriteError) by now left.
  assert (Hnext : forall x,
             NeedToPoll (next_cycle x) = NeedToPoll x
             /\ ValueIsRead (next_cycle x) = false
             /\ ErrorState (next_cycle x) = ErrorState x
             /\ ChangedPublishData (next_cycle x)
                = Remove (ChangedPublishData x) EPublishData.Error
             /\ HasErrorValue (next_cycle x) = HasErrorValue x
             /\ ErrorValue (next_cycle x) = ErrorValue x).
  { intros x. unfold next_cycle. destruct x. repeat split. }
  (* first poll: the error value *)
  destruct (AcceptDeviceValue_effect (ErrorValue r) r Hpoll Hread)
    as (r1 & Hrun1 & P1 & D1 & HE1 & EV1 & _ & _ & _ & E1 & C1).
  rewrite Hhas, Z.eqb_refl in E1, C1. cbn [andb] in E1, C1.
  destruct (next_error_state_spec true Hflag Hvalid) as (B1 & S1 & _ & _).
  rewrite <- E1 in B1, S1.
  (* second poll: another value *)
  destruct (Hnext r1) as (N1 & V1 & ES1 & CP1 & HEn1 & EVn1).
  assert (Hpoll1 : NeedToPoll (next_cycle r1) = true)
    by (rewrite N1; unfold NeedToPoll in *; now rewrite P1, D1).
  destruct (AcceptDeviceValue_effect raw (next_cycle r1) Hpoll1 V1)
    as (r2 & Hrun2 & P2 & D2 & HE2 & EV2 & _ & _ & _ & E2 & C2).
  assert (Hnoerr : forall x, HasErrorValue x = HasErrorValue r ->
                             ErrorValue x = ErrorValue r ->
                             HasErrorValue x && (ErrorValue x =? raw) = false).
  { intros x -> ->. rewrite Hhas. cbn. apply Z.eqb_neq. congruence. }
  rewrite Hnoerr in E2, C2 by congruence.
  rewrite ES1 in E2, C2.
  assert (Hvalid1 : valid_error_state (ErrorState r1)) by (right; exact B1).
  destruct (next_error_state_spec false Hflag Hvalid1) as (B2 & S2 & _ & I2).
  rewrite <- E2 in B2, S2, I2.
  assert (Hflip : ErrorState r2 <> ErrorState r1)
    by (apply (@Has_differs _ _ EErrorState.ReadError); congruence).
  (* third poll: the same value again *)
  destruct (Hnext r2) as (N2 & V2 & ES2 & CP2 & HEn2 & EVn2).
  assert (Hpoll2 : NeedToPoll (next_cycle r2) = true).
  { rewrite N2. unfold NeedToPoll in *. rewrite P2, D2.
    destruct (next_cycle r1); exact Hpoll1. }
  destruct (AcceptDeviceValue_effect raw (next_cycle r2) Hpoll2 V2)
    as (r3 & Hrun3 & _ & _ & _ & _ & _ & _ & _ & E3 & C3).
  rewrite Hnoerr in E3, C3 by congruence.
  rewrite ES2 in E3, C3. rewrite I2 in E3.
  exists r1, r2, r3.
  split; [exact Hrun1 |]. split; [exact S1 |]. split.
  { intros Hclear. unfold IsChanged. rewrite C1.
    destruct (Z.eqb_spec (ErrorState r1) (ErrorState r)) as [Heq | _];
      [| apply Has_Add_same].
    rewrite Heq in S1. congruence. }
  split; [exact Hrun2 |]. split; [exact S2 |]. split.
  { unfold IsChanged. rewrite C2.
    destruct (Z.eqb_spec (ErrorState r2) (ErrorState r1)) as [Heq | _];
      [contradiction | apply Has_Add_same]. }
  split; [exact Hrun3 |]. split; [now rewrite E3 |].
  unfold IsChanged. rewrite C3, E3, Z.eqb_refl, CP2.
  match goal with
  | |- Has (if ?c then ?a else ?b) _ = false => destruct c
  end.
  - rewrite Has_Add_Value_Error. apply Has_Remove_Error.
  - apply Has_Remove_Error.
Qed.

Lemma ReadError_latches_witness :
  exists r1 r2,
    AcceptDeviceValue 65535 polled_register = Return r1
    /\ Has (ErrorState r1) EErrorState.ReadError = true
    /\ AcceptDeviceValue 7
         (InvalidateReadValues (ResetChanged EPublishData.Error r1))
       = Return r2
    /\ Has (ErrorState r2) EErrorState.ReadError = false.
Proof.
  assert (Hraw : 7 <> ErrorValue polled_register) by (cbn; lia).
  assert (Hvalid : valid_error_state (ErrorState polled_register))
    by (left; reflexivity).
  destruct (@ReadError_latches 7 polled_register eq_refl eq_refl eq_refl
              Hraw Hvalid)
    as (r1 & r2 & _ & H1 & S1 & _ & H2 & S2 & _).
  exists r1, r2. repeat split; assumption.
Defined.

(** X3: a first poll that reads the error value uses up the first-poll
    publication.  On a register that has accepted nothing yet, a first
    successful poll raises the Value publish flag even when the value equals
    the initial current value; but when the first poll reads the configured
    error value, the next poll of that same value leaves the Value publish
    flag as it was, for ValueWasAccepted is set before the error value is
    looked at. *)
Theorem first_poll_error_hides_first_value (r : TVirtualRegister) :
  NeedToPoll r = true ->
  ValueIsRead r = false ->
  ValueWasAccepted r = false ->
  HasErrorValue r = true ->
  CurrentValue r <> ErrorValue r ->
  (exists r',
      AcceptDeviceValue (CurrentValue r) r = Return r'
      /\ IsChanged EPublishData.Value r' = true)
  /\ exists r1 r2,
      AcceptDeviceValue (ErrorValue r) r = Return r1
      /\ ValueWasAccepted r1 = true
      /\ AcceptDeviceValue (CurrentValue r) (InvalidateReadValues r1) = Return r2
      /\ CurrentValue r2 = CurrentValue r
      /\ IsChanged EPublishData.Value r2 = IsChanged EPublishData.Value r.
Proof.
  intros Hpoll Hread Hfirst Hhas Hcv.
  assert (Hne : (ErrorValue r =? CurrentValue r) = false)
    by (apply Z.eqb_neq; congruence).
  assert (Hvalue : forall c (x : bool),
             Has (if x then c else Add c EPublishData.Error) EPublishData.Value
             = Has c EPublishData.Value).
  { intros c [|]; [reflexivity | apply Has_Add_Error_Value]. }
  split.
  - destruct (AcceptDeviceValue_effect (CurrentValue r) r Hpoll Hread)
      as (r' & Hrun & _ & _ & _ & _ & _ & _ & _ & _ & C).
    exists r'. split; [exact Hrun |].
    rewrite Hhas, Hne, Hfirst, Z.eqb_refl in C. cbn in C.
    unfold IsChanged. rewrite C, Hvalue. apply Has_Add_same.
  - destruct (AcceptDeviceValue_effect (ErrorValue r) r Hpoll Hread)
      as (r1 & Hrun1 & P1 & D1 & HE1 & EV1 & _ & A1 & V1 & _ & C1).
    rewrite Hhas, Z.eqb_refl in V1, C1. cbn [andb] in V1, C1.
    destruct (NeedToPoll_InvalidateReadValues r1)
      as (N & R & ES & CP & CV & WA & HE & EV).
    assert (Hpoll1 : NeedToPoll (InvalidateReadValues r1) = true)
      by (rewrite N; unfold NeedToPoll in *; now rewrite P1, D1).
    destruct (AcceptDeviceValue_effect (CurrentValue r)
                (InvalidateReadValues r1) Hpoll1 R)
      as (r2 & Hrun2 & _ & _ & _ & _ & _ & _ & V2 & _ & C2).
    rewrite HE, EV, HE1, EV1, Hhas, Hne in V2.
    rewrite HE, EV, HE1, EV1, Hhas, Hne, CV, V1, WA, A1, CP, Z.eqb_refl in C2.
    cbn in V2, C2.
    exists r1, r2. repeat split; try assumption.
    unfold IsChanged. rewrite C2, Hvalue, C1, Hvalue. reflexivity.
Qed.

Lemma first_poll_error_hides_first_value_witness :
  exists r1 r2,
    AcceptDeviceValue 65535 polled_register = Return r1
    /\ AcceptDeviceValue 0 (InvalidateReadValues r1) = Return r2
    /\ IsChanged EPublishData.Value r2 = false.
Proof.
  assert (Hcv : CurrentValue polled_register <> ErrorValue polled_register)
    by (cbn; lia).
  destruct (@first_poll_error_hides_first_value polled_register
              eq_refl eq_refl eq_refl eq_refl Hcv)
    as (_ & r1 & r2 & H1 & _ & H2 & _ & Hch).
  exists r1, r2. repeat split; assumption.
Defined.

(** ** Virtual register: the write path *)

(** X4: a write request suspends polling.  SetTextValue on a read-only
    register, whose value to write is null, changes nothing and signals
    nothing.  On a writable register, which holds a value to write, it sets
    the dirty flag, so that NeedToPoll() is false and every value polled from
    then on is discarded by AcceptDeviceValue; it leaves the current value,
    the error state and the publish flags alone.  When the formatter takes
    the text, the value to write is the raw word of the text and the flush
    semaphore, if registered, is signalled; when the formatter throws, the
    register stays dirty with the value to write it had. *)
Theorem SetTextValue_suspends_polling
        (OnValue : string) (FormatterSetTextValue : string -> result Z)
        (FlushNeeded : bool) (value : string) (r : TVirtualRegister) :
  let out := SetTextValue OnValue FormatterSetTextValue FlushNeeded value r in
  let text :=
    if String.eqb OnValue EmptyString then value
    else if String.eqb value "1" then OnValue else "0"%string in
  (ReadOnly r = true ->
   After out = r /\ Signalled out = false /\ Outcome out = Return tt)
  /\ (ReadOnly r = false ->
      forall previous,
        ValueToWrite r = Some previous ->
        Dirty (After out) = true
        /\ NeedToPoll (After out) = false
        /\ (forall raw, AcceptDeviceValue raw (After out) = Return (After out))
        /\ CurrentValue (After out) = CurrentValue r
        /\ ErrorState (After out) = ErrorState r
        /\ ChangedPublishData (After out) = ChangedPublishData r
        /\ match FormatterSetTextValue text with
           | Return v =>
               ValueToWrite (After out) = Some v
               /\ Signalled out = FlushNeeded
               /\ Outcome out = Return tt
           | Throw =>
               ValueToWrite (After out) = Some previous
               /\ Signalled out = false
               /\ Outcome out = Throw
           | Aborted =>
               ValueToWrite (After out) = Some previous
               /\ Signalled out = false
               /\ Outcome out = Aborted
           end).
Proof.
  intros out text. subst out. unfold SetTextValue.
  split; intros Hro; rewrite Hro.
  - repeat split.
  - intros previous Hvw.
    destruct r as [self dev ty ad ro po he ev wo mbs vw cv wq es cp di en vr va].
    cbn [ValueToWrite set_Dirty] in *. subst vw. fold text.
    assert (Hdiscard : forall x : TVirtualRegister,
               Dirty x = true -> NeedToPoll x = false
               /\ forall raw, AcceptDeviceValue raw x = Return x).
    { intros x Hx. assert (N : NeedToPoll x = false)
        by (unfold NeedToPoll; rewrite Hx; apply andb_false_r).
      split; [exact N |]. intros raw. unfold AcceptDeviceValue. now rewrite N. }
    destruct (FormatterSetTextValue text) as [v | |]; cbn [After Signalled Outcome];
      (split; [reflexivity |]);
      (split; [apply Hdiscard; reflexivity |]);
      (split; [apply Hdiscard; reflexivity |]);
      repeat split.
Qed.

Lemma SetTextValue_suspends_polling_witness :
  (ReadOnly polled_register = true
   /\ ValueToWrite polled_register = None
   /\ After (SetTextValue "255" sample_from_text true "1" polled_register)
      = polled_register)
  /\ let out := SetTextValue "255" sample_from_text true "1" written_register in
     ValueToWrite (After out) = Some 255
     /\ Signalled out = true
     /\ AcceptDeviceValue 7 (After out) = Return (After out).
Proof.
  split.
  - split; [reflexivity | split; [reflexivity |]].
    destruct (@SetTextValue_suspends_polling "255" sample_from_text true "1"
                polled_register) as (H & _).
    apply (H eq_refl).
  - intros out.
    destruct (@SetTextValue_suspends_polling "255" sample_from_text true "1"
                written_register) as (_ & H).
    destruct (H eq_refl 5 eq_refl) as (_ & _ & Hdiscard & _ & _ & _ & Hfmt).
    change (sample_from_text "255") with (@Return Z 255) in Hfmt.
    destruct Hfmt as (Hv & Hs & _).
    split; [exact Hv |]. split; [exact Hs |]. apply Hdiscard.
Defined.

(** X5: one write request, one write.  After SetTextValue has taken a text
    on a writable register that holds its write query, Flush hands the device
    that query, with its status reset and the value of the context of the
    current value set, and keeps what Execute made of it as the write query.
    It clears the dirty flag, so that the register is polled again iff its
    Poll flag is set, keeps the value to write, sets the WriteError bit iff
    the status that Execute left is not Ok, and a second Flush finds nothing
    to do. *)
Theorem SetTextValue_then_Flush
        (OnValue : string) (FormatterSetTextValue : string -> result Z)
        (FlushNeeded : bool)
        (Execute : TIRDeviceValueQuery -> TIRDeviceValueQuery)
        (value : string) (r : TVirtualRegister) (previous : Z)
        (q : TIRDeviceValueQuery) :
  ReadOnly r = false ->
  ValueToWrite r = Some previous ->
  WriteQuery r = Some q ->
  let out := SetTextValue OnValue FormatterSetTextValue FlushNeeded value r in
  let executed := Execute (SetValue (GetValueContext r) (ResetStatus q)) in
  Outcome out = Return tt ->
  exists r',
    Flush Execute (After out) = Return r'
    /\ WriteQuery r' = Some executed
    /\ NeedToFlush r' = false
    /\ NeedToPoll r' = Poll r
    /\ ValueToWrite r' = ValueToWrite (After out)
    /\ Has (ErrorState r') EErrorState.WriteError
       = negb (status_eqb (GetStatus executed) Ok)
    /\ Flush Execute r' = Return r'.
Proof.
  intros Hro Hvw Hwq out executed Hout.
  assert (Hafter : Dirty (After out) = true
                   /\ WriteQuery (After out) = Some q
                   /\ Poll (After out) = Poll r
                   /\ GetValueContext (set_Dirty false (After out))
                      = GetValueContext r).
  { subst out. unfold SetTextValue in *. rewrite Hro in *.
    destruct r as [self dev ty ad ro po he ev wo mbs vw cv wq es cp di en vr va].
    cbn [ValueToWrite WriteQuery set_Dirty] in *. subst vw wq.
    destruct (FormatterSetTextValue _); cbn in Hout; try discriminate.
    repeat split. }
  destruct Hafter as (Hd & Hq & Hp & Hctx).
  set (a := After out) in *.
  set (a' := set_Dirty false a) in *.
  assert (Ha' : WriteQuery a' = Some q /\ Dirty a' = false /\ Poll a' = Poll a
                /\ ValueToWrite a' = ValueToWrite a)
    by (subst a'; destruct a; repeat split; exact Hq).
  destruct Ha' as (Wa & Da & Pa & Va).
  set (a'' := set_WriteQuery (Some executed) a').
  assert (Ha'' : WriteQuery a'' = Some executed /\ Dirty a'' = false
                 /\ Poll a'' = Poll a /\ ValueToWrite a'' = ValueToWrite a)
    by (subst a''; destruct a'; cbn in *; repeat split; assumption).
  destruct Ha'' as (Wb & Db & Pb & Vb).
  assert (Hrun : Flush Execute a
                 = Return (UpdateWriteError
                             (negb (status_eqb (GetStatus executed) Ok)) a'')).
  { unfold Flush. rewrite Hd. fold a'. rewrite Wa, Hctx. reflexivity. }
  rewrite UpdateWriteError_shape in Hrun.
  destruct (update_error_fields EErrorState.WriteError
              (negb (status_eqb (GetStatus executed) Ok)) a'')
    as (E & _ & _ & D & _ & _ & W & P).
  destruct (update_error_config EErrorState.WriteError
              (negb (status_eqb (GetStatus executed) Ok)) a'')
    as (_ & _ & _ & VW & _).
  eexists. split; [exact Hrun |].
  split; [now rewrite W |].
  split; [unfold NeedToFlush; now rewrite D |].
  split; [unfold NeedToPoll; rewrite P, D, Pb, Db, Hp; apply andb_true_r |].
  split; [now rewrite VW |].
  split; [rewrite E; apply Has_next_error_state_same; now right |].
  unfold Flush. now rewrite D, Db.
Qed.

Lemma SetTextValue_then_Flush_witness :
  exists r',
    Flush execute_fail
          (After (SetTextValue "" sample_from_text false "255" written_register))
    = Return r'
    /\ WriteQuery r'
       = Some (execute_fail
                 (SetValue (GetValueContext written_register)
                           (ResetStatus
                              {| Status := NotExecuted; QueryValue := None |})))
    /\ NeedToFlush r' = false
    /\ Has (ErrorState r') EErrorState.WriteError = true.
Proof.
  destruct (@SetTextValue_then_Flush "" sample_from_text false execute_fail
              "255" written_register 5
              {| Status := NotExecuted; QueryValue := None |}
              eq_refl eq_refl eq_refl eq_refl)
    as (r' & Hrun & Hq & Hf & _ & _ & He & _).
  exists r'. split; [exact Hrun |]. split; [exact Hq |].
  split; [exact Hf | exact He].
Defined.

(** X6: the on-value mapping reads back what was written.  With an on_value
    that is not empty, that the formatter reads back as it is written (the
    text it gives for the raw word of on_value is on_value) and that differs
    from the text the formatter gives for the raw word of "0", a text taken
    by SetTextValue and accepted as written by AcceptWriteValue is read by
    GetTextValue as "1" when the text was "1" and as "0" for every other
    text.  Nothing is asked of the formatter on other texts. *)
Theorem OnValue_round_trip
        (OnValue : string) (FormatterSetTextValue : string -> result Z)
        (FormatterGetTextValue : Z -> string) (FlushNeeded : bool)
        (value : string) (r : TVirtualRegister) (previous : Z) :
  ReadOnly r = false ->
  ValueToWrite r = Some previous ->
  OnValue <> EmptyString ->
  (forall v, FormatterSetTextValue OnValue = Return v ->
             FormatterGetTextValue v = OnValue) ->
  (forall v, FormatterSetTextValue "0"%string = Return v ->
             FormatterGetTextValue v <> OnValue) ->
  let out := SetTextValue OnValue FormatterSetTextValue FlushNeeded value r in
  Outcome out = Return tt ->
  exists r',
    AcceptWriteValue (After out) = Return r'
    /\ GetTextValue OnValue FormatterGetTextValue r'
       = (if String.eqb value "1" then "1" else "0")%string.
Proof.
  intros Hro Hvw Hne Hon Hoff out Hout. subst out.
  unfold SetTextValue in *. rewrite Hro in *.
  destruct r as [self dev ty ad ro po he ev wo mbs vw cv wq es cp di en vr va].
  cbn [ValueToWrite set_Dirty] in *. subst vw.
  apply String.eqb_neq in Hne. rewrite Hne in *.
  destruct (FormatterSetTextValue
              (if String.eqb value "1" then OnValue else "0"%string))
    as [v | |] eqn:Hfmt; cbn [Outcome After] in *; try discriminate.
  unfold AcceptWriteValue. cbn [ValueToWrite set_ValueToWrite].
  eexists. split; [reflexivity |].
  unfold GetTextValue. rewrite Hne. rewrite UpdateWriteError_shape.
  match goal with
  | |- context [update_error ?f ?e ?x] =>
      destruct (update_error_fields f e x) as (_ & _ & V & _)
  end.
  rewrite V. cbn [CurrentValue set_CurrentValue].
  destruct (String.eqb value "1").
  - rewrite (Hon v Hfmt). now rewrite String.eqb_refl.
  - apply Hoff in Hfmt. apply String.eqb_neq in Hfmt. now rewrite Hfmt.
Qed.

Lemma OnValue_round_trip_witness :
  sample_from_text "007" = sample_from_text "7"
  /\ exists r',
       AcceptWriteValue
         (After (SetTextValue "255" sample_from_text true "1" written_register))
       = Return r'
       /\ GetTextValue "255" sample_to_text r' = "1"%string.
Proof.
  split; [reflexivity |].
  assert (Hne : "255"%string <> EmptyString) by discriminate.
  assert (Hon : forall v, sample_from_text "255" = Return v ->
                          sample_to_text v = "255"%string).
  { intros v H. change (sample_from_text "255") with (@Return Z 255) in H.
    injection H as <-. reflexivity. }
  assert (Hoff : forall v, sample_from_text "0" = Return v ->
                           sample_to_text v <> "255"%string).
  { intros v H. change (sample_from_text "0") with (@Return Z 0) in H.
    injection H as <-. discriminate. }
  exact (@OnValue_round_trip "255" sample_from_text sample_to_text true "1"
           written_register 5 eq_refl eq_refl Hne Hon Hoff eq_refl).
Defined.

(** ** Integer formats *)

Lemma land_below (m c k : Z) :
  0 <= k -> 0 <= m < 2 ^ k -> Z.land (Z.ones k) c = 0 -> Z.land m c = 0.
Proof.
  intros Hk Hm Hc.
  rewrite <- (Z.mod_small m (2 ^ k)) by exact Hm.
  rewrite <- Z.land_ones by exact Hk.
  now rewrite <- Z.land_assoc, Hc, Z.land_0_r.
Qed.

Lemma sign_bit_24 (m : Z) :
  0 <= m < 2 ^ 24 -> (Z.land m 0x800000 =? 0) = (m <? 0x800000).
Proof.
  intros Hm. destruct (Z.ltb_spec m 0x800000) as [Hlt | Hge].
  - apply Z.eqb_eq. apply (@land_below m 0x800000 23); [lia | lia | reflexivity].
  - apply Z.eqb_neq.
    replace m with (0x800000 + (m - 0x800000)) by lia.
    assert (Hlow : Z.land 0x800000 (m - 0x800000) = 0).
    { rewrite Z.land_comm.
      apply (@land_below (m - 0x800000) 0x800000 23); [lia | lia | reflexivity]. }
    rewrite <- (Z.add_lor_land 0x800000 (m - 0x800000)) at 1.
    rewrite Hlow, Z.add_0_r, Z.land_lor_distr_l.
    rewrite (Z.land_comm (m - 0x800000)), Hlow, Z.lor_0_r.
    discriminate.
Qed.

Lemma sign_fix_24 (m : Z) :
  0 <= m < 2 ^ 24 -> Z.lor m 0xff000000 = m + 0xff000000.
Proof.
  intros Hm. rewrite <- Z.add_lor_land.
  rewrite (@land_below m 0xff000000 24); [lia | lia | exact Hm | reflexivity].
Qed.

(** X7: the integer formats decode and encode consistently.  For a raw
    64-bit word, the integer that ConvertSlaveValue hands on for a signed
    format lies in the two's complement range of the format's width and is
    congruent to the word modulo 2^width (for S24 this is the sign fix); for
    an unsigned format it is the word itself, unmasked.  Encoding that
    integer with ConvertMasterValue gives the word reduced to the width of
    the format. *)
Theorem integer_formats_round_trip (format : RegisterFormat) (value n : Z) :
  0 <= value < 2 ^ 64 ->
  ConvertSlaveValue_integer format value = Some n ->
  let w := format_width format in
  (if format_signed format
   then - 2 ^ (w - 1) <= n < 2 ^ (w - 1) /\ n mod 2 ^ w = value mod 2 ^ w
   else n = value)
  /\ ConvertMasterValue_integer format n = Some (value mod 2 ^ w).
Proof.
  intros Hv Hdec w. subst w.
  destruct format; cbn [ConvertSlaveValue_integer] in Hdec;
    try discriminate; injection Hdec as <-;
    cbn [format_signed format_width ConvertMasterValue_integer];
    try change (8 - 1) with 7; try change (16 - 1) with 15;
    try change (24 - 1) with 23; try change (32 - 1) with 31;
    try change (64 - 1) with 63.
  - (* U8 *) split; [reflexivity |].
    change 0xff with (Z.ones 8). now rewrite Z.land_ones by lia.
  - (* S8 *)
    change 0xff with (Z.ones 8). rewrite !Z.land_ones by lia.
    unfold to_int8, to_uint64.
    split; [repeat split | f_equal]; Z.div_mod_to_equations; lia.
  - (* U16 *) split; [reflexivity |].
    change 0xffff with (Z.ones 16). now rewrite Z.land_ones by lia.
  - (* S16 *)
    change 0xffff with (Z.ones 16). rewrite !Z.land_ones by lia.
    unfold to_int16, to_uint64.
    split; [repeat split | f_equal]; Z.div_mod_to_equations; lia.
  - (* S24 *)
    change 0xffffff with (Z.ones 24). rewrite !Z.land_ones by lia.
    pose proof (Z.mod_pos_bound value (2 ^ 24) ltac:(lia)) as Hm.
    rewrite (@to_uint32_small (value mod 2 ^ 24)) by lia.
    rewrite sign_bit_24 by exact Hm.
    destruct (Z.ltb_spec (value mod 2 ^ 24) 0x800000) as [Hlt | Hge];
      cbn [negb].
    + rewrite to_int_small by lia. unfold to_uint64.
      split; [repeat split | f_equal]; Z.div_mod_to_equations; lia.
    + rewrite sign_fix_24 by exact Hm. unfold to_int, to_uint64.
      split; [repeat split | f_equal]; Z.div_mod_to_equations; lia.
  - (* U24 *) split; [reflexivity |].
    change 0xffffff with (Z.ones 24). now rewrite Z.land_ones by lia.
  - (* U32 *) split; [reflexivity |].
    change 0xffffffff with (Z.ones 32). now rewrite Z.land_ones by lia.
  - (* S32 *)
    change 0xffffffff with (Z.ones 32). rewrite !Z.land_ones by lia.
    unfold to_int, to_uint64.
    split; [repeat split | f_equal]; Z.div_mod_to_equations; lia.
  - (* S64 *)
    unfold to_int64, to_uint64.
    split; [repeat split | f_equal]; Z.div_mod_to_equations; lia.
  - (* U64 *) split; [reflexivity |]. f_equal. symmetry. apply Z.mod_small. lia.
Qed.

Lemma integer_formats_round_trip_witness :
  ConvertSlaveValue_integer S24 0xfffffe = Some (-2)
  /\ ConvertMasterValue_integer S24 (-2) = Some 0xfffffe.
Proof.
  split; [reflexivity |].
  assert (Hv : 0 <= 0xfffffe < 2 ^ 64) by lia.
  exact (proj2 (@integer_formats_round_trip S24 0xfffffe (-2) Hv eq_refl)).
Defined.

(** ** Memory blocks: the order *)

(** X8: TMemoryBlock::operator< is a strict weak ordering, as an ordered set
    of blocks needs: irreflexive and transitive, with a transitive
    incomparability, any two blocks being ordered or incomparable.  Two
    blocks are incomparable iff they have the same type index and the same
    address, whatever their size. *)
Theorem mb_lt_strict_weak_order :
  (forall a, mb_lt a a = false)
  /\ (forall a b c, mb_lt a b = true -> mb_lt b c = true -> mb_lt a c = true)
  /\ (forall a b c,
         mb_equiv a b = true -> mb_equiv b c = true -> mb_equiv a c = true)
  /\ (forall a b, mb_lt a b = true \/ mb_equiv a b = true \/ mb_lt b a = true)
  /\ (forall a b,
         mb_equiv a b = true
         <-> Index (Type_ a) = Index (Type_ b) /\ Address a = Address b).
Proof.
  assert (Hlt : forall a b,
             mb_lt a b = true
             <-> Index (Type_ a) < Index (Type_ b)
                 \/ (Index (Type_ a) = Index (Type_ b) /\ Address a < Address b)).
  { intros a b. unfold mb_lt.
    rewrite orb_true_iff, andb_true_iff, Z.eqb_eq, !Z.ltb_lt. reflexivity. }
  assert (Hnlt : forall a b,
             mb_lt a b = false
             <-> ~ (Index (Type_ a) < Index (Type_ b)
                    \/ (Index (Type_ a) = Index (Type_ b)
                        /\ Address a < Address b))).
  { intros a b. rewrite <- Hlt. now destruct (mb_lt a b). }
  assert (Heq : forall a b,
             mb_equiv a b = true
             <-> Index (Type_ a) = Index (Type_ b) /\ Address a = Address b).
  { intros a b. unfold mb_equiv.
    rewrite andb_true_iff, !negb_true_iff, !Hnlt. lia. }
  split; [intros a; apply Hnlt; lia |].
  split; [intros a b c; rewrite !Hlt; lia |].
  split; [intros a b c; rewrite !Heq; lia |].
  split; [intros a b; rewrite !Hlt, Heq; lia | exact Heq].
Qed.

(** ** Memory blocks: the registers of a linkage *)

Lemma set_insert_Permutation (A : Type) (lt : A -> A -> bool) (x : A)
      (l : list A) :
  set_find lt x l = None -> Permutation (set_insert lt x l) (x :: l).
Proof.
  unfold set_find. induction l as [| z l IH]; intros Hfind; cbn in *.
  - reflexivity.
  - unfold equiv in Hfind at 1.
    destruct (lt x z) eqn:Hxz; [reflexivity |].
    destruct (lt z x) eqn:Hzx; cbn in Hfind; [| discriminate].
    rewrite (IH Hfind). apply perm_swap.
Qed.

Lemma set_find_None (A : Type) (lt : A -> A -> bool) (x : A) (l : list A) :
  set_find lt x l = None <-> forall y, In y l -> equiv lt y x = false.
Proof.
  unfold set_find. split.
  - intros H y Hy. exact (find_none _ _ H y Hy).
  - intros H. destruct (find (fun y => equiv lt y x) l) as [y |] eqn:E;
      [| reflexivity].
    apply find_some in E. destruct E as [Hy E]. rewrite (H y Hy) in E.
    discriminate.
Qed.

Lemma set_find_Some (A : Type) (lt : A -> A -> bool) (x : A) (l : list A) :
  (exists y, set_find lt x l = Some y)
  <-> exists y, In y l /\ equiv lt y x = true.
Proof.
  split.
  - intros (y & H). exists y. unfold set_find in H. now apply find_some in H.
  - intros (y & Hy & E).
    destruct (set_find lt x l) as [z |] eqn:F; [now exists z |].
    rewrite set_find_None in F. rewrite (F y Hy) in E. discriminate.
Qed.

Lemma LinkageHas_false (vreg : TVirtualRegister) (regs : list TVirtualRegister) :
  LinkageHas vreg regs = false <-> ~ In (Self vreg) (map Self regs).
Proof.
  unfold LinkageHas. split.
  - intros H Hin. apply in_map_iff in Hin. destruct Hin as (x & Hx & Hin).
    assert (E : existsb (fun added => Nat.eqb (Self added) (Self vreg)) regs
                = true).
    { apply existsb_exists. exists x. split; [exact Hin |].
      now apply Nat.eqb_eq. }
    congruence.
  - intros H.
    destruct (existsb (fun added => Nat.eqb (Self added) (Self vreg)) regs)
      eqn:E; [| reflexivity].
    apply existsb_exists in E. destruct E as (x & Hin & Hx).
    apply Nat.eqb_eq in Hx. exfalso. apply H. apply in_map_iff.
    exists x. split; assumption.
Qed.

Lemma equiv_AreOverlapping
      (context_lt : TIRDeviceValueContext -> TIRDeviceValueContext -> bool)
      (x y : TVirtualRegister) :
  Device x = Device y ->
  RegType x = RegType y ->
  equiv (vreg_lt context_lt) x y = AreOverlapping context_lt x y.
Proof.
  intros Hd Ht. unfold equiv, vreg_lt, AreOverlapping.
  rewrite Hd, Ht, Nat.eqb_refl, Z.eqb_refl, Z.ltb_irrefl. reflexivity.
Qed.

Lemma AreOverlapping_sym
      (context_lt : TIRDeviceValueContext -> TIRDeviceValueContext -> bool)
      (x y : TVirtualRegister) :
  AreOverlapping context_lt x y = AreOverlapping context_lt y x.
Proof.
  unfold AreOverlapping.
  rewrite (Nat.eqb_sym (Device x)), (Z.eqb_sym (RegType x)).
  destruct (_ && _); [apply andb_comm | reflexivity].
Qed.

(** X9: a register linkage keeps its registers apart.  The registers of a
    linkage being of one device and type, distinct objects and pairwise not
    overlapping, AssociateWith(vreg) throws exactly when vreg, of the same
    device and type and not yet linked, overlaps (AreOverlapping) one of
    them; when it returns, the linkage holds vreg and the registers it had,
    nothing else, and these are again of one device and type, distinct and
    pairwise not overlapping. *)
Theorem AssociateWith_keeps_registers_apart
        (context_lt : TIRDeviceValueContext -> TIRDeviceValueContext -> bool)
        (vreg : TVirtualRegister) (mb : TMemoryBlockObject)
        (regs : list TVirtualRegister) :
  ExternalLinkage mb = Some (TVirtualRegisterLinkage regs) ->
  linkage_ok context_lt regs ->
  (AssociateWith context_lt vreg mb = Throw <->
   (forall x, In x regs -> Device x = Device vreg /\ RegType x = RegType vreg)
   /\ ~ In (Self vreg) (map Self regs)
   /\ exists x, In x regs /\ AreOverlapping context_lt x vreg = true)
  /\ (forall mb',
         AssociateWith context_lt vreg mb = Return mb' ->
         exists regs',
           ExternalLinkage mb' = Some (TVirtualRegisterLinkage regs')
           /\ Permutation regs' (vreg :: regs)
           /\ linkage_ok context_lt regs').
Proof.
  intros Hlink (Hne & Huni & Hnodup & Hapart).
  destruct regs as [| first regs]; [contradiction |].
  assert (Hrun : AssociateWith context_lt vreg mb
                 = (regs' <- LinkWith context_lt vreg (first :: regs) ;;
                    Return (set_ExternalLinkage
                              (TVirtualRegisterLinkage regs') mb))).
  { destruct mb as [b l]. cbn [ExternalLinkage] in Hlink. subst l. reflexivity. }
  rewrite Hrun. unfold LinkWith. cbn [AssociatedVirtualRegister bind].
  assert (Hall : Device first = Device vreg /\ RegType first = RegType vreg ->
                 forall x, In x (first :: regs) ->
                           Device x = Device vreg /\ RegType x = RegType vreg).
  { intros [Hd Ht] x Hx.
    destruct (Huni x first Hx (or_introl eq_refl)) as [Hd' Ht'].
    split; congruence. }
  destruct (Nat.eqb_spec (Device first) (Device vreg)) as [Hd | Hd];
    cbn [assert bind].
  2: { split; [split; [discriminate |] | discriminate].
       intros (H & _). destruct (H first (or_introl eq_refl)). contradiction. }
  destruct (Z.eqb_spec (RegType first) (RegType vreg)) as [Ht | Ht];
    cbn [assert bind].
  2: { split; [split; [discriminate |] | discriminate].
       intros (H & _). destruct (H first (or_introl eq_refl)). contradiction. }
  specialize (Hall (conj Hd Ht)).
  destruct (LinkageHas vreg (first :: regs)) eqn:Hhas; cbn [negb assert bind].
  { split; [split; [discriminate |] | discriminate].
    intros (_ & H & _). apply LinkageHas_false in H. congruence. }
  apply LinkageHas_false in Hhas.
  destruct (set_find (vreg_lt context_lt) vreg (first :: regs)) as [other |]
    eqn:Hfind; cbn [bind].
  - split; [| discriminate]. split; [| reflexivity]. intros _.
    split; [exact Hall |]. split; [exact Hhas |].
    destruct (proj1 (set_find_Some (vreg_lt context_lt) vreg (first :: regs))
                    (ex_intro _ other Hfind)) as (x & Hx & E).
    exists x. split; [exact Hx |].
    rewrite <- equiv_AreOverlapping by (apply Hall; exact Hx). exact E.
  - split.
    { split; [discriminate |]. intros (_ & _ & x & Hx & E).
      rewrite <- equiv_AreOverlapping in E by (apply Hall; exact Hx).
      rewrite set_find_None in Hfind. rewrite (Hfind x Hx) in E. discriminate. }
    intros mb' Hret.
    pose proof (set_insert_Permutation _ _ _ Hfind) as Hperm.
    change (set_insert (vreg_lt context_lt) vreg (first :: regs))
      with (LinkWithImpl context_lt vreg (first :: regs)) in Hperm.
    set (regs' := LinkWithImpl context_lt vreg (first :: regs)) in *.
    injection Hret as <-. exists regs'. split; [reflexivity |].
    split; [exact Hperm |].
    assert (Hin : forall x, In x regs' <-> x = vreg \/ In x (first :: regs)).
    { intros x. split; intros H.
      - apply (Permutation_in _ Hperm) in H. destruct H; [left | right]; auto.
      - apply (Permutation_in _ (Permutation_sym Hperm)).
        destruct H; [left | right]; auto. }
    rewrite set_find_None in Hfind.
    split; [| split; [| split]].
    + intros E.
      assert (Hv : In vreg regs') by (apply Hin; now left).
      rewrite E in Hv. contradiction.
    + intros x y Hx Hy. apply Hin in Hx, Hy.
      destruct Hx as [-> | Hx], Hy as [-> | Hy].
      * split; reflexivity.
      * destruct (Hall y Hy). split; congruence.
      * exact (Hall x Hx).
      * exact (Huni x y Hx Hy).
    + apply (Permutation_NoDup (Permutation_sym (Permutation_map Self Hperm))).
      cbn [map]. constructor; assumption.
    + intros x y Hx Hy Hxy. apply Hin in Hx, Hy.
      destruct Hx as [-> | Hx], Hy as [-> | Hy].
      * contradiction.
      * rewrite AreOverlapping_sym.
        rewrite <- equiv_AreOverlapping by (apply Hall; exact Hy).
        exact (Hfind y Hy).
      * rewrite <- equiv_AreOverlapping by (apply Hall; exact Hx).
        exact (Hfind x Hx).
      * exact (Hapart x y Hx Hy Hxy).
Qed.

Lemma linkage_ok_single
      (context_lt : TIRDeviceValueContext -> TIRDeviceValueContext -> bool)
      (v : TVirtualRegister) :
  linkage_ok context_lt [v].
Proof.
  split; [discriminate |]. split; [| split].
  - intros x y [<- | []] [<- | []]. split; reflexivity.
  - repeat constructor. intros [].
  - intros x y [<- | []] [<- | []] H. contradiction.
Qed.

Lemma AssociateWith_keeps_registers_apart_witness :
  AssociateWith position_lt (sample_register 2%nat 100 false 4 12)
    {| Block := block 100;
       ExternalLinkage :=
         Some (TVirtualRegisterLinkage [sample_register 1%nat 100 true 0 8]) |}
  = Throw.
Proof.
  apply (@AssociateWith_keeps_registers_apart position_lt
           (sample_register 2%nat 100 false 4 12)
           {| Block := block 100;
              ExternalLinkage :=
                Some (TVirtualRegisterLinkage
                        [sample_register 1%nat 100 true 0 8]) |}
           [sample_register 1%nat 100 true 0 8] eq_refl
           (linkage_ok_single position_lt _)).
  split; [| split].
  - intros x [<- | []]. split; reflexivity.
  - cbn. intros [H | []]. discriminate H.
  - exists (sample_register 1%nat 100 true 0 8). split; [now left | reflexivity].
Defined.

Lemma set_count_same_device
      (context_lt : TIRDeviceValueContext -> TIRDeviceValueContext -> bool)
      (w : TVirtualRegister) (regs : list TVirtualRegister) :
  (forall y, In y regs -> Device y = Device w) ->
  set_count context_lt w regs
  = Return (existsb (fun y => equiv (vreg_lt context_lt) y w) regs).
Proof.
  induction regs as [| y regs IH]; intros Hdev; cbn [set_count existsb];
    [reflexivity |].
  unfold vreg_lt_asserted.
  rewrite (Hdev y (or_introl eq_refl)), Nat.eqb_refl. cbn [assert bind].
  unfold equiv at 1.
  destruct (negb (vreg_lt context_lt y w) && negb (vreg_lt context_lt w y));
    [reflexivity |].
  cbn [orb]. apply IH. intros z Hz. apply Hdev. now right.
Qed.

Lemma set_count_other_device
      (context_lt : TIRDeviceValueContext -> TIRDeviceValueContext -> bool)
      (w : TVirtualRegister) (regs : list TVirtualRegister) :
  regs <> [] ->
  (forall y, In y regs -> Device y <> Device w) ->
  set_count context_lt w regs = Aborted.
Proof.
  destruct regs as [| y regs]; [contradiction |]. intros _ Hdev.
  cbn [set_count]. unfold vreg_lt_asserted.
  specialize (Hdev y (or_introl eq_refl)).
  apply Nat.eqb_neq in Hdev. rewrite Hdev. reflexivity.
Qed.

(** X10: what is associated stays associated.  On a block whose linked
    registers are of one device, when AssociateWith(vreg) returns, the linked
    registers are of one device again, that of vreg; IsAssociatedWith(vreg)
    is true on the block (the order of value contexts being irreflexive at
    vreg); every register for which IsAssociatedWith was true before is
    still associated; and IsAssociatedWith of a register of another device
    fails the assertion of operator<. *)
Theorem IsAssociatedWith_after_AssociateWith
        (context_lt : TIRDeviceValueContext -> TIRDeviceValueContext -> bool)
        (vreg : TVirtualRegister) (mb mb' : TMemoryBlockObject) :
  context_lt (GetValueContext vreg) (GetValueContext vreg) = false ->
  one_device mb ->
  AssociateWith context_lt vreg mb = Return mb' ->
  one_device mb'
  /\ IsAssociatedWith context_lt vreg mb' = Return true
  /\ (forall w,
        IsAssociatedWith context_lt w mb = Return true ->
        IsAssociatedWith context_lt w mb' = Return true)
  /\ (forall w,
        Device w <> Device vreg ->
        IsAssociatedWith context_lt w mb' = Aborted).
Proof.
  intros Hirr Hone Hrun.
  assert (Hself : equiv (vreg_lt context_lt) vreg vreg = true).
  { unfold equiv, vreg_lt. now rewrite Z.ltb_irrefl, Z.eqb_refl, Hirr. }
  (* what holds of a linkage whose registers are of the device of vreg *)
  assert (Hlinked : forall b regs,
             In vreg regs ->
             (forall y, In y regs -> Device y = Device vreg) ->
             let mb' := {| Block := b;
                           ExternalLinkage :=
                             Some (TVirtualRegisterLinkage regs) |} in
             one_device mb'
             /\ IsAssociatedWith context_lt vreg mb' = Return true
             /\ (forall w,
                   Device w = Device vreg ->
                   (exists y, In y regs
                              /\ equiv (vreg_lt context_lt) y w = true) ->
                   IsAssociatedWith context_lt w mb' = Return true)
             /\ (forall w,
                   Device w <> Device vreg ->
                   IsAssociatedWith context_lt w mb' = Aborted)).
  { intros b regs Hin Hdev mb0.
    assert (Hne : negb (Nat.eqb (List.length regs) 0) = true)
      by (destruct regs; [contradiction | reflexivity]).
    assert (Hfound : forall w,
               Device w = Device vreg ->
               (exists y, In y regs
                          /\ equiv (vreg_lt context_lt) y w = true) ->
               IsAssociatedWith context_lt w mb0 = Return true).
    { intros w Hw (y & Hy & E).
      unfold IsAssociatedWith, IsLinkedWith. cbn [mb0 ExternalLinkage].
      rewrite Hne. cbn [assert bind].
      rewrite set_count_same_device
        by (intros z Hz; rewrite Hw; now apply Hdev).
      f_equal. apply existsb_exists. now exists y. }
    split; [| split; [| split]].
    - intros regs0 [= <-] x y Hx Hy.
      now rewrite (Hdev x Hx), (Hdev y Hy).
    - apply Hfound; [reflexivity |]. now exists vreg.
    - exact Hfound.
    - intros w Hw.
      unfold IsAssociatedWith, IsLinkedWith. cbn [mb0 ExternalLinkage].
      rewrite Hne. cbn [assert bind].
      apply set_count_other_device.
      + intros ->. contradiction.
      + intros y Hy E. apply Hw. rewrite <- E. now apply Hdev. }
  destruct mb as [b [[d | regs] |]];
    unfold AssociateWith, InitExternalLinkage_vreg in Hrun;
    cbn [ExternalLinkage] in Hrun.
  - injection Hrun as <-.
    destruct (Hlinked b [vreg] (or_introl eq_refl)) as (H1 & H2 & _ & H4).
    { intros y [<- | []]. reflexivity. }
    split; [exact H1 |]. split; [exact H2 |]. split; [| exact H4].
    intros w Hw. discriminate Hw.
  - destruct (LinkWith context_lt vreg regs) as [regs' | |] eqn:Hlink;
      cbn [bind] in Hrun; try discriminate.
    injection Hrun as <-.
    unfold LinkWith in Hlink.
    destruct regs as [| first regs0]; [discriminate |].
    cbn [AssociatedVirtualRegister bind] in Hlink.
    destruct (Nat.eqb (Device first) (Device vreg)) eqn:Hdevice;
      cbn [assert bind] in Hlink; try discriminate.
    apply Nat.eqb_eq in Hdevice.
    destruct (RegType first =? RegType vreg);
      cbn [assert bind] in Hlink; try discriminate.
    destruct (negb (LinkageHas vreg (first :: regs0)));
      cbn [assert bind] in Hlink; try discriminate.
    destruct (set_find (vreg_lt context_lt) vreg (first :: regs0)) eqn:Hfind;
      try discriminate.
    injection Hlink as <-. unfold LinkWithImpl.
    cbn [set_ExternalLinkage Block ExternalLinkage].
    assert (Hold : forall y, In y (first :: regs0) -> Device y = Device vreg).
    { intros y Hy. rewrite <- Hdevice.
      apply (Hone (first :: regs0) eq_refl); [exact Hy | now left]. }
    destruct (Hlinked b (set_insert (vreg_lt context_lt) vreg (first :: regs0)))
      as (H1 & H2 & H3 & H4).
    { apply (set_insert_In _ _ _ Hfind). now left. }
    { intros y Hy. apply (set_insert_In _ _ _ Hfind) in Hy.
      destruct Hy as [-> | Hy]; [reflexivity | now apply Hold]. }
    split; [exact H1 |]. split; [exact H2 |]. split; [| exact H4].
    intros w Hw.
    unfold IsAssociatedWith, IsLinkedWith in Hw.
    cbn [ExternalLinkage List.length Nat.eqb negb assert bind] in Hw.
    destruct (Nat.eq_dec (Device w) (Device vreg)) as [Hsame | Hother].
    + rewrite set_count_same_device in Hw
        by (intros z Hz; rewrite Hsame; now apply Hold).
      injection Hw as Hw.
      change (existsb (fun y => equiv (vreg_lt context_lt) y w)
                      (first :: regs0) = true) in Hw.
      apply existsb_exists in Hw. destruct Hw as (y & Hy & E).
      apply H3; [exact Hsame |].
      exists y. split; [now apply set_insert_keeps | exact E].
    + rewrite set_count_other_device in Hw; [discriminate | discriminate |].
      intros y Hy E. apply Hother. rewrite <- E. now apply Hold.
  - injection Hrun as <-.
    destruct (Hlinked b [vreg] (or_introl eq_refl)) as (H1 & H2 & _ & H4).
    { intros y [<- | []]. reflexivity. }
    split; [exact H1 |]. split; [exact H2 |]. split; [| exact H4].
    intros w Hw. discriminate Hw.
Qed.

Lemma IsAssociatedWith_after_AssociateWith_witness :
  let mb' :=
    {| Block := block 100;
       ExternalLinkage :=
         Some (TVirtualRegisterLinkage
                 [sample_register 1%nat 100 false 0 16]) |} in
  IsAssociatedWith position_lt (sample_register 1%nat 100 false 0 16) mb'
  = Return true
  /\ IsAssociatedWith position_lt foreign_register mb' = Aborted.
Proof.
  intros mb'.
  destruct (@IsAssociatedWith_after_AssociateWith position_lt
              (sample_register 1%nat 100 false 0 16)
              {| Block := block 100;
                 ExternalLinkage := Some (TSerialDeviceLinkage 0%nat) |}
              mb' eq_refl)
    as (_ & Hself & _ & Hforeign).
  - intros regs H. discriminate H.
  - reflexivity.
  - split; [exact Hself |]. apply Hforeign. discriminate.
Defined.

Lemma AnyOf_set_insert (A : Type) (lt : A -> A -> bool) (p : A -> result bool)
      (x : A) (b : bool) (l : list A) :
  p x = Return b ->
  AnyOf l p = Return true ->
  AnyOf (set_insert lt x l) p = Return true.
Proof.
  intros Hx. induction l as [| y l IH]; intros H; cbn in H; [discriminate |].
  cbn [set_insert].
  destruct (lt x y).
  - cbn [AnyOf]. rewrite Hx. cbn [bind]. destruct b; [reflexivity |].
    exact H.
  - destruct (lt y x); [| exact H].
    cbn [AnyOf]. destruct (p y) as [[|] | |]; cbn [bind] in *;
      try discriminate; [reflexivity | now apply IH].
Qed.

(** X11: a block that needs caching keeps needing it.  If NeedsCaching() is
    true on a block and AssociateWith(vreg) returns for a register that is
    bound to the block, NeedsCaching() is true afterwards: linking more
    registers never takes the need for a cache away. *)
Theorem NeedsCaching_stays
        (context_lt : TIRDeviceValueContext -> TIRDeviceValueContext -> bool)
        (vreg : TVirtualRegister) (mb mb' : TMemoryBlockObject)
        (bindInfo : TIRBindInfo) :
  NeedsCaching mb = Return true ->
  GetMemoryBlockBindInfo (Block mb) vreg = Return bindInfo ->
  AssociateWith context_lt vreg mb = Return mb' ->
  NeedsCaching mb' = Return true.
Proof.
  intros Hneeds Hbound Hrun.
  destruct mb as [b [[d | regs] |]]; cbn [NeedsCaching ExternalLinkage] in Hneeds;
    try discriminate.
  unfold NeedsCaching in Hneeds. cbn [ExternalLinkage Block] in *.
  unfold AssociateWith, InitExternalLinkage_vreg in Hrun;
    cbn [ExternalLinkage] in Hrun.
  destruct (LinkWith context_lt vreg regs) as [regs' | |] eqn:Hlink;
    cbn [bind] in Hrun; try discriminate.
  injection Hrun as <-.
  unfold LinkWith in Hlink.
  destruct (AssociatedVirtualRegister regs) as [first | |];
    cbn [bind] in Hlink; try discriminate.
  destruct (Nat.eqb (Device first) (Device vreg));
    cbn [assert bind] in Hlink; try discriminate.
  destruct (RegType first =? RegType vreg);
    cbn [assert bind] in Hlink; try discriminate.
  destruct (negb (LinkageHas vreg regs));
    cbn [assert bind] in Hlink; try discriminate.
  destruct (set_find (vreg_lt context_lt) vreg regs) eqn:Hfind;
    try discriminate.
  injection Hlink as <-.
  unfold NeedsCaching. cbn [ExternalLinkage set_ExternalLinkage Block].
  unfold Linkage_NeedsCaching in *.
  assert (Hne : negb (Nat.eqb (List.length (LinkWithImpl context_lt vreg regs)) 0)
                = true).
  { assert (Hin : In vreg (LinkWithImpl context_lt vreg regs))
      by (apply (set_insert_In _ _ _ Hfind); now left).
    destruct (LinkWithImpl context_lt vreg regs); [contradiction | reflexivity]. }
  rewrite Hne. cbn [assert bind].
  destruct (negb (Nat.eqb (List.length regs) 0)); cbn [assert bind] in Hneeds;
    try discriminate.
  unfold LinkWithImpl.
  eapply AnyOf_set_insert; [| exact Hneeds].
  rewrite Hbound. cbn [bind]. reflexivity.
Qed.

Lemma NeedsCaching_stays_witness :
  NeedsCaching
    {| Block := block 100;
       ExternalLinkage :=
         Some (TVirtualRegisterLinkage
                 [sample_register 1%nat 100 false 0 8;
                  sample_register 2%nat 100 true 8 16]) |}
  = Return true.
Proof.
  exact (@NeedsCaching_stays position_lt
           (sample_register 2%nat 100 true 8 16)
           {| Block := block 100;
              ExternalLinkage :=
                Some (TVirtualRegisterLinkage
                        [sample_register 1%nat 100 false 0 8]) |}
           _ {| BitStart := 8; BitEnd := 16 |} eq_refl eq_refl eq_refl).
Defined.

(** ** Memory blocks: the cache *)

(** X12: a cache is assigned once, and only where it is needed.
    AssignCache fails its assertions on a block that does not need caching
    and on a block that has a cache; when it returns for a cache that is not
    null, GetCache gives that cache back and every further AssignCache
    fails.  On a block that needs caching and has no cache yet, GetCache
    fails its assertion. *)
Theorem AssignCache_once (cache : nat) (mb : TCachedMemoryBlock) :
  cache <> 0%nat ->
  (NeedsCaching (Object mb) = Return false -> AssignCache cache mb = Aborted)
  /\ (Cache mb <> 0%nat -> NeedsCaching (Object mb) = Return true ->
      AssignCache cache mb = Aborted)
  /\ (Cache mb = 0%nat -> NeedsCaching (Object mb) = Return true ->
      GetCache mb = Aborted
      /\ exists mb',
           AssignCache cache mb = Return mb'
           /\ Object mb' = Object mb
           /\ GetCache mb' = Return cache
           /\ forall other, AssignCache other mb' = Aborted).
Proof.
  intros Hcache. unfold AssignCache, GetCache.
  split; [intros ->; reflexivity |].
  split.
  - intros Hc ->. cbn [bind assert]. apply Nat.eqb_neq in Hc. now rewrite Hc.
  - intros Hc Hn. rewrite Hn, Hc. cbn. split; [reflexivity |].
    eexists. split; [reflexivity |]. cbn [Object Cache]. rewrite Hn.
    cbn [bind assert].
    apply Nat.eqb_neq in Hcache. rewrite Hcache. cbn.
    repeat split.
Qed.

Lemma AssignCache_once_witness :
  let mb :=
    {| Object :=
         {| Block := block 100;
            ExternalLinkage :=
              Some (TVirtualRegisterLinkage
                      [sample_register 1%nat 100 false 0 8]) |};
       Cache := 0%nat |} in
  exists mb',
    AssignCache 4096 mb = Return mb' /\ GetCache mb' = Return 4096%nat.
Proof.
  intros mb.
  assert (Hcache : 4096%nat <> 0%nat) by discriminate.
  destruct (@AssignCache_once 4096 mb Hcache) as (_ & _ & H).
  destruct (H eq_refl eq_refl) as (_ & mb' & Hrun & _ & Hget & _).
  exists mb'. split; assumption.
Defined.

(** ** Query sets per poll interval *)

Lemma map_find_store (V : Type) (key key' : Z) (value : list V)
      (m : TRegistersByInterval V) :
  map_find key' (map_store key value m)
  = if key' =? key then Some value else map_find key' m.
Proof.
  induction m as [| [k v] m IH]; cbn [map_store map_find].
  - rewrite (Z.eqb_sym key key'). reflexivity.
  - destruct (Z.eqb_spec k key) as [-> | Hk]; cbn [map_find]; rewrite ?IH;
      destruct (Z.eqb_spec key' key) as [-> | Hk'];
      rewrite ?Z.eqb_refl; try reflexivity.
    + destruct (Z.eqb_spec key key'); [congruence | reflexivity].
    + destruct (Z.eqb_spec k key); [congruence | reflexivity].
Qed.

Lemma first_seen_In (l : list Z) (i : Z) : In i (first_seen l) <-> In i l.
Proof.
  induction l as [| j l IH]; cbn [first_seen In]; [tauto |].
  rewrite filter_In, IH, negb_true_iff, Z.eqb_neq.
  destruct (Z.eq_dec j i); intuition congruence.
Qed.

Lemma first_seen_snoc (l : list Z) (i : Z) :
  first_seen (l ++ [i])
  = if existsb (fun j => j =? i) l then first_seen l else first_seen l ++ [i].
Proof.
  induction l as [| j l IH]; cbn [app first_seen existsb]; [reflexivity |].
  rewrite IH. destruct (Z.eqb_spec j i) as [-> | Hj]; cbn [orb].
  - destruct (existsb (fun j => j =? i) l); [reflexivity |].
    rewrite filter_app. cbn [filter]. rewrite Z.eqb_refl. cbn [negb].
    now rewrite app_nil_r.
  - destruct (existsb (fun j => j =? i) l); [reflexivity |].
    rewrite filter_app. cbn [filter].
    replace (i =? j) with false by (symmetry; apply Z.eqb_neq; congruence).
    reflexivity.
Qed.

Lemma first_seen_NoDup (l : list Z) : NoDup (first_seen l).
Proof.
  induction l as [| j l IH]; cbn [first_seen]; constructor.
  - rewrite filter_In, Z.eqb_refl. intros [_ H]. discriminate H.
  - now apply NoDup_filter.
Qed.

(** After the first loop has run over [registers]: the intervals seen, in
    the order of their first occurrence, and for each of them its
    registers, in input order. *)
Lemma collect_register_spec (V : Type) (PollInterval : V -> Z)
      (registers : list V) :
  let state := fold_left (collect_register PollInterval) registers ([], []) in
  snd state = first_seen (map PollInterval registers)
  /\ forall i,
       map_find i (fst state)
       = if existsb (fun j => j =? i) (map PollInterval registers)
         then Some (filter (fun v => PollInterval v =? i) registers)
         else None.
Proof.
  induction registers as [| v registers IH] using rev_ind.
  - split; [reflexivity | intros i; reflexivity].
  - cbv zeta in *. rewrite fold_left_app. cbn [fold_left].
    destruct (fold_left (collect_register PollInterval) registers ([], []))
      as [m intervals].
    cbn [fst snd] in IH. destruct IH as [Hint Hmap].
    unfold collect_register. cbn [fst snd].
    rewrite map_app. cbn [map]. rewrite first_seen_snoc.
    pose proof (Hmap (PollInterval v)) as Hv.
    split.
    + rewrite Hv.
      destruct (existsb (fun j => j =? PollInterval v)
                        (map PollInterval registers)) eqn:E.
      * apply existsb_exists in E. destruct E as (j & Hj & E).
        apply Z.eqb_eq in E. subst j.
        apply in_map_iff in Hj. destruct Hj as (w & Hw & Hin).
        assert (Hf : In w (filter (fun v0 => PollInterval v0 =? PollInterval v)
                                  registers))
          by (apply filter_In; split; [exact Hin | now apply Z.eqb_eq]).
        destruct (filter (fun v0 => PollInterval v0 =? PollInterval v) registers);
          [contradiction | exact Hint].
      * now rewrite Hint.
    + intros i. rewrite map_find_store, existsb_app, filter_app.
      cbn [existsb filter]. rewrite orb_false_r.
      rewrite (Z.eqb_sym i).
      destruct (Z.eqb_spec (PollInterval v) i) as [<- | Hi].
      * rewrite orb_true_r. rewrite Hv.
        destruct (existsb _ _) eqn:E; [reflexivity |].
        f_equal. cbn [app]. f_equal.
        rewrite <- (app_nil_l [v]) at 2. f_equal.
        destruct (filter (fun v0 => PollInterval v0 =? PollInterval v) registers)
          as [| w ws] eqn:F; [reflexivity |].
        assert (Hw : In w (w :: ws)) by now left.
        rewrite <- F in Hw. apply filter_In in Hw. destruct Hw as [Hin Hw].
        apply Z.eqb_eq in Hw.
        assert (E' : existsb (fun j => j =? PollInterval v)
                             (map PollInterval registers) = true).
        { apply existsb_exists. exists (PollInterval w).
          split; [now apply in_map | now apply Z.eqb_eq]. }
        congruence.
      * rewrite orb_false_r, app_nil_r. apply Hmap.
Qed.

Lemma make_query_sets_outcome (V Q : Type)
      (MakeQuerySet : list V -> EQueryOperation -> result Q)
      (m : TRegistersByInterval V) (operation : EQueryOperation)
      (registers_of : Z -> list V) :
  forall intervals,
    (forall i, In i intervals -> map_find i m = Some (registers_of i)) ->
    ((forall i, In i intervals ->
                exists q, MakeQuerySet (registers_of i) operation = Return q) ->
     exists sets,
       make_query_sets MakeQuerySet m intervals operation = Return sets
       /\ Forall2 (fun i e =>
                     fst e = i
                     /\ MakeQuerySet (registers_of i) operation
                        = Return (snd e))
                  intervals sets)
    /\ (forall pre i post,
          intervals = pre ++ i :: post ->
          (forall j, In j pre ->
                     exists q, MakeQuerySet (registers_of j) operation
                               = Return q) ->
          (MakeQuerySet (registers_of i) operation = Throw ->
           make_query_sets MakeQuerySet m intervals operation = Throw)
          /\ (MakeQuerySet (registers_of i) operation = Aborted ->
              make_query_sets MakeQuerySet m intervals operation = Aborted)).
Proof.
  induction intervals as [| k intervals IH]; intros Hmap.
  - split.
    + intros _. exists []. split; [reflexivity | constructor].
    + intros pre i post Heq. destruct pre; discriminate Heq.
  - cbn [make_query_sets]. rewrite (Hmap k (or_introl eq_refl)).
    destruct IH as [IHr IHf]; [intros i Hi; apply Hmap; now right |].
    split.
    + intros Hall. destruct (Hall k (or_introl eq_refl)) as (q & Hq).
      rewrite Hq. cbn [bind].
      destruct IHr as (sets & Hsets & HF);
        [intros i Hi; apply Hall; now right |].
      rewrite Hsets. cbn [bind]. eexists. split; [reflexivity |].
      constructor; [split; [reflexivity | exact Hq] | exact HF].
    + intros pre i post Heq Hpre.
      destruct pre as [| p pre]; cbn [app] in Heq; injection Heq as Hk Hrest.
      * subst k. split; intros H; rewrite H; reflexivity.
      * subst k. destruct (Hpre p (or_introl eq_refl)) as (q & Hq).
        rewrite Hq. cbn [bind].
        destruct (IHf pre i post Hrest) as [Ht Ha];
          [intros j Hj; apply Hpre; now right |].
        split; intros H; [rewrite (Ht H) | rewrite (Ha H)]; reflexivity.
Qed.

(** X13: the query sets follow the first-seen order of the poll intervals.
    GenerateQuerySets makes one query set per distinct poll interval of the
    input, in the order in which the intervals first occur, each from the
    registers of that interval in input order.  When the constructor returns
    for every interval, GenerateQuerySets returns these query sets under
    their intervals, in that order, without failing its assertion; when the
    constructor throws (or fails an assertion) at an interval and has
    returned at the intervals before it, GenerateQuerySets ends in that
    exception (or failure). *)
Theorem GenerateQuerySets_order
        (V Q : Type) (PollInterval : V -> Z)
        (MakeQuerySet : list V -> EQueryOperation -> result Q)
        (virtualRegisters : list V) (operation : EQueryOperation) :
  let intervals := first_seen (map PollInterval virtualRegisters) in
  let made := fun i =>
                MakeQuerySet
                  (filter (fun v => PollInterval v =? i) virtualRegisters)
                  operation in
  let generated :=
    GenerateQuerySets PollInterval MakeQuerySet virtualRegisters operation in
  NoDup intervals
  /\ (forall v, In v virtualRegisters -> In (PollInterval v) intervals)
  /\ ((forall i, In i intervals -> exists q, made i = Return q) ->
      exists sets,
        generated = Return sets
        /\ Forall2 (fun i e => fst e = i /\ made i = Return (snd e))
                   intervals sets)
  /\ (forall pre i post,
        intervals = pre ++ i :: post ->
        (forall j, In j pre -> exists q, made j = Return q) ->
        (made i = Throw -> generated = Throw)
        /\ (made i = Aborted -> generated = Aborted)).
Proof.
  intros intervals made generated.
  split; [apply first_seen_NoDup |].
  split; [intros v Hv; apply first_seen_In; now apply in_map |].
  subst generated. unfold GenerateQuerySets.
  destruct (collect_register_spec PollInterval virtualRegisters)
    as [Hint Hmap].
  destruct (fold_left (collect_register PollInterval) virtualRegisters ([], []))
    as [m seen].
  cbn [fst snd] in Hint, Hmap. subst seen. fold intervals.
  apply (@make_query_sets_outcome V Q MakeQuerySet m operation
           (fun i => filter (fun v => PollInterval v =? i) virtualRegisters)).
  intros i Hi. rewrite Hmap.
  replace (existsb (fun j => j =? i) (map PollInterval virtualRegisters))
    with true; [reflexivity |].
  symmetry. apply existsb_exists. exists i.
  split; [now apply first_seen_In | apply Z.eqb_refl].
Qed.

Lemma GenerateQuerySets_order_witness :
  GenerateQuerySets (fun v => v / 10) sample_query_set [1; 11; 2] Read = Throw
  /\ GenerateQuerySets (fun v => v / 10) sample_query_set [1; 21; 2] Read
     = Return [(0, [1; 2]); (2, [21])].
Proof.
  destruct (@GenerateQuerySets_order Z (list Z) (fun v => v / 10)
              sample_query_set [1; 11; 2] Read)
    as (_ & _ & _ & Hfails).
  destruct (@GenerateQuerySets_order Z (list Z) (fun v => v / 10)
              sample_query_set [1; 21; 2] Read)
    as (_ & _ & Hreturns & _).
  split.
  - apply (Hfails [0] 1 []); [reflexivity | | reflexivity].
    intros j [<- | []]. eexists. reflexivity.
  - destruct Hreturns as (sets & Hrun & _).
    + intros i [<- | [<- | []]]; eexists; reflexivity.
    + rewrite Hrun. f_equal.
      assert (E : GenerateQuerySets (fun v => v / 10) sample_query_set
                                    [1; 21; 2] Read
                  = Return [(0, [1; 2]); (2, [21])])
        by (vm_compute; reflexivity).
      rewrite E in Hrun. now injection Hrun.
Defined.

(** X14: for a Write operation and protocol values that are non-negative
    ints, max_regs is max_write_bits for a single-bit type and
    max_write_registers otherwise, whatever device.max_read_registers is;
    max_hole is as for reads. *)
Theorem getMaxHoleAndRegs_write
        (deviceConfig : TDeviceConfig) (protocolInfo : TProtocolInfo)
        (policy : EQueryGenerationPolicy) (type : TMemoryBlockType) :
  nonneg_int (MaxBitHole deviceConfig) ->
  nonneg_int (MaxRegHole deviceConfig) ->
  nonneg_int (GetMaxWriteBits protocolInfo) ->
  nonneg_int (GetMaxWriteRegisters protocolInfo) ->
  let single_bit := IsSingleBitType protocolInfo type in
  getMaxHoleAndRegs deviceConfig protocolInfo Write policy type
  = (match policy with
     | Minify => if single_bit then MaxBitHole deviceConfig
                 else MaxRegHole deviceConfig
     | NoDuplicates => 0
     end,
     if single_bit then GetMaxWriteBits protocolInfo
     else GetMaxWriteRegisters protocolInfo).
Proof.
  intros Hbit Hreg Hwb Hwr single_bit.
  unfold nonneg_int in *.
  unfold getMaxHoleAndRegs. cbn [IsReadOperation]. fold single_bit.
  f_equal.
  - destruct policy; cbn [policy_eqb];
      [destruct single_bit |]; apply to_uint32_small; lia.
  - destruct single_bit; apply to_uint32_small; lia.
Qed.

Lemma getMaxHoleAndRegs_write_witness :
  let deviceConfig :=
    {| MaxBitHole := 8; MaxRegHole := 2; MaxReadRegisters := 10 |} in
  let protocolInfo :=
    {| IsSingleBitType := fun t => Index t =? 1;
       GetMaxReadBits := 2000; GetMaxReadRegisters := 125;
       GetMaxWriteBits := 1968; GetMaxWriteRegisters := 123 |} in
  getMaxHoleAndRegs deviceConfig protocolInfo Write Minify holding = (2, 123).
Proof.
  intros deviceConfig protocolInfo.
  apply (@getMaxHoleAndRegs_write deviceConfig protocolInfo Minify holding);
    unfold nonneg_int; cbn; lia.
Defined.

(** ** Merging: what every policy keeps *)

Lemma mb_lt_trans (a b c : TMemoryBlock) :
  mb_lt a b = true -> mb_lt b c = true -> mb_lt a c = true.
Proof.
  unfold mb_lt.
  rewrite !orb_true_iff, !andb_true_iff, !Z.eqb_eq, !Z.ltb_lt. lia.
Qed.

Lemma set_insert_sub (A : Type) (lt : A -> A -> bool) (x : A) (l : list A) :
  forall y, In y (set_insert lt x l) -> y = x \/ In y l.
Proof.
  induction l as [| z l IH]; intros y Hy; cbn [set_insert] in Hy.
  - destruct Hy as [<- | []]. now left.
  - destruct (lt x z).
    + destruct Hy as [<- | Hy]; [now left | now right].
    + destruct (lt z x); [| now right].
      destruct Hy as [<- | Hy]; [right; now left |].
      destruct (IH y Hy); [now left | right; now right].
Qed.

Lemma set_insert_has_equiv (A : Type) (lt : A -> A -> bool) (x : A)
      (l : list A) :
  lt x x = false ->
  exists z, In z (set_insert lt x l) /\ equiv lt z x = true.
Proof.
  intros Hirr.
  assert (Hx : equiv lt x x = true) by (unfold equiv; now rewrite Hirr).
  induction l as [| y l IH]; cbn [set_insert].
  - exists x. split; [now left | exact Hx].
  - destruct (lt x y) eqn:Hxy.
    + exists x. split; [now left | exact Hx].
    + destruct (lt y x) eqn:Hyx.
      * destruct IH as (z & Hz & E). exists z. split; [now right | exact E].
      * exists y. split; [now left |]. unfold equiv. now rewrite Hxy, Hyx.
Qed.

Lemma set_insert_range_keeps (A : Type) (lt : A -> A -> bool) (l acc : list A) :
  forall y, In y acc -> In y (set_insert_range lt l acc).
Proof.
  unfold set_insert_range. revert acc.
  induction l as [| x l IH]; intros acc y Hy; cbn [fold_left]; [exact Hy |].
  apply IH. now apply set_insert_keeps.
Qed.

Lemma set_insert_range_sub (A : Type) (lt : A -> A -> bool) (l acc : list A) :
  forall y, In y (set_insert_range lt l acc) -> In y acc \/ In y l.
Proof.
  unfold set_insert_range. revert acc.
  induction l as [| x l IH]; intros acc y Hy; cbn [fold_left] in Hy;
    [now left |].
  destruct (IH _ _ Hy) as [H | H]; [| right; now right].
  destruct (set_insert_sub _ _ _ _ H) as [-> | H'];
    [right; now left | now left].
Qed.

Lemma set_insert_range_has_equiv (A : Type) (lt : A -> A -> bool)
      (l acc : list A) :
  (forall x, lt x x = false) ->
  forall x, In x l ->
            exists z, In z (set_insert_range lt l acc) /\ equiv lt z x = true.
Proof.
  intros Hirr. unfold set_insert_range. revert acc.
  induction l as [| y l IH]; intros acc x Hx; [contradiction |].
  cbn [fold_left]. destruct Hx as [-> | Hx]; [| now apply IH].
  destruct (set_insert_has_equiv lt x acc (Hirr x)) as (z & Hz & E).
  exists z. split; [| exact E].
  now apply (set_insert_range_keeps lt l (set_insert lt x acc)).
Qed.

Lemma merge_others_effect (V : Type) (condition : TPSet -> TPSet -> result bool)
      (others : list (TPSet * list V)) :
  forall current r,
    merge_others condition current others = Return r ->
    Permutation (snd (fst r) ++ List.concat (map snd (snd r)))
                (snd current ++ List.concat (map snd others))
    /\ (forall x, In x (snd current) -> In x (snd (fst r)))
    /\ (forall b, In b (fst current) -> In b (fst (fst r)))
    /\ (forall e, In e others -> In e (snd r) \/ absorbed e (fst r))
    /\ (forall e, In e (snd r) -> In e others)
    /\ (List.length (snd r) <= List.length others)%nat.
Proof.
  induction others as [| other others IH]; intros current r H;
    cbn [merge_others] in H.
  - injection H as <-. cbn [fst snd map List.concat List.length].
    repeat split; auto; intros e [].
  - destruct (condition (fst current) (fst other)) as [[|] | |];
      cbn [bind] in H; try discriminate.
    + apply IH in H. cbn [fst snd] in H.
      destruct H as (Hperm & Hregs & Hblocks & Hothers & Hrest & Hlen).
      split; [| split; [| split; [| split; [| split]]]].
      * rewrite Hperm. cbn [map List.concat]. now rewrite app_assoc.
      * intros x Hx. apply Hregs. apply in_or_app. now left.
      * intros b Hb. apply Hblocks. now apply set_insert_range_keeps.
      * intros e [<- | He]; [right | now apply Hothers].
        split.
        -- intros x Hx. apply Hregs. apply in_or_app. now right.
        -- intros b Hb.
           destruct (set_insert_range_has_equiv mb_lt (fst other) (fst current)
                       mb_lt_irrefl b Hb) as (z & Hz & E).
           exists z. split; [now apply Hblocks | exact E].
      * intros e He. right. now apply Hrest.
      * cbn [List.length]. lia.
    + destruct (merge_others condition current others) as [r' | |] eqn:E;
        cbn [bind] in H; try discriminate.
      injection H as <-. cbn [fst snd].
      destruct (IH _ _ E) as (Hperm & Hregs & Hblocks & Hothers & Hrest & Hlen).
      split; [| split; [| split; [| split; [| split]]]].
      * cbn [map List.concat].
        rewrite (Permutation_app_swap_app (snd (fst r')) (snd other)).
        rewrite Hperm.
        rewrite (Permutation_app_swap_app (snd current) (snd other)).
        reflexivity.
      * exact Hregs.
      * exact Hblocks.
      * intros e [<- | He]; [left; now left |].
        destruct (Hothers e He) as [H | H]; [left; now right | now right].
      * intros e [<- | He]; [now left | right; now apply Hrest].
      * cbn [List.length]. lia.
Qed.

Lemma merge_loop_effect (V : Type) (condition : TPSet -> TPSet -> result bool) :
  forall (n : nat) (sets out : list (TPSet * list V)),
    (List.length sets <= n)%nat ->
    merge_loop condition sets = Return out ->
    Permutation (List.concat (map snd out)) (List.concat (map snd sets))
    /\ (forall e, In e sets -> exists o, In o out /\ absorbed e o)
    /\ (List.length out <= List.length sets)%nat
    /\ (sets <> [] -> out <> []).
Proof.
  induction n as [| n IH]; intros sets out Hlen Hrun.
  - destruct sets; [| cbn in Hlen; lia].
    simp merge_loop in Hrun. injection Hrun as <-.
    repeat split; auto; intros e [].
  - destruct sets as [| current others].
    { simp merge_loop in Hrun. injection Hrun as <-.
      repeat split; auto; intros e []. }
    rewrite merge_loop_cons in Hrun.
    destruct (merge_others condition current others) as [r | |] eqn:Hothers;
      try discriminate.
    destruct (merge_loop condition (snd r)) as [rest | |] eqn:Hrest;
      cbn [bind] in Hrun; try discriminate.
    injection Hrun as <-.
    destruct (merge_others_effect _ _ _ Hothers)
      as (Hperm & Hregs & Hblocks & Habs & _ & Hl).
    assert (Hn : (List.length (snd r) <= n)%nat).
    { cbn [List.length] in Hlen. apply le_S_n in Hlen.
      exact (Nat.le_trans _ _ _ Hl Hlen). }
    destruct (IH (snd r) rest Hn Hrest) as (Hperm' & Habs' & Hl' & _).
    split; [| split; [| split]].
    + cbn [map List.concat]. rewrite Hperm'. exact Hperm.
    + intros e [<- | He].
      * exists (fst r). split; [now left |]. split; [exact Hregs |].
        intros b Hb. exists b. split; [now apply Hblocks |].
        unfold mb_equiv. now rewrite mb_lt_irrefl.
      * destruct (Habs e He) as [H | H].
        -- destruct (Habs' e H) as (o & Ho & A). exists o. split; [now right | exact A].
        -- exists (fst r). split; [now left | exact H].
    + cbn [List.length]. apply le_n_S.
      exact (Nat.le_trans _ _ _ Hl' Hl).
    + discriminate.
Qed.

(** X15: merging loses nothing and splits nothing, under either policy.
    When MergeSets returns, the registers of its entries are, all together, a
    permutation of the registers of the input; every input entry went into
    one entry of the output, which carries its registers and each of its
    blocks (that block or the block of the same type index and address); the
    output has no more entries than the input, and at least one when the
    input has one. *)
Theorem MergeSets_keeps_entries
        (V : Type) (blocks : TPSet) (typeInfo : TRegisterTypeInfo)
        (policy : EQueryGenerationPolicy) (sets out : list (TPSet * list V)) :
  MergeSets blocks sets typeInfo policy = Return out ->
  Permutation (List.concat (map snd out)) (List.concat (map snd sets))
  /\ (forall e, In e sets -> exists o, In o out /\ absorbed e o)
  /\ (List.length out <= List.length sets)%nat
  /\ (sets <> [] -> out <> []).
Proof.
  unfold MergeSets. intros Hrun.
  destruct (CheckSets blocks sets typeInfo) as [[] | |]; cbn [bind] in Hrun;
    try discriminate.
  eapply merge_loop_effect; [apply Nat.le_refl | exact Hrun].
Qed.

Lemma MergeSets_keeps_entries_witness :
  exists out,
    MergeSets sample_registry interleaved_sets no_hole_limits Minify
    = Return out
    /\ Permutation (List.concat (map snd out)) [1%nat; 2%nat; 3%nat]
    /\ (List.length out <= 3)%nat.
Proof.
  eexists. split; [vm_compute; reflexivity |].
  destruct (@MergeSets_keeps_entries nat sample_registry no_hole_limits Minify
              interleaved_sets _ eq_refl) as (Hperm & _ & Hlen & _).
  split; [exact Hperm | exact Hlen].
Defined.

(** ** Merging under Minify: the result stays within the limits *)

Lemma set_insert_ordered (x : TMemoryBlock) (s : TPSet) :
  ordered_set s -> ordered_set (set_insert mb_lt x s).
Proof.
  unfold ordered_set. induction 1 as [| y l Hs IH Hall]; cbn [set_insert].
  - repeat constructor.
  - destruct (mb_lt x y) eqn:Hxy.
    + constructor; [constructor; assumption |].
      constructor; [exact Hxy |].
      rewrite Forall_forall in *. intros z Hz.
      eapply mb_lt_trans; [exact Hxy | now apply Hall].
    + destruct (mb_lt y x) eqn:Hyx.
      * constructor; [exact IH |].
        rewrite Forall_forall in *. intros z Hz.
        destruct (set_insert_sub _ _ _ _ Hz) as [-> | Hz'];
          [exact Hyx | now apply Hall].
      * constructor; assumption.
Qed.

Lemma set_insert_range_ordered (l s : TPSet) :
  ordered_set s -> ordered_set (set_insert_range mb_lt l s).
Proof.
  unfold set_insert_range. revert s.
  induction l as [| x l IH]; intros s H; cbn [fold_left]; [exact H |].
  apply IH. now apply set_insert_ordered.
Qed.

Lemma registry_distinct (blocks : TPSet) (x y : TMemoryBlock) :
  ordered_set blocks -> In x blocks -> In y blocks ->
  mb_equiv x y = true -> x = y.
Proof.
  unfold ordered_set.
  induction 1 as [| a l Hs IH Hall]; intros Hx Hy E; [contradiction |].
  rewrite Forall_forall in Hall.
  pose proof E as E'. unfold mb_equiv in E'.
  apply andb_true_iff in E'. destruct E' as [E1 E2].
  apply negb_true_iff in E1, E2.
  destruct Hx as [Hx | Hx], Hy as [Hy | Hy].
  - congruence.
  - subst a. rewrite (Hall _ Hy) in E1. discriminate.
  - subst a. rewrite (Hall _ Hx) in E2. discriminate.
  - now apply IH.
Qed.

Lemma set_insert_range_union (blocks a b : TPSet) :
  ordered_set blocks ->
  (forall x, In x a -> In x blocks) ->
  (forall x, In x b -> In x blocks) ->
  forall y, In y (set_insert_range mb_lt b a) <-> In y a \/ In y b.
Proof.
  intros Hord Ha Hb y. split; [apply set_insert_range_sub |].
  intros [H | H]; [now apply set_insert_range_keeps |].
  destruct (set_insert_range_has_equiv mb_lt b a mb_lt_irrefl y H)
    as (z & Hz & E).
  assert (Hzy : z = y).
  { eapply registry_distinct; [exact Hord | | now apply Hb | exact E].
    destruct (set_insert_range_sub _ _ _ _ Hz); auto. }
  now subst z.
Qed.

Lemma last_cons (A : Type) (b : A) (l : list A) (d : A) :
  last (b :: l) d = last l b.
Proof.
  revert b d. induction l as [| c l IH]; intros b d; [reflexivity |].
  change (last (b :: c :: l) d) with (last (c :: l) d).
  now rewrite (IH c d), (IH c b).
Qed.

Lemma ordered_set_last (l : TPSet) :
  forall f, ordered_set (f :: l) ->
            forall y, In y (f :: l) ->
                      y = last l f \/ mb_lt y (last l f) = true.
Proof.
  unfold ordered_set.
  induction l as [| b l IH]; intros f Hord y Hy.
  - destruct Hy as [<- | []]. now left.
  - apply StronglySorted_inv in Hord. destruct Hord as [Hord Hall].
    rewrite Forall_forall in Hall. rewrite last_cons.
    destruct Hy as [<- | Hy]; [| now apply IH].
    right. apply Hall. apply last_cons_In_default.
Qed.

Lemma ordered_set_bounds (f : TMemoryBlock) (l : TPSet) :
  ordered_set (f :: l) -> uniform_type (f :: l) ->
  forall y, In y (f :: l) -> Address f <= Address y <= Address (last l f).
Proof.
  intros Hord Huni y Hy. split.
  - apply StronglySorted_inv in Hord. destruct Hord as [_ Hall].
    rewrite Forall_forall in Hall.
    destruct Hy as [<- | Hy]; [lia |].
    specialize (Hall _ Hy).
    rewrite mb_lt_same_index in Hall
      by (apply Huni; [now left | now right]).
    apply Z.ltb_lt in Hall. lia.
  - destruct (ordered_set_last Hord Hy) as [<- | Hlt]; [lia |].
    rewrite mb_lt_same_index in Hlt
      by (apply Huni; [exact Hy | apply last_cons_In_default]).
    apply Z.ltb_lt in Hlt. lia.
Qed.

Lemma check_set_within (blocks : TPSet) (typeInfo : TRegisterTypeInfo)
      (s : TPSet) :
  registry_ok blocks ->
  block_set_ok blocks s ->
  (check_set blocks typeInfo s = Return tt <-> within_limits blocks typeInfo s).
Proof.
  intros Hreg Hok.
  destruct s as [| first s']; [destruct Hok as [H _]; contradiction |].
  destruct (Z.leb_spec (Address first) (Address (last s' first))) as [Hle | Hgt].
  - destruct (@check_set_spec blocks typeInfo (first :: s') Hreg Hok Hle)
      as [[Hrun Hnot] | [Hrun Hex]]; rewrite Hrun;
      cbn [within_limits exceeds_limits] in *.
    + split; [intros _ | reflexivity].
      split; [exact Hle |].
      split; [lia |]. split; [lia |].
      assert (Hi : forall mb, In mb (first :: s') ->
                              Index (Type_ mb) = Index (Type_ first)).
      { intros mb Hmb.
        destruct (Z.eq_dec (Index (Type_ mb)) (Index (Type_ first))) as [E | E];
          [exact E |].
        exfalso. apply Hnot. right. right. left. now exists mb. }
      assert (Hs : forall mb, In mb (first :: s') -> Size mb = Size first).
      { intros mb Hmb.
        destruct (Z.eq_dec (Size mb) (Size first)) as [E | E]; [exact E |].
        exfalso. apply Hnot. right. right. right. now exists mb. }
      split; intros mb mb' Hmb Hmb'.
      * rewrite (Hi _ Hmb), (Hi _ Hmb'). reflexivity.
      * rewrite (Hs _ Hmb), (Hs _ Hmb'). reflexivity.
    + split; [discriminate |].
      intros (_ & Hg & Hw & Hut & Hus). exfalso.
      destruct Hex as [H | [H | [(mb & Hmb & H) | (mb & Hmb & H)]]];
        try lia; apply H; [apply Hut | apply Hus]; auto; now left.
  - split.
    + unfold check_set, GetType, GetMaxHoleSize_set, GetMaxHoleSize.
      cbn [set_begin set_rbegin bind].
      destruct (typeInfo (Type_ first)) as [maxHole maxRegs].
      replace (Address first <=? Address (last s' first)) with false
        by (symmetry; apply Z.leb_gt; lia).
      cbn [assert bind]. discriminate.
    + cbn [within_limits]. intros (H & _). lia.
Qed.

Lemma CheckSets_Forall (V : Type) (blocks : TPSet) (typeInfo : TRegisterTypeInfo)
      (sets : list (TPSet * list V)) :
  CheckSets blocks sets typeInfo = Return tt
  <-> forall e, In e sets -> check_set blocks typeInfo (fst e) = Return tt.
Proof.
  induction sets as [| e sets IH]; cbn [CheckSets].
  - split; [intros _ e [] | reflexivity].
  - destruct (check_set blocks typeInfo (fst e)) as [[] | |] eqn:E;
      cbn [bind].
    + rewrite IH. split.
      * intros H e' [<- | He']; [exact E | now apply H].
      * intros H e' He'. apply H. now right.
    + split; [discriminate |]. intros H.
      specialize (H e (or_introl eq_refl)). congruence.
    + split; [discriminate |]. intros H.
      specialize (H e (or_introl eq_refl)). congruence.
Qed.

Lemma mergeCondition_hull
      (blocks : TPSet) (typeInfo : TRegisterTypeInfo)
      (a_first b_first : TMemoryBlock) (a' b' : TPSet) :
  registry_ok blocks ->
  block_set_ok blocks (a_first :: a') ->
  block_set_ok blocks (b_first :: b') ->
  uniform_type (a_first :: a') ->
  uniform_type (b_first :: b') ->
  let lo := Z.min (Address a_first) (Address b_first) in
  let hi := Z.max (Address (last a' a_first)) (Address (last b' b_first)) in
  exists mergeable,
    mergeCondition blocks (a_first :: a') (b_first :: b') typeInfo
    = Return mergeable
    /\ (mergeable = true <->
        Index (Type_ a_first) = Index (Type_ b_first)
        /\ Size a_first = Size b_first
        /\ hi - lo + 1 <= snd (typeInfo (Type_ a_first))
        /\ device_gap blocks (Index (Type_ a_first)) lo hi
           <= fst (typeInfo (Type_ a_first))).
Proof.
  intros Hreg (_ & Hoa & Hina) (_ & Hob & Hinb) Hua Hub lo hi.
  set (a_last := last a' a_first) in *. set (b_last := last b' b_first) in *.
  unfold mergeCondition, GetType, GetSize.
  cbn [set_begin set_rbegin bind]. fold a_last b_last. unfold type_eqb.
  destruct (Z.eqb_spec (Index (Type_ a_first)) (Index (Type_ b_first)))
    as [Hidx | Hidx]; cbn [negb].
  2: { exists false. split; [reflexivity |].
       split; [discriminate | intros (H & _); contradiction]. }
  assert (Iaf : In a_first (a_first :: a')) by now left.
  assert (Ibf : In b_first (b_first :: b')) by now left.
  assert (Ial : In a_last (a_first :: a')) by apply last_cons_In_default.
  assert (Ibl : In b_last (b_first :: b')) by apply last_cons_In_default.
  pose proof (ordered_set_bounds Hoa Hua Iaf) as Hale.
  pose proof (ordered_set_bounds Hob Hub Ibf) as Hble.
  fold a_last in Hale. fold b_last in Hble.
  pose proof (Hua _ _ Ial Iaf) as Hial. pose proof (Hub _ _ Ibl Ibf) as Hibl.
  destruct Hreg as [Hord Hbound].
  pose proof (Hbound _ (Hina _ Iaf)) as Baf. pose proof (Hbound _ (Hina _ Ial)) as Bal.
  pose proof (Hbound _ (Hinb _ Ibf)) as Bbf. pose proof (Hbound _ (Hinb _ Ibl)) as Bbl.
  unfold nonneg_int in *.
  set (first := if mb_lt a_first b_first then a_first else b_first).
  set (last := if mb_lt b_last a_last then a_last else b_last).
  assert (Hfirst : Address first = lo
                   /\ Index (Type_ first) = Index (Type_ a_first)).
  { unfold first, lo. rewrite mb_lt_same_index by assumption.
    destruct (Z.ltb_spec (Address a_first) (Address b_first));
      split; try lia; congruence. }
  assert (Hlast : Address last = hi).
  { unfold last, hi. rewrite mb_lt_same_index by congruence.
    destruct (Z.ltb_spec (Address b_last) (Address a_last)); lia. }
  destruct Hfirst as [Hfa Hfi].
  destruct (typeInfo (Type_ a_first)) as [maxHole maxRegs]. cbn [fst snd].
  rewrite GetMaxHoleSize_device_gap; [| split; assumption | lia].
  cbn [bind]. rewrite Hfa, Hfi, Hlast.
  rewrite to_uint32_small by lia.
  eexists. split; [reflexivity |].
  rewrite !andb_true_iff, Z.eqb_eq, !Z.leb_le. tauto.
Qed.

(** ** The merge condition of the Minify policy in the loop *)

(** C2, as the code has it: under the Minify policy, the entry that the loop
    of MergeSets is growing (an input set with the sets it has absorbed so
    far) absorbs a later set iff the types of the two are equal, their block
    sizes are equal, the hull [min first address, max last address] of the
    two has a width (last - first + 1) of at most max_regs, and the largest
    gap between consecutive addresses of the blocks that the device has of
    that type within the hull is at most max_hole; otherwise the later set
    stays in the list.  The gap is the one of the registry of the device,
    not the one of the union of the two sets.  In particular a list of two
    sets that CheckSets accepts comes out as their union iff the two sets
    meet these conditions, and unchanged otherwise. *)
Theorem MergeSets_Minify_merges
        (V : Type) (blocks : TPSet) (typeInfo : TRegisterTypeInfo)
        (a_first b_first : TMemoryBlock) (a' b' : TPSet)
        (a_registers b_registers : list V) :
  registry_ok blocks ->
  block_set_ok blocks (a_first :: a') ->
  block_set_ok blocks (b_first :: b') ->
  uniform_type (a_first :: a') ->
  uniform_type (b_first :: b') ->
  let a := (a_first :: a', a_registers) in
  let b := (b_first :: b', b_registers) in
  let merged :=
    (set_insert_range mb_lt (fst b) (fst a), a_registers ++ b_registers) in
  let lo := Z.min (Address a_first) (Address b_first) in
  let hi := Z.max (Address (last a' a_first)) (Address (last b' b_first)) in
  let mergeable :=
    Index (Type_ a_first) = Index (Type_ b_first)
    /\ Size a_first = Size b_first
    /\ hi - lo + 1 <= snd (typeInfo (Type_ a_first))
    /\ device_gap blocks (Index (Type_ a_first)) lo hi
       <= fst (typeInfo (Type_ a_first)) in
  let condition := fun x y => mergeCondition blocks x y typeInfo in
  (forall others,
      (mergeable
       /\ merge_others condition a (b :: others)
          = merge_others condition merged others)
      \/ (~ mergeable
          /\ merge_others condition a (b :: others)
             = (r <- merge_others condition a others ;;
                Return (fst r, b :: snd r))))
  /\ (CheckSets blocks [a; b] typeInfo = Return tt ->
      (mergeable
       /\ MergeSets blocks [a; b] typeInfo Minify = Return [merged])
      \/ (~ mergeable
          /\ MergeSets blocks [a; b] typeInfo Minify = Return [a; b])).
Proof.
  intros Hreg Ha Hb Hua Hub a b merged lo hi mergeable condition.
  destruct (@mergeCondition_hull blocks typeInfo a_first b_first a' b'
              Hreg Ha Hb Hua Hub) as (answer & Hrun & Hiff).
  fold lo hi mergeable in Hiff.
  assert (Hstep : forall others,
             merge_others condition a (b :: others)
             = if answer then merge_others condition merged others
               else (r <- merge_others condition a others ;;
                     Return (fst r, b :: snd r))).
  { intros others. cbn [merge_others]. unfold condition at 1.
    cbn [a b fst]. rewrite Hrun. reflexivity. }
  assert (Hdec : (mergeable /\ answer = true)
                 \/ (~ mergeable /\ answer = false)).
  { destruct answer.
    - left. split; [now apply Hiff | reflexivity].
    - right. split; [| reflexivity]. intros H. apply Hiff in H. discriminate. }
  split.
  - intros others. rewrite Hstep.
    destruct Hdec as [[Hm ->] | [Hm ->]]; [left | right]; now split.
  - intros Hcheck. unfold MergeSets. rewrite Hcheck. cbn [bind policy_eqb].
    fold condition. rewrite merge_loop_cons, Hstep.
    destruct Hdec as [[Hm ->] | [Hm ->]]; [left | right];
      (split; [exact Hm |]); cbn [merge_others bind fst snd].
    + now simp merge_loop.
    + rewrite merge_loop_cons. cbn [merge_others bind fst snd].
      now simp merge_loop.
Qed.

Lemma MergeSets_Minify_merges_witness :
  MergeSets sample_registry
            [([block 100], [1%nat]); ([block 102], [2%nat])]
            no_hole_limits Minify
  = Return [([block 100; block 102], [1%nat; 2%nat])]
  /\ max_gap (map Address [block 100; block 102])
     > fst (no_hole_limits holding).
Proof.
  split; [| reflexivity].
  assert (Hreg : registry_ok sample_registry).
  { split.
    - repeat constructor.
    - intros mb [<- | [<- | [<- | [<- | []]]]]; unfold nonneg_int; cbn; lia. }
  assert (Hset : forall address,
             In (block address) sample_registry ->
             block_set_ok sample_registry [block address]
             /\ uniform_type [block address]).
  { intros address Hin. split; [split; [discriminate | split] |].
    - repeat constructor.
    - intros mb [<- | []]. exact Hin.
    - intros mb mb' [<- | []] [<- | []]. reflexivity. }
  destruct (Hset 100) as [Ha Hua]; [now left |].
  destruct (Hset 102) as [Hb Hub]; [right; right; now left |].
  destruct (@MergeSets_Minify_merges nat sample_registry no_hole_limits
              (block 100) (block 102) [] [] [1%nat] [2%nat]
              Hreg Ha Hb Hua Hub) as (_ & Hpair).
  destruct (Hpair eq_refl) as [[_ Hrun] | [Hno _]].
  - exact Hrun.
  - exfalso. apply Hno. repeat split; cbn; lia.
Defined.

(** C2, as stated of two sets of the input, fails: the device has holding
    blocks at 98 to 102, max_hole is 0 and max_regs is 3, and the input sets
    are { 100 }, { 98 } and { 102 }.  The sets { 100 } and { 102 } meet the
    four conditions (the hull 100..102 has width 3 and no gap), so the merge
    condition holds of them, yet they are not merged: { 100 } has absorbed
    { 98 } before it is compared with { 102 }, and the hull 98..102 is too
    wide. *)
Lemma MergeSets_Minify_compares_grown_entry :
  (Index (Type_ (block 100)) = Index (Type_ (block 102))
   /\ Size (block 100) = Size (block 102)
   /\ 102 - 100 + 1 <= snd (limits 0 3 holding)
   /\ device_gap wide_registry (Index holding) 100 102
      <= fst (limits 0 3 holding))
  /\ mergeCondition wide_registry [block 100] [block 102] (limits 0 3)
     = Return true
  /\ CheckSets wide_registry (entries_at [100; 98; 102]) (limits 0 3)
     = Return tt
  /\ MergeSets wide_registry (entries_at [100; 98; 102]) (limits 0 3) Minify
     = Return [([block 98; block 100], [100; 98]); ([block 102], [102])].
Proof.
  split; [repeat split; vm_compute; discriminate |].
  repeat split; vm_compute; reflexivity.
Qed.

Lemma merge_step (blocks : TPSet) (typeInfo : TRegisterTypeInfo) (a b : TPSet) :
  registry_ok blocks ->
  types_by_index blocks ->
  block_set_ok blocks a -> within_limits blocks typeInfo a ->
  block_set_ok blocks b -> within_limits blocks typeInfo b ->
  exists mergeable,
    mergeCondition blocks a b typeInfo = Return mergeable
    /\ (mergeable = true ->
        block_set_ok blocks (set_insert_range mb_lt b a)
        /\ within_limits blocks typeInfo (set_insert_range mb_lt b a)).
Proof.
  intros Hreg Hty Ha Wa Hb Wb.
  destruct a as [| fa a']; [destruct Wa |].
  destruct b as [| fb b']; [destruct Wb |].
  cbn [within_limits] in Wa, Wb.
  destruct Wa as (Hale & Hag & Haw & Hua & Hsa).
  destruct Wb as (Hble & Hbg & Hbw & Hub & Hsb).
  destruct (@mergeCondition_hull blocks typeInfo fa fb a' b' Hreg Ha Hb Hua Hub)
    as (mergeable & Hrun & Hiff).
  exists mergeable. split; [exact Hrun |].
  intros Hm. apply Hiff in Hm. clear Hiff Hrun.
  destruct Hm as (Hidx & Hsize & Hwidth & Hgap).
  destruct Ha as (_ & Hoa & Hina), Hb as (_ & Hob & Hinb).
  pose proof (@set_insert_range_union blocks (fa :: a') (fb :: b')
                (proj1 Hreg) Hina Hinb) as Hin.
  pose proof (@set_insert_range_ordered (fb :: b') (fa :: a') Hoa) as Hord.
  remember (set_insert_range mb_lt (fb :: b') (fa :: a')) as u eqn:Eu.
  clear Eu.
  assert (Hi : forall y, In y u -> Index (Type_ y) = Index (Type_ fa)).
  { intros y Hy. apply Hin in Hy. destruct Hy as [Hy | Hy].
    - apply Hua; [exact Hy | now left].
    - rewrite Hidx. apply Hub; [exact Hy | now left]. }
  assert (Hs : forall y, In y u -> Size y = Size fa).
  { intros y Hy. apply Hin in Hy. destruct Hy as [Hy | Hy].
    - apply Hsa; [exact Hy | now left].
    - rewrite Hsize. apply Hsb; [exact Hy | now left]. }
  assert (Hsub : forall y, In y u -> In y blocks).
  { intros y Hy. apply Hin in Hy. destruct Hy as [Hy | Hy]; auto. }
  assert (Hut : uniform_type u).
  { intros x y Hx Hy. rewrite (Hi _ Hx), (Hi _ Hy). reflexivity. }
  assert (Hus : uniform_size u).
  { intros x y Hx Hy. rewrite (Hs _ Hx), (Hs _ Hy). reflexivity. }
  assert (Hfa : In fa u) by (apply Hin; left; now left).
  assert (Hfb : In fb u) by (apply Hin; right; now left).
  assert (Hla : In (last a' fa) u)
    by (apply Hin; left; apply last_cons_In_default).
  assert (Hlb : In (last b' fb) u)
    by (apply Hin; right; apply last_cons_In_default).
  destruct u as [| fu u']; [contradiction |].
  split.
  { split; [discriminate | split; assumption]. }
  pose proof (ordered_set_bounds Hord Hut) as Hbounds.
  pose proof (Hbounds _ Hfa) as Bfa. pose proof (Hbounds _ Hfb) as Bfb.
  pose proof (Hbounds _ Hla) as Bla. pose proof (Hbounds _ Hlb) as Blb.
  assert (Hlo : Z.min (Address fa) (Address fb) <= Address fu).
  { destruct (proj1 (Hin fu) (or_introl eq_refl)) as [H | H].
    - pose proof (ordered_set_bounds Hoa Hua H). lia.
    - pose proof (ordered_set_bounds Hob Hub H). lia. }
  assert (Hhi : Address (last u' fu)
                <= Z.max (Address (last a' fa)) (Address (last b' fb))).
  { destruct (proj1 (Hin (last u' fu)) (last_cons_In_default u' fu)) as [H | H].
    - pose proof (ordered_set_bounds Hoa Hua H). lia.
    - pose proof (ordered_set_bounds Hob Hub H). lia. }
  assert (Efu : Address fu = Z.min (Address fa) (Address fb)) by lia.
  assert (Elu : Address (last u' fu)
                = Z.max (Address (last a' fa)) (Address (last b' fb))) by lia.
  assert (Etu : Type_ fu = Type_ fa).
  { apply Hty; [apply Hsub; now left | apply Hina; now left |].
    apply Hi. now left. }
  cbn [within_limits]. rewrite Etu, Efu, Elu.
  split; [lia |]. split; [exact Hgap |]. split; [lia |].
  split; assumption.
Qed.

Lemma merge_others_within
      (V : Type) (blocks : TPSet) (typeInfo : TRegisterTypeInfo)
      (others : list (TPSet * list V)) :
  registry_ok blocks ->
  types_by_index blocks ->
  forall current,
    (block_set_ok blocks (fst current)
     /\ within_limits blocks typeInfo (fst current)) ->
    (forall e, In e others ->
               block_set_ok blocks (fst e)
               /\ within_limits blocks typeInfo (fst e)) ->
    exists r,
      merge_others (fun a b => mergeCondition blocks a b typeInfo)
                   current others = Return r
      /\ (block_set_ok blocks (fst (fst r))
          /\ within_limits blocks typeInfo (fst (fst r)))
      /\ (forall e, In e (snd r) ->
                    block_set_ok blocks (fst e)
                    /\ within_limits blocks typeInfo (fst e)).
Proof.
  intros Hreg Hty.
  induction others as [| other others IH]; intros current Hcur Hall;
    cbn [merge_others].
  - eexists. split; [reflexivity |]. split; [exact Hcur | intros e []].
  - destruct Hcur as [Hc Wc].
    destruct (Hall other (or_introl eq_refl)) as [Ho Wo].
    destruct (@merge_step blocks typeInfo (fst current) (fst other)
                Hreg Hty Hc Wc Ho Wo) as (mergeable & Hrun & Hstep).
    rewrite Hrun. cbn [bind].
    assert (Hall' : forall e, In e others ->
                              block_set_ok blocks (fst e)
                              /\ within_limits blocks typeInfo (fst e))
      by (intros e He; apply Hall; now right).
    destruct mergeable.
    + apply IH; [| exact Hall']. cbn [fst]. now apply Hstep.
    + destruct (IH current (conj Hc Wc) Hall') as (r & Hr & Hfst & Hsnd).
      rewrite Hr. cbn [bind]. eexists. split; [reflexivity |].
      cbn [fst snd]. split; [exact Hfst |].
      intros e [<- | He]; [now split | now apply Hsnd].
Qed.

Lemma merge_loop_within
      (V : Type) (blocks : TPSet) (typeInfo : TRegisterTypeInfo) :
  registry_ok blocks ->
  types_by_index blocks ->
  forall (n : nat) (sets : list (TPSet * list V)),
    (List.length sets <= n)%nat ->
    (forall e, In e sets ->
               block_set_ok blocks (fst e)
               /\ within_limits blocks typeInfo (fst e)) ->
    exists out,
      merge_loop (fun a b => mergeCondition blocks a b typeInfo) sets
      = Return out
      /\ (forall e, In e out ->
                    block_set_ok blocks (fst e)
                    /\ within_limits blocks typeInfo (fst e)).
Proof.
  intros Hreg Hty.
  induction n as [| n IH]; intros sets Hlen Hall.
  - destruct sets; [| cbn in Hlen; lia].
    exists []. split; [now simp merge_loop | intros e []].
  - destruct sets as [| current others].
    { exists []. split; [now simp merge_loop | intros e []]. }
    rewrite merge_loop_cons.
    destruct (@merge_others_within V blocks typeInfo others Hreg Hty current)
      as (r & Hr & Hfst & Hsnd).
    { apply Hall. now left. }
    { intros e He. apply Hall. now right. }
    rewrite Hr.
    destruct (merge_others_effect _ _ _ Hr) as (_ & _ & _ & _ & _ & Hl).
    assert (Hn : (List.length (snd r) <= n)%nat).
    { cbn [List.length] in Hlen. apply le_S_n in Hlen.
      exact (Nat.le_trans _ _ _ Hl Hlen). }
    destruct (IH (snd r) Hn Hsnd) as (rest & Hrest & Hin).
    rewrite Hrest. cbn [bind]. eexists. split; [reflexivity |].
    intros e [<- | He]; [exact Hfst | now apply Hin].
Qed.

(** X16: merging under Minify stays within the limits.  For a device whose
    registry is an ordered set of blocks with addresses that fit an int and
    one type per type index, and a list of non-empty ordered sets of blocks
    of the registry that CheckSets accepts, MergeSets with the Minify policy
    returns, and what it returns CheckSets accepts again: every entry of the
    result is a non-empty ordered set of blocks of the registry, of one type
    index and one size, whose gap and width are within the limits of its
    type. *)
Theorem MergeSets_Minify_within_limits
        (V : Type) (blocks : TPSet) (typeInfo : TRegisterTypeInfo)
        (sets : list (TPSet * list V)) :
  registry_ok blocks ->
  types_by_index blocks ->
  (forall e, In e sets -> block_set_ok blocks (fst e)) ->
  CheckSets blocks sets typeInfo = Return tt ->
  exists out,
    MergeSets blocks sets typeInfo Minify = Return out
    /\ CheckSets blocks out typeInfo = Return tt
    /\ (forall e, In e out ->
                  block_set_ok blocks (fst e)
                  /\ within_limits blocks typeInfo (fst e)).
Proof.
  intros Hreg Hty Hok Hcheck.
  unfold MergeSets. rewrite Hcheck. cbn [bind policy_eqb].
  assert (Hall : forall e, In e sets ->
                           block_set_ok blocks (fst e)
                           /\ within_limits blocks typeInfo (fst e)).
  { intros e He. split; [now apply Hok |].
    apply (check_set_within typeInfo Hreg (Hok e He)).
    now apply (proj1 (CheckSets_Forall blocks typeInfo sets) Hcheck). }
  destruct (@merge_loop_within V blocks typeInfo Hreg Hty
              (List.length sets) sets (Nat.le_refl _) Hall)
    as (out & Hrun & Hout).
  exists out. split; [exact Hrun |]. split; [| exact Hout].
  apply CheckSets_Forall. intros e He.
  destruct (Hout e He) as [Hb Hw].
  now apply (check_set_within typeInfo Hreg Hb).
Qed.

Lemma MergeSets_Minify_within_limits_witness :
  exists out,
    MergeSets sample_registry (entries_at [100; 103; 101]) (limits 0 3) Minify
    = Return out
    /\ CheckSets sample_registry out (limits 0 3) = Return tt
    /\ map (fun e => map Address (fst e)) out = [[100; 101]; [103]].
Proof.
  destruct (@MergeSets_Minify_within_limits Z sample_registry (limits 0 3)
              (entries_at [100; 103; 101]))
    as (out & Hrun & Hcheck & _).
  - split.
    + repeat constructor.
    + intros mb [<- | [<- | [<- | [<- | []]]]]; unfold nonneg_int; cbn; lia.
  - intros a b Ha Hb _.
    destruct Ha as [<- | [<- | [<- | [<- | []]]]];
      destruct Hb as [<- | [<- | [<- | [<- | []]]]]; reflexivity.
  - intros e [<- | [<- | [<- | []]]];
      (split; [discriminate | split; [repeat constructor |]]);
      intros mb [<- | []]; cbn; auto.
  - vm_compute. reflexivity.
  - exists out. split; [exact Hrun |]. split; [exact Hcheck |].
    assert (E : MergeSets sample_registry (entries_at [100; 103; 101])
                          (limits 0 3) Minify
                = Return [([block 100; block 101], [100; 101]);
                          ([block 103], [103])])
      by (vm_compute; reflexivity).
    rewrite E in Hrun. injection Hrun as <-. reflexivity.
Defined.

(** ** Merging under Minify: nothing is left to merge *)

Lemma max_gap_tail (a : Z) (l : list Z) : max_gap l <= max_gap (a :: l).
Proof.
  destruct l as [| b l]; [cbn; lia |].
  change (max_gap (b :: l) <= Z.max (b - a - 1) (max_gap (b :: l))). lia.
Qed.

Lemma filter_above (lo hi a : Z) (l : list Z) :
  ascending (a :: l) -> hi < a -> filter (in_range lo hi) l = [].
Proof.
  unfold ascending. intros Hasc Ha.
  apply StronglySorted_inv in Hasc. destruct Hasc as [_ Hall].
  rewrite Forall_forall in Hall.
  induction l as [| b l IH]; [reflexivity |].
  cbn [filter]. unfold in_range at 1.
  pose proof (Hall b (or_introl eq_refl)).
  replace (b <=? hi) with false by (symmetry; apply Z.leb_gt; lia).
  rewrite andb_false_r. apply IH. intros z Hz. apply Hall. now right.
Qed.

Lemma max_gap_filter (lo hi : Z) (l : list Z) :
  ascending l -> max_gap (filter (in_range lo hi) l) <= max_gap l.
Proof.
  unfold ascending.
  induction l as [| a l IH]; intros Hasc; [cbn; lia |].
  pose proof Hasc as Hasc'.
  apply StronglySorted_inv in Hasc'. destruct Hasc' as [Hl Hall].
  specialize (IH Hl).
  cbn [filter]. destruct (in_range lo hi a) eqn:Ha.
  2: { pose proof (max_gap_tail a l). lia. }
  destruct l as [| b l]; [cbn; lia |].
  cbn [filter] in *. destruct (in_range lo hi b) eqn:Hb.
  - change (Z.max (b - a - 1) (max_gap (b :: filter (in_range lo hi) l))
            <= Z.max (b - a - 1) (max_gap (b :: l))). lia.
  - rewrite Forall_forall in Hall. pose proof (Hall b (or_introl eq_refl)).
    unfold in_range in Ha, Hb.
    apply andb_true_iff in Ha. destruct Ha as [Ha1 Ha2].
    apply Z.leb_le in Ha1, Ha2.
    apply andb_false_iff in Hb.
    assert (hi < b) by (destruct Hb as [Hb | Hb]; apply Z.leb_gt in Hb; lia).
    rewrite (@filter_above lo hi b l Hl) by assumption.
    pose proof (max_gap_nonneg (a :: b :: l)). cbn [max_gap] in *. lia.
Qed.

Lemma blocks_in_range_narrow (blocks : TPSet) (index lo hi lo' hi' : Z) :
  lo' <= lo -> hi <= hi' ->
  map Address (blocks_in_range blocks index lo hi)
  = filter (in_range lo hi) (map Address (blocks_in_range blocks index lo' hi')).
Proof.
  intros Hlo Hhi. unfold blocks_in_range, in_range.
  induction blocks as [| mb blocks IH]; [reflexivity |].
  cbn [filter].
  destruct (Index (Type_ mb) =? index); cbn [andb]; [| exact IH].
  destruct (Z.leb_spec lo (Address mb)), (Z.leb_spec (Address mb) hi),
    (Z.leb_spec lo' (Address mb)), (Z.leb_spec (Address mb) hi');
    cbn [andb map filter]; try lia; try exact IH;
    unfold in_range;
    repeat match goal with
           | |- context [?x <=? ?y] =>
               destruct (Z.leb_spec x y); try lia
           end;
    cbn [andb]; try (f_equal; exact IH); exact IH.
Qed.

Lemma device_gap_mono (blocks : TPSet) (index lo hi lo' hi' : Z) :
  ordered_set blocks ->
  lo' <= lo -> hi <= hi' ->
  device_gap blocks index lo hi <= device_gap blocks index lo' hi'.
Proof.
  intros Hord Hlo Hhi. unfold device_gap.
  rewrite (@blocks_in_range_narrow blocks index lo hi lo' hi' Hlo Hhi).
  apply max_gap_filter. now apply blocks_in_range_ascending.
Qed.

Lemma mergeCondition_false
      (blocks : TPSet) (typeInfo : TRegisterTypeInfo)
      (a_first b_first : TMemoryBlock) (a' b' : TPSet) :
  registry_ok blocks ->
  block_set_ok blocks (a_first :: a') ->
  block_set_ok blocks (b_first :: b') ->
  uniform_type (a_first :: a') ->
  uniform_type (b_first :: b') ->
  let lo := Z.min (Address a_first) (Address b_first) in
  let hi := Z.max (Address (last a' a_first)) (Address (last b' b_first)) in
  mergeCondition blocks (a_first :: a') (b_first :: b') typeInfo = Return false
  <-> ~ (Index (Type_ a_first) = Index (Type_ b_first)
         /\ Size a_first = Size b_first
         /\ hi - lo + 1 <= snd (typeInfo (Type_ a_first))
         /\ device_gap blocks (Index (Type_ a_first)) lo hi
            <= fst (typeInfo (Type_ a_first))).
Proof.
  intros Hreg Ha Hb Hua Hub lo hi.
  destruct (@mergeCondition_hull blocks typeInfo a_first b_first a' b'
              Hreg Ha Hb Hua Hub) as (mergeable & Hrun & Hiff).
  fold lo hi in Hiff. rewrite Hrun. destruct mergeable.
  - split; [discriminate |]. intros H. exfalso. apply H. now apply Hiff.
  - split; [intros _ H | reflexivity]. apply Hiff in H. discriminate.
Qed.

Lemma mergeCondition_mono
      (blocks : TPSet) (typeInfo : TRegisterTypeInfo) (a a' b b' : TPSet) :
  registry_ok blocks ->
  types_by_index blocks ->
  block_set_ok blocks a -> within_limits blocks typeInfo a ->
  block_set_ok blocks a' -> within_limits blocks typeInfo a' ->
  block_set_ok blocks b -> within_limits blocks typeInfo b ->
  block_set_ok blocks b' -> within_limits blocks typeInfo b' ->
  (forall x, In x a -> In x a') ->
  (forall x, In x b -> In x b') ->
  mergeCondition blocks a b typeInfo = Return false ->
  mergeCondition blocks a' b' typeInfo = Return false.
Proof.
  intros Hreg Hty Ha Wa Ha' Wa' Hb Wb Hb' Wb' Hsa Hsb.
  destruct a as [| fa ta]; [destruct Wa |].
  destruct a' as [| fa' ta']; [destruct Wa' |].
  destruct b as [| fb tb]; [destruct Wb |].
  destruct b' as [| fb' tb']; [destruct Wb' |].
  cbn [within_limits] in Wa, Wa', Wb, Wb'.
  destruct Wa as (_ & _ & _ & Hua & Hza), Wa' as (_ & _ & _ & Hua' & Hza').
  destruct Wb as (_ & _ & _ & Hub & Hzb), Wb' as (_ & _ & _ & Hub' & Hzb').
  rewrite (@mergeCondition_false blocks typeInfo fa fb ta tb Hreg Ha Hb Hua Hub).
  rewrite (@mergeCondition_false blocks typeInfo fa' fb' ta' tb'
             Hreg Ha' Hb' Hua' Hub').
  intros Hno (Hidx & Hsize & Hwidth & Hgap). apply Hno. clear Hno.
  assert (Ifa : In fa (fa' :: ta')) by (apply Hsa; now left).
  assert (Ifb : In fb (fb' :: tb')) by (apply Hsb; now left).
  assert (Ila : In (last ta fa) (fa' :: ta'))
    by (apply Hsa; apply last_cons_In_default).
  assert (Ilb : In (last tb fb) (fb' :: tb'))
    by (apply Hsb; apply last_cons_In_default).
  assert (Ea : Index (Type_ fa) = Index (Type_ fa'))
    by (apply Hua'; [exact Ifa | now left]).
  assert (Eb : Index (Type_ fb) = Index (Type_ fb'))
    by (apply Hub'; [exact Ifb | now left]).
  assert (Et : Type_ fa = Type_ fa').
  { apply Hty; [apply Ha; now left | apply Ha'; now left | exact Ea]. }
  pose proof (ordered_set_bounds (proj1 (proj2 Ha')) Hua' Ifa) as Bfa.
  pose proof (ordered_set_bounds (proj1 (proj2 Ha')) Hua' Ila) as Bla.
  pose proof (ordered_set_bounds (proj1 (proj2 Hb')) Hub' Ifb) as Bfb.
  pose proof (ordered_set_bounds (proj1 (proj2 Hb')) Hub' Ilb) as Blb.
  rewrite Et.
  split; [congruence |].
  split; [rewrite (Hza' fa fa' Ifa (or_introl eq_refl)),
            (Hzb' fb fb' Ifb (or_introl eq_refl)); exact Hsize |].
  split; [lia |].
  eapply Z.le_trans; [| exact Hgap].
  rewrite <- Ea. apply device_gap_mono; [apply Hreg | lia | lia].
Qed.

Lemma mergeCondition_sym
      (blocks : TPSet) (typeInfo : TRegisterTypeInfo) (a b : TPSet) :
  registry_ok blocks ->
  types_by_index blocks ->
  block_set_ok blocks a -> within_limits blocks typeInfo a ->
  block_set_ok blocks b -> within_limits blocks typeInfo b ->
  mergeCondition blocks a b typeInfo = Return false ->
  mergeCondition blocks b a typeInfo = Return false.
Proof.
  intros Hreg Hty Ha Wa Hb Wb.
  destruct a as [| fa ta]; [destruct Wa |].
  destruct b as [| fb tb]; [destruct Wb |].
  cbn [within_limits] in Wa, Wb.
  destruct Wa as (_ & _ & _ & Hua & _), Wb as (_ & _ & _ & Hub & _).
  rewrite (@mergeCondition_false blocks typeInfo fa fb ta tb Hreg Ha Hb Hua Hub).
  rewrite (@mergeCondition_false blocks typeInfo fb fa tb ta Hreg Hb Ha Hub Hua).
  intros Hno (Hidx & Hsize & Hwidth & Hgap). apply Hno. clear Hno.
  assert (Et : Type_ fb = Type_ fa).
  { apply Hty; [apply Hb; now left | apply Ha; now left | exact Hidx]. }
  rewrite Et in *.
  rewrite (Z.min_comm (Address fa)), (Z.max_comm (Address (last ta fa))).
  split; [congruence | split; [congruence | split; assumption]].
Qed.

Lemma merge_others_rejects
      (V : Type) (blocks : TPSet) (typeInfo : TRegisterTypeInfo)
      (others : list (TPSet * list V)) :
  registry_ok blocks ->
  types_by_index blocks ->
  forall current r,
    (block_set_ok blocks (fst current)
     /\ within_limits blocks typeInfo (fst current)) ->
    (forall e, In e others ->
               block_set_ok blocks (fst e)
               /\ within_limits blocks typeInfo (fst e)) ->
    merge_others (fun a b => mergeCondition blocks a b typeInfo)
                 current others = Return r ->
    forall e, In e (snd r) ->
              mergeCondition blocks (fst (fst r)) (fst e) typeInfo
              = Return false.
Proof.
  intros Hreg Hty.
  induction others as [| other others IH]; intros current r Hcur Hall Hrun.
  - cbn [merge_others] in Hrun. injection Hrun as <-. intros e [].
  - destruct (@merge_others_within V blocks typeInfo (other :: others)
                Hreg Hty current Hcur Hall) as (r' & Hr' & Hfst & Hsnd).
    rewrite Hrun in Hr'. injection Hr' as <-.
    cbn [merge_others] in Hrun.
    destruct Hcur as [Hc Wc].
    destruct (Hall other (or_introl eq_refl)) as [Ho Wo].
    assert (Hall' : forall e, In e others ->
                              block_set_ok blocks (fst e)
                              /\ within_limits blocks typeInfo (fst e))
      by (intros e He; apply Hall; now right).
    destruct (@merge_step blocks typeInfo (fst current) (fst other)
                Hreg Hty Hc Wc Ho Wo) as (mergeable & Hcond & Hstep).
    rewrite Hcond in Hrun. cbn [bind] in Hrun.
    destruct mergeable.
    + eapply IH; [| exact Hall' | exact Hrun]. cbn [fst]. now apply Hstep.
    + destruct (merge_others
                  (fun a b => mergeCondition blocks a b typeInfo)
                  current others) as [r' | |] eqn:E;
        cbn [bind] in Hrun; try discriminate.
      injection Hrun as <-. cbn [fst snd] in *.
      destruct (merge_others_effect _ _ _ E) as (_ & _ & Hblocks & _).
      intros e [<- | He].
      * apply (@mergeCondition_mono blocks typeInfo
                 (fst current) (fst (fst r')) (fst other) (fst other));
          try assumption; try apply Hfst; auto.
      * eapply IH; [split; [exact Hc | exact Wc] | exact Hall' | exact E |].
        exact He.
Qed.

Lemma merge_loop_origin (V : Type) (condition : TPSet -> TPSet -> result bool) :
  forall (n : nat) (sets out : list (TPSet * list V)),
    (List.length sets <= n)%nat ->
    merge_loop condition sets = Return out ->
    forall o, In o out ->
              exists e, In e sets /\ forall b, In b (fst e) -> In b (fst o).
Proof.
  induction n as [| n IH]; intros sets out Hlen Hrun.
  - destruct sets; [| cbn in Hlen; lia].
    simp merge_loop in Hrun. injection Hrun as <-. intros o [].
  - destruct sets as [| current others].
    { simp merge_loop in Hrun. injection Hrun as <-. intros o []. }
    rewrite merge_loop_cons in Hrun.
    destruct (merge_others condition current others) as [r | |] eqn:Hothers;
      try discriminate.
    destruct (merge_loop condition (snd r)) as [rest | |] eqn:Hrest;
      cbn [bind] in Hrun; try discriminate.
    injection Hrun as <-.
    destruct (merge_others_effect _ _ _ Hothers)
      as (_ & _ & Hblocks & _ & Hfrom & Hl).
    assert (Hn : (List.length (snd r) <= n)%nat).
    { cbn [List.length] in Hlen. apply le_S_n in Hlen.
      exact (Nat.le_trans _ _ _ Hl Hlen). }
    intros o [<- | Ho].
    + exists current. split; [now left | exact Hblocks].
    + destruct (IH (snd r) rest Hn Hrest o Ho) as (e & He & Hsub).
      exists e. split; [right; now apply Hfrom | exact Hsub].
Qed.

Lemma merge_loop_maximal
      (V : Type) (blocks : TPSet) (typeInfo : TRegisterTypeInfo) :
  registry_ok blocks ->
  types_by_index blocks ->
  forall (n : nat) (sets out : list (TPSet * list V)),
    (List.length sets <= n)%nat ->
    (forall e, In e sets ->
               block_set_ok blocks (fst e)
               /\ within_limits blocks typeInfo (fst e)) ->
    merge_loop (fun a b => mergeCondition blocks a b typeInfo) sets
    = Return out ->
    ForallOrdPairs
      (fun o1 o2 => unmergeable blocks typeInfo (fst o1) (fst o2)) out.
Proof.
  intros Hreg Hty.
  induction n as [| n IH]; intros sets out Hlen Hall Hrun.
  - destruct sets; [| cbn in Hlen; lia].
    simp merge_loop in Hrun. injection Hrun as <-. constructor.
  - destruct sets as [| current others].
    { simp merge_loop in Hrun. injection Hrun as <-. constructor. }
    rewrite merge_loop_cons in Hrun.
    destruct (@merge_others_within V blocks typeInfo others Hreg Hty current)
      as (r & Hr & Hfst & Hsnd).
    { apply Hall. now left. }
    { intros e He. apply Hall. now right. }
    rewrite Hr in Hrun.
    destruct (merge_others_effect _ _ _ Hr) as (_ & _ & _ & _ & _ & Hl).
    assert (Hn : (List.length (snd r) <= n)%nat).
    { cbn [List.length] in Hlen. apply le_S_n in Hlen.
      exact (Nat.le_trans _ _ _ Hl Hlen). }
    destruct (@merge_loop_within V blocks typeInfo Hreg Hty n (snd r) Hn Hsnd)
      as (rest & Hrest & Hin).
    rewrite Hrest in Hrun. cbn [bind] in Hrun. injection Hrun as <-.
    constructor; [| exact (IH (snd r) rest Hn Hsnd Hrest)].
    apply Forall_forall. intros o Ho.
    destruct (@merge_loop_origin V _ n (snd r) rest Hn Hrest o Ho)
      as (e & He & Hsub).
    assert (Hrej : mergeCondition blocks (fst (fst r)) (fst o) typeInfo
                   = Return false).
    { apply (@mergeCondition_mono blocks typeInfo
               (fst (fst r)) (fst (fst r)) (fst e) (fst o));
        try assumption; try apply Hfst; try apply (Hsnd e He);
        try apply (Hin o Ho); auto.
      exact (@merge_others_rejects V blocks typeInfo others Hreg Hty current r
               (Hall current (or_introl eq_refl))
               (fun e' He' => Hall e' (or_intror He')) Hr e He). }
    split; [exact Hrej |].
    apply mergeCondition_sym; try assumption; try apply Hfst;
      apply (Hin o Ho).
Qed.

(** X17: merging under Minify leaves nothing to merge.  For a device whose
    registry is an ordered set of blocks with addresses that fit an int and
    one type per type index, and a list of non-empty ordered sets of blocks
    of the registry, when MergeSets with the Minify policy returns, the merge
    condition answers false on every two entries of the result, in either
    order: the greedy loop, which compares every later entry only with the
    entry being grown, misses no merge, because growing an entry never makes
    a refused merge allowed. *)
Theorem MergeSets_Minify_maximal
        (V : Type) (blocks : TPSet) (typeInfo : TRegisterTypeInfo)
        (sets out : list (TPSet * list V)) :
  registry_ok blocks ->
  types_by_index blocks ->
  (forall e, In e sets -> block_set_ok blocks (fst e)) ->
  MergeSets blocks sets typeInfo Minify = Return out ->
  ForallOrdPairs
    (fun o1 o2 => unmergeable blocks typeInfo (fst o1) (fst o2)) out.
Proof.
  intros Hreg Hty Hok Hrun. unfold MergeSets in Hrun.
  destruct (CheckSets blocks sets typeInfo) as [[] | |] eqn:Hcheck;
    cbn [bind policy_eqb] in Hrun; try discriminate.
  eapply merge_loop_maximal; try eassumption; [apply Nat.le_refl |].
  intros e He. split; [now apply Hok |].
  apply (proj1 (@check_set_within blocks typeInfo (fst e) Hreg (Hok e He))).
  now apply (proj1 (CheckSets_Forall blocks typeInfo sets) Hcheck).
Qed.

Lemma MergeSets_Minify_maximal_witness :
  unmergeable sample_registry (limits 0 3)
              [block 100; block 101] [block 103].
Proof.
  assert (H : ForallOrdPairs
                (fun o1 o2 : TPSet * list Z =>
                   unmergeable sample_registry (limits 0 3) (fst o1) (fst o2))
                [([block 100; block 101], [100; 101]); ([block 103], [103])]).
  { apply (@MergeSets_Minify_maximal Z sample_registry (limits 0 3)
             (entries_at [100; 103; 101])).
    - split.
      + repeat constructor.
      + intros mb [<- | [<- | [<- | [<- | []]]]]; unfold nonneg_int; cbn; lia.
    - intros a b Ha Hb _.
      destruct Ha as [<- | [<- | [<- | [<- | []]]]];
        destruct Hb as [<- | [<- | [<- | [<- | []]]]]; reflexivity.
    - intros e [<- | [<- | [<- | []]]];
        (split; [discriminate | split; [repeat constructor |]]);
        intros mb [<- | []]; cbn; auto.
    - vm_compute. reflexivity. }
  inversion H as [| o l Hfirst _]. subst.
  inversion Hfirst as [| o' l' Hpair _]. exact Hpair.
Defined.

(** ** The hole of a set and the gaps of the set itself *)

Lemma max_gap_successors (m : list Z) (g : Z) :
  ascending m ->
  0 <= g ->
  (forall x, In x m -> (exists z, In z m /\ x < z) ->
             exists y, In y m /\ x < y <= x + g + 1) ->
  max_gap m <= g.
Proof.
  unfold ascending. intros Hasc Hg.
  induction m as [| a m IH]; intros Hsucc; [cbn; lia |].
  destruct m as [| b t]; [cbn; lia |].
  apply StronglySorted_inv in Hasc. destruct Hasc as [Hm Hall].
  rewrite Forall_forall in Hall.
  pose proof Hm as Hm'.
  apply StronglySorted_inv in Hm'. destruct Hm' as [_ Hallb].
  rewrite Forall_forall in Hallb.
  change (Z.max (b - a - 1) (max_gap (b :: t)) <= g).
  apply Z.max_lub.
  - destruct (Hsucc a (or_introl eq_refl)) as (y & Hy & Hay).
    { exists b. split; [right; now left |]. apply Hall. now left. }
    destruct Hy as [<- | [<- | Hy]]; [lia | lia |].
    specialize (Hallb y Hy). lia.
  - apply IH; [exact Hm |].
    intros x Hx (z & Hz & Hxz).
    destruct (Hsucc x (or_intror Hx)) as (y & Hy & Hxy).
    { exists z. split; [now right | exact Hxz]. }
    exists y. split; [| exact Hxy].
    destruct Hy as [<- | Hy]; [| exact Hy].
    specialize (Hall x Hx). lia.
Qed.

Lemma max_gap_covers (l : list Z) :
  forall f x,
    f <= x < last l f ->
    exists b, In b (f :: l) /\ x < b <= x + max_gap (f :: l) + 1.
Proof.
  induction l as [| b t IH]; intros f x Hx; [cbn in Hx; lia |].
  rewrite last_cons in Hx.
  change (max_gap (f :: b :: t)) with (Z.max (b - f - 1) (max_gap (b :: t))).
  destruct (Z.lt_ge_cases x b) as [Hlt | Hge].
  - exists b. split; [right; now left | lia].
  - destruct (IH b x ltac:(lia)) as (y & Hy & Hxy).
    exists y. split; [now right | lia].
Qed.

Lemma max_gap_refines (f : Z) (l m : list Z) :
  ascending m ->
  (forall x, In x (f :: l) -> In x m) ->
  (forall x, In x m -> f <= x <= last l f) ->
  max_gap m <= max_gap (f :: l).
Proof.
  intros Hm Hsub Hrange.
  apply max_gap_successors; [exact Hm | apply max_gap_nonneg |].
  intros x Hx (z & Hz & Hxz).
  pose proof (Hrange x Hx). pose proof (Hrange z Hz).
  destruct (@max_gap_covers l f x ltac:(lia)) as (b & Hb & Hxb).
  exists b. split; [now apply Hsub | exact Hxb].
Qed.

Lemma last_map (A B : Type) (g : A -> B) (l : list A) (d : A) :
  last (map g l) (g d) = g (last l d).
Proof.
  induction l as [| a l IH]; [reflexivity |].
  cbn [map]. rewrite !last_cons. clear IH.
  revert a. induction l as [| b l IH]; intros a; [reflexivity |].
  cbn [map]. rewrite !last_cons. apply IH.
Qed.

(** X18: the hole of a set is at most the largest gap of the set itself.
    For a non-empty ordered set of blocks of the registry, of one type index,
    GetMaxHoleSize returns a hole that is not negative and not above the
    largest gap between consecutive addresses of the set: blocks that the
    device has in between, of other registers, only fill the gaps of the
    set. *)
Theorem GetMaxHoleSize_at_most_own_gap
        (blocks s : TPSet) :
  registry_ok blocks ->
  block_set_ok blocks s ->
  uniform_type s ->
  exists hole,
    GetMaxHoleSize_set blocks s = Return hole
    /\ 0 <= hole <= max_gap (map Address s).
Proof.
  intros Hreg Hok Huni.
  destruct s as [| first s']; [destruct Hok as [H _]; contradiction |].
  destruct Hok as (_ & Hord & Hin).
  pose proof (ordered_set_bounds Hord Huni) as Hbounds.
  unfold GetMaxHoleSize_set. cbn [set_begin set_rbegin bind].
  rewrite GetMaxHoleSize_device_gap;
    [| exact Hreg
     | apply (Hbounds (last s' first)); apply last_cons_In_default].
  eexists. split; [reflexivity |].
  split; [apply max_gap_nonneg |].
  unfold device_gap. cbn [map]. apply max_gap_refines.
  - apply blocks_in_range_ascending. apply Hreg.
  - intros x Hx. change (In x (map Address (first :: s'))) in Hx.
    apply in_map_iff in Hx. destruct Hx as (mb & <- & Hmb).
    apply in_map. apply blocks_in_range_In.
    split; [now apply Hin |].
    split; [apply Huni; [exact Hmb | now left] | now apply Hbounds].
  - intros x Hx. apply in_map_iff in Hx. destruct Hx as (mb & <- & Hmb).
    apply blocks_in_range_In in Hmb. rewrite last_map. lia.
Qed.

Lemma GetMaxHoleSize_at_most_own_gap_witness :
  GetMaxHoleSize_set sample_registry [block 100; block 103] = Return 0
  /\ max_gap (map Address [block 100; block 103]) = 2.
Proof.
  split; [| reflexivity].
  destruct (@GetMaxHoleSize_at_most_own_gap sample_registry
              [block 100; block 103]) as (hole & Hrun & Hhole).
  - split.
    + repeat constructor.
    + intros mb [<- | [<- | [<- | [<- | []]]]]; unfold nonneg_int; cbn; lia.
  - split; [discriminate | split; [repeat constructor |]].
    intros mb [<- | [<- | []]]; cbn; auto.
  - intros mb mb' [<- | [<- | []]] [<- | [<- | []]]; reflexivity.
  - rewrite Hrun. f_equal.
    assert (E : GetMaxHoleSize_set sample_registry [block 100; block 103]
                = Return 0) by (vm_compute; reflexivity).
    rewrite E in Hrun. now injection Hrun.
Defined.
